(** * Loan-eligibility screening assistant: a shallow embedding

    The development follows the three leaf modules of the repository:

    - [utils/loan_calculator.py]  -> Module [Loan]
    - [services/gemini_service.py] ([_extract_entities]) -> Module [Extract]
    - [utils/pii_masker.py]       -> Module [Pii]

    Python [float]s are IEEE-754 binary64 numbers and are embedded as Rocq's
    primitive floats; Python [str] is embedded as a list of ASCII characters
    where the code scans it with regular expressions, and as [string] where
    it is only compared or passed around. *)

From Stdlib Require Import Ascii String.
From Stdlib Require Import Bool List Arith ZArith Lia.
From Stdlib Require Import DecimalString DecimalNat.
From Stdlib Require Import Floats.
Import ListNotations.

Set Implicit Arguments.

(* ================================================================== *)
(** * Python numerics *)
(* ================================================================== *)

Module PyFloat.

Local Open Scope Z_scope.

(** Nearest integer to [a / b] for [0 <= a], [0 < b], ties to even. *)
Definition round_half_even_div (a b : Z) : Z :=
  let q := a / b in
  let r := a mod b in
  match (2 * r ?= b) with
  | Lt => q
  | Gt => q + 1
  | Eq => if Z.even q then q else q + 1
  end.

(** The float nearest to the rational [n / d] ([n], [d] positive). *)
Definition nearest_ratio (s : bool) (n d : positive) : float :=
  SF2Prim (SFdiv prec emax (S754_finite s n 0) (S754_finite false d 0)).

(** [round(x, 2)]: CPython rounds the exact binary value of [x] to two
    decimals (half to even) and reads the decimal back as the nearest
    float; non-finite values and zeros round to themselves. *)
Definition round2 (x : float) : float :=
  match Prim2SF x with
  | S754_finite s m e =>
      let n := match e with
               | Zneg p => round_half_even_div (Zpos m * 100) (2 ^ Zpos p)
               | _ => Zpos m * 100 * 2 ^ e
               end in
      match n with
      | Zpos p => nearest_ratio s p 100
      | _ => if s then neg_zero else zero
      end
  | _ => x
  end.

(** [float(n)] for a Python [int]. *)
Definition of_Z (n : Z) : float :=
  SF2Prim (binary_normalize prec emax n 0 false).

End PyFloat.

(* ================================================================== *)
(** * utils/loan_calculator.py *)
(* ================================================================== *)

Module Loan.

Local Open Scope string_scope.
Local Open Scope list_scope.

(** [class ApprovalStatus(Enum)] and its [.value]. *)
Inductive ApprovalStatus := APPROVED | CONDITIONAL | REJECTED | INSUFFICIENT_DATA.

Definition ApprovalStatus_value (s : ApprovalStatus) : string :=
  match s with
  | APPROVED => "approved"
  | CONDITIONAL => "conditional"
  | REJECTED => "rejected"
  | INSUFFICIENT_DATA => "insufficient_data"
  end.

(** [class EmploymentStatus(Enum)]. *)
Inductive EmploymentStatus :=
  FULL_TIME | PART_TIME | SELF_EMPLOYED | UNEMPLOYED | RETIRED | STUDENT.

Definition EmploymentStatus_value (s : EmploymentStatus) : string :=
  match s with
  | FULL_TIME => "full_time"
  | PART_TIME => "part_time"
  | SELF_EMPLOYED => "self_employed"
  | UNEMPLOYED => "unemployed"
  | RETIRED => "retired"
  | STUDENT => "student"
  end.

(** [class CreditScoreRange(Enum)]. *)
Inductive CreditScoreRange := EXCELLENT | GOOD | FAIR | POOR | VERY_POOR.

Definition CreditScoreRange_value (s : CreditScoreRange) : string :=
  match s with
  | EXCELLENT => "excellent"
  | GOOD => "good"
  | FAIR => "fair"
  | POOR => "poor"
  | VERY_POOR => "very_poor"
  end.

(** Class constants of [LoanApprovalCalculator]. *)
Definition DTI_APPROVED_MAX : float := 36%float.
Definition DTI_CONDITIONAL_MAX : float := 43%float.
Definition MIN_INCOME : float := 15000%float.

(** An f-string is kept as its pieces: literal text and the values that
    Python would format into it. *)
Inductive piece :=
| Txt (s : string)
| Num (x : float)            (* {x}       *)
| Money (x : float).         (* {x:,.2f}  *)

Definition fstring := list piece.

(** [sep.join(parts)]. *)
Fixpoint join (sep : fstring) (parts : list fstring) : fstring :=
  match parts with
  | [] => []
  | [p] => p
  | p :: rest => p ++ sep ++ join sep rest
  end.

(** [applicant_data]: the five recognised keys; a key that is absent or
    bound to [None] is [None] here. *)
Record applicant_data := {
  gross_monthly_income : option float;
  total_monthly_debt : option float;
  loan_amount : option float;
  employment_status : option string;
  credit_score_range : option string
}.

Record applicant_summary := {
  monthly_income : fstring;
  monthly_debt : fstring;
  s_loan_amount : fstring;
  dti_percentage : fstring;
  employment : string;
  credit_range : string
}.

(** The dictionary returned by [evaluate_application]; [status] is a
    Python value that may be [None]. *)
Record decision_dict := {
  status : option string;
  decision : string;
  reason : fstring;
  missing : option (list string);
  dti_ratio : option float;
  recommendations : list fstring;
  summary : option applicant_summary
}.

Definition ValueError := string.

Definition calculate_dti (gross_monthly_income total_monthly_debt : float)
  : ValueError + float :=
  if (gross_monthly_income <=? 0)%float
  then inl "Gross monthly income must be greater than zero"
  else inr (PyFloat.round2 ((total_monthly_debt / gross_monthly_income) * 100)%float).

Definition is_missing {A} (v : option A) : bool :=
  match v with None => true | Some _ => false end.

Definition check_data_completeness (d : applicant_data) : bool * list string :=
  let missing_fields :=
    (if is_missing (gross_monthly_income d) then ["gross_monthly_income"] else []) ++
    (if is_missing (total_monthly_debt d) then ["total_monthly_debt"] else []) ++
    (if is_missing (loan_amount d) then ["loan_amount"] else []) ++
    (if is_missing (employment_status d) then ["employment_status"] else []) ++
    (if is_missing (credit_score_range d) then ["credit_score_range"] else []) in
  (Nat.eqb (List.length missing_fields) 0, missing_fields).

(** The four locals that the body of [evaluate_application] updates. *)
Record locals := {
  l_status : option string;
  l_decision : string;
  l_reasons : list fstring;
  l_recommendations : list fstring
}.

Definition init_locals : locals :=
  {| l_status := None; l_decision := ""; l_reasons := []; l_recommendations := [] |}.

Definition str_eq (a b : string) : bool := String.eqb a b.

Definition status_is (l : locals) (s : ApprovalStatus) : bool :=
  match l_status l with
  | Some v => str_eq v (ApprovalStatus_value s)
  | None => false
  end.

(** [# Check minimum requirements] *)
Definition check_minimum (gross_income : float) (employment_status : string)
    (l : locals) : locals :=
  let l1 :=
    if (gross_income <? MIN_INCOME)%float then
      {| l_status := Some (ApprovalStatus_value REJECTED);
         l_decision := l_decision l;
         l_reasons := l_reasons l ++
           [[Txt "Monthly income (₹"; Money gross_income;
             Txt ") is below minimum requirement (₹"; Money MIN_INCOME; Txt ")"]];
         l_recommendations := l_recommendations l |}
    else l in
  if str_eq employment_status (EmploymentStatus_value UNEMPLOYED) then
    {| l_status := Some (ApprovalStatus_value REJECTED);
       l_decision := l_decision l1;
       l_reasons := l_reasons l1 ++ [[Txt "Applicant must have employment or income source"]];
       l_recommendations := l_recommendations l1 |}
  else l1.

(** [# Evaluate based on DTI ratio] *)
Definition evaluate_dti (dti : float) (l : locals) : locals :=
  match l_status l with
  | Some _ => l
  | None =>
    if (dti <=? DTI_APPROVED_MAX)%float then
      {| l_status := Some (ApprovalStatus_value APPROVED);
         l_decision := "Application Approved";
         l_reasons := l_reasons l ++
           [[Txt "Debt-to-Income ratio ("; Num dti; Txt "%) is excellent"]];
         l_recommendations := l_recommendations l ++
           [[Txt "Proceed with document submission"];
            [Txt "Upload proof of income (recent pay stubs)"];
            [Txt "Upload proof of identity (driver's license)"];
            [Txt "Submit bank statements (last 2 months)"]] |}
    else if (dti <=? DTI_CONDITIONAL_MAX)%float then
      {| l_status := Some (ApprovalStatus_value CONDITIONAL);
         l_decision := "Application Conditionally Approved";
         l_reasons := l_reasons l ++
           [[Txt "Debt-to-Income ratio ("; Num dti; Txt "%) requires additional review"]];
         l_recommendations := l_recommendations l ++
           [[Txt "Application requires manual underwriting review"];
            [Txt "Consider reducing monthly debt obligations"];
            [Txt "Provide additional documentation of income stability"];
            [Txt "May require higher down payment"];
            [Txt "Co-signer might improve approval chances"]] |}
    else
      {| l_status := Some (ApprovalStatus_value REJECTED);
         l_decision := "Application Rejected";
         l_reasons := l_reasons l ++
           [[Txt "Debt-to-Income ratio ("; Num dti;
             Txt "%) exceeds maximum threshold (43%)"]];
         l_recommendations := l_recommendations l ++
           [[Txt "Reduce monthly debt payments before reapplying"];
            [Txt "Increase gross monthly income"];
            [Txt "Consider a smaller loan amount"];
            [Txt "Target DTI ratio below 43% (currently "; Num dti; Txt "%)"];
            [Txt "Seek credit counseling for debt management"]] |}
  end.

Definition credit_reason : fstring := [Txt "Credit score is below preferred range"].
Definition credit_recommendation : fstring :=
  [Txt "Work on improving credit score for better terms"].

(** [# Add credit score considerations] *)
Definition credit_considerations (credit_score : string) (l : locals) : locals :=
  if str_eq credit_score (CreditScoreRange_value POOR)
     || str_eq credit_score (CreditScoreRange_value VERY_POOR) then
    let l1 :=
      if status_is l APPROVED then
        {| l_status := Some (ApprovalStatus_value CONDITIONAL);
           l_decision := "Application Conditionally Approved";
           l_reasons := l_reasons l;
           l_recommendations := l_recommendations l |}
      else l in
    {| l_status := l_status l1;
       l_decision := l_decision l1;
       l_reasons := l_reasons l1 ++ [credit_reason];
       l_recommendations := l_recommendations l1 ++ [credit_recommendation] |}
  else l.

(** The locals as they stand just before the credit-score step. *)
Definition before_credit (gross_income dti : float) (employment_status : string)
  : locals :=
  evaluate_dti dti (check_minimum gross_income employment_status init_locals).

Definition evaluate_application (d : applicant_data) : decision_dict :=
  match gross_monthly_income d, total_monthly_debt d, loan_amount d,
        employment_status d, credit_score_range d with
  | Some gross_income, Some monthly_debt, Some loan, Some employment, Some credit =>
    match calculate_dti gross_income monthly_debt with
    | inl e =>
      {| status := Some (ApprovalStatus_value REJECTED);
         decision := "Application Rejected";
         reason := [Txt e];
         missing := None;
         dti_ratio := None;
         recommendations := [[Txt "Income must be greater than zero"]];
         summary := None |}
    | inr dti =>
      let l := credit_considerations credit (before_credit gross_income dti employment) in
      {| status := l_status l;
         decision := l_decision l;
         reason := match l_reasons l with
                   | [] => [Txt "Based on financial profile assessment"]
                   | rs => join [Txt " | "] rs
                   end;
         missing := None;
         dti_ratio := Some dti;
         recommendations := l_recommendations l;
         summary := Some
           {| monthly_income := [Txt "₹"; Money gross_income];
              monthly_debt := [Txt "₹"; Money monthly_debt];
              s_loan_amount := [Txt "₹"; Money loan];
              dti_percentage := [Num dti; Txt "%"];
              employment := employment;
              credit_range := credit |} |}
    end
  | _, _, _, _, _ =>
    let missing_fields := snd (check_data_completeness d) in
    {| status := Some (ApprovalStatus_value INSUFFICIENT_DATA);
       decision := "Cannot process application";
       reason := [Txt "Missing required information: ";
                  Txt (String.concat ", " missing_fields)];
       missing := Some missing_fields;
       dti_ratio := None;
       recommendations := [[Txt "Please provide all required information to proceed"]];
       summary := None |}
  end.

(** The three records of the module's own [__main__] test list. *)
Definition test_approved : applicant_data :=
  {| gross_monthly_income := Some 6000%float;
     total_monthly_debt := Some 1800%float;
     loan_amount := Some 200000%float;
     employment_status := Some "full_time";
     credit_score_range := Some "good" |}.

End Loan.


(* ================================================================== *)
(** * Python's [re] module, as far as the repository uses it *)
(* ================================================================== *)

Module Re.

Definition text := list ascii.

Definition code (c : ascii) : nat := nat_of_ascii c.

Definition in_range (lo hi : nat) (c : ascii) : bool :=
  (lo <=? code c) && (code c <=? hi).

Definition is_digit : ascii -> bool := in_range 48 57.
Definition is_upper : ascii -> bool := in_range 65 90.
Definition is_lower : ascii -> bool := in_range 97 122.
Definition is_alpha (c : ascii) : bool := is_upper c || is_lower c.

(** [\w]: letters, digits and the underscore. *)
Definition is_word (c : ascii) : bool :=
  is_alpha c || is_digit c || Ascii.eqb c "_".

(** [\s]: the ASCII characters for which [str.isspace] holds. *)
Definition is_space (c : ascii) : bool :=
  in_range 9 13 c || in_range 28 32 c.

Definition to_lower (c : ascii) : ascii :=
  if is_upper c then ascii_of_nat (code c + 32) else c.

Definition to_upper (c : ascii) : ascii :=
  if is_lower c then ascii_of_nat (code c - 32) else c.

(** [s.lower()] and [s.upper()]. *)
Definition lower (s : text) : text := map to_lower s.
Definition upper (s : text) : text := map to_upper s.

(** Patterns.  [Rep r lo hi] is the greedy [r{lo,hi}] ([hi = None] for an
    open upper end), [Bnd] is [\b], [Grp n r] is the capturing group number
    [n]; non-capturing groups leave no trace in the syntax. *)
Inductive regex :=
| Eps
| Chr (f : ascii -> bool)
| Cat (a b : regex)
| Alt (a b : regex)
| Rep (a : regex) (lo : nat) (hi : option nat)
| Bnd
| Grp (n : nat) (a : regex).

(** A position in the subject: the character just before it (if any) and
    the characters from it on. *)
Record cursor := { prev : option ascii; rest : text }.

Definition captures := list (nat * text).

Definition get_group (n : nat) (caps : captures) : option text :=
  match find (fun p => Nat.eqb (fst p) n) caps with
  | Some p => Some (snd p)
  | None => None
  end.

(** A character test under [re.IGNORECASE] ([ic = true]) or without. *)
Definition cmatch (ic : bool) (f : ascii -> bool) (c : ascii) : bool :=
  f c || (ic && (f (to_lower c) || f (to_upper c))).

Definition word_before (cur : cursor) : bool :=
  match prev cur with Some c => is_word c | None => false end.

Definition word_after (cur : cursor) : bool :=
  match rest cur with c :: _ => is_word c | [] => false end.

Definition at_boundary (cur : cursor) : bool :=
  negb (Bool.eqb (word_before cur) (word_after cur)).

(** What was read between two positions of the same subject. *)
Definition consumed (cur cur' : cursor) : text :=
  firstn (length (rest cur) - length (rest cur')) (rest cur).

Section Matcher.

Variable A : Type.

(** What remains to be matched, as a function of the position reached;
    [None] makes the matcher backtrack. *)
Definition cont := cursor -> captures -> option A.

(** Greedy repetition: one more round of [m] is tried first, and only if
    everything after it fails does the loop stop here. *)
Fixpoint rep_loop (m : cont -> cont) (n lo : nat) (k : cont) : cont :=
  fun cur caps =>
    match n with
    | 0 => if Nat.eqb lo 0 then k cur caps else None
    | S n' =>
        match m (rep_loop m n' (pred lo) k) cur caps with
        | Some a => Some a
        | None => if Nat.eqb lo 0 then k cur caps else None
        end
    end.

Fixpoint rmatch (ic : bool) (r : regex) (k : cont) {struct r} : cont :=
  match r with
  | Eps => k
  | Chr f => fun cur caps =>
      match rest cur with
      | c :: s' => if cmatch ic f c then k {| prev := Some c; rest := s' |} caps else None
      | [] => None
      end
  | Cat a b => rmatch ic a (rmatch ic b k)
  | Alt a b => fun cur caps =>
      match rmatch ic a k cur caps with
      | Some x => Some x
      | None => rmatch ic b k cur caps
      end
  | Rep a lo hi => fun cur caps =>
      let n := match hi with Some h => h | None => lo + length (rest cur) end in
      rep_loop (rmatch ic a) n lo k cur caps
  | Bnd => fun cur caps => if at_boundary cur then k cur caps else None
  | Grp n a => fun cur caps =>
      rmatch ic a (fun cur' caps' => k cur' ((n, consumed cur cur') :: caps')) cur caps
  end.

End Matcher.

(** A match object: [m.start()], [m.end()] and the groups. *)
Record match_obj := { m_start : nat; m_end : nat; m_groups : captures }.

(** [s[i:j]] for [0 <= i], [0 <= j]. *)
Definition slice (s : text) (i j : nat) : text := firstn (j - i) (skipn i s).

(** [m.group(0)], read off the subject [s] that was searched. *)
Definition group0 (s : text) (m : match_obj) : text := slice s (m_start m) (m_end m).

Definition group (s : text) (m : match_obj) (n : nat) : option text :=
  match n with
  | 0 => Some (group0 s m)
  | _ => get_group n (m_groups m)
  end.

(** The final continuation: an empty match is refused where the scanner
    must advance (right after an empty match). *)
Definition accept (adv : bool) (start : text) : cont (cursor * captures) :=
  fun cur caps =>
    if adv && Nat.eqb (length (rest cur)) (length start) then None
    else Some (cur, caps).

(** The leftmost match at or after a position; [adv] applies to the first
    position tried only. *)
Fixpoint scan (ic : bool) (r : regex) (adv : bool) (pos : nat)
    (p : option ascii) (s : text) {struct s} : option (match_obj * cursor) :=
  match rmatch ic r (accept adv s) {| prev := p; rest := s |} [] with
  | Some (cur', caps) =>
      Some ({| m_start := pos;
               m_end := pos + (length s - length (rest cur'));
               m_groups := caps |}, cur')
  | None =>
      match s with
      | [] => None
      | c :: s' => scan ic r false (S pos) (Some c) s'
      end
  end.

(** [re.search(r, s, flags)]. *)
Definition search (ic : bool) (r : regex) (s : text) : option match_obj :=
  match scan ic r false 0 None s with
  | Some (m, _) => Some m
  | None => None
  end.

Fixpoint finditer_loop (ic : bool) (r : regex) (fuel : nat) (adv : bool)
    (pos : nat) (cur : cursor) : list match_obj :=
  match fuel with
  | 0 => []
  | S fuel' =>
      match scan ic r adv pos (prev cur) (rest cur) with
      | None => []
      | Some (m, cur') =>
          m :: finditer_loop ic r fuel' (Nat.eqb (m_end m) (m_start m)) (m_end m) cur'
      end
  end.

(** [list(re.finditer(r, s, flags))]: the non-overlapping matches, left to
    right. *)
Definition finditer (ic : bool) (r : regex) (s : text) : list match_obj :=
  finditer_loop ic r (2 * length s + 2) false 0 {| prev := None; rest := s |}.

(** ** Pattern syntax *)

Definition chr (c : ascii) : regex := Chr (Ascii.eqb c).

(** A literal string. *)
Fixpoint lit_list (s : text) : regex :=
  match s with
  | [] => Eps
  | [c] => chr c
  | c :: s' => Cat (chr c) (lit_list s')
  end.

Definition lit (s : string) : regex := lit_list (list_ascii_of_string s).

(** [a|b|...]. *)
Fixpoint alts (rs : list regex) : regex :=
  match rs with
  | [] => Eps
  | [r] => r
  | r :: rs' => Alt r (alts rs')
  end.

(** [abc...]. *)
Fixpoint seq (rs : list regex) : regex :=
  match rs with
  | [] => Eps
  | [r] => r
  | r :: rs' => Cat r (seq rs')
  end.

Definition opt (r : regex) : regex := Rep r 0 (Some 1).      (* r?     *)
Definition star (r : regex) : regex := Rep r 0 None.         (* r*     *)
Definition plus (r : regex) : regex := Rep r 1 None.         (* r+     *)
Definition times (n : nat) (r : regex) : regex := Rep r n (Some n).  (* r{n} *)
Definition between (lo hi : nat) (r : regex) : regex := Rep r lo (Some hi).
Definition at_least (lo : nat) (r : regex) : regex := Rep r lo None.

Definition digit : regex := Chr is_digit.      (* \d *)
Definition space : regex := Chr is_space.      (* \s *)

(** [[...]] with the listed single characters. *)
Definition one_of (s : string) : ascii -> bool :=
  fun c => existsb (Ascii.eqb c) (list_ascii_of_string s).

(** [needle in hay]. *)
Fixpoint prefixb (p s : text) : bool :=
  match p, s with
  | [], _ => true
  | a :: p', b :: s' => Ascii.eqb a b && prefixb p' s'
  | _ :: _, [] => false
  end.

Fixpoint contains (needle hay : text) : bool :=
  prefixb needle hay ||
  match hay with
  | [] => false
  | _ :: hay' => contains needle hay'
  end.

(** [s.replace(old, new)]: the occurrences of [old] are found left to
    right without overlap.  [skip] counts the characters of an occurrence
    that are still to be dropped. *)
Fixpoint replace_from (old new : text) (skip : nat) (s : text) : text :=
  match s with
  | [] => []
  | c :: s' =>
      match skip with
      | S k => replace_from old new k s'
      | 0 =>
          if prefixb old s then new ++ replace_from old new (length old - 1) s'
          else c :: replace_from old new 0 s'
      end
  end.

Definition replace (s old new : text) : text :=
  match old with
  | [] => new ++ flat_map (fun c => c :: new) s
  | _ => replace_from old new 0 s
  end.

(** The texts on which the definitions of this module agree with Python:
    beyond the ASCII characters, [\d], [\s], [\w], [str.lower] and
    [str.upper] know more characters than the tests above. *)
Definition is_ascii (c : ascii) : bool := code c <? 128.

Definition ascii_text (s : text) : bool := forallb is_ascii s.

End Re.

(* ================================================================== *)
(** * services/gemini_service.py: [_extract_entities] *)
(* ================================================================== *)

Module Extract.

Import Re.

Local Open Scope string_scope.
Local Open Scope list_scope.

Definition T (s : string) : text := list_ascii_of_string s.

(** [float(s)] for the literals the patterns capture: decimal digits with
    an optional fraction.  [None] stands for the [ValueError] that [float]
    raises on anything else the model knows of. *)
Fixpoint digits_value (acc : N) (s : text) : option N :=
  match s with
  | [] => Some acc
  | c :: s' =>
      if is_digit c
      then digits_value (acc * 10 + N.of_nat (code c - 48)) s'
      else None
  end.

Fixpoint split_dot (s : text) : text * option text :=
  match s with
  | [] => ([], None)
  | c :: s' =>
      if Ascii.eqb c "."
      then ([], Some s')
      else let (a, b) := split_dot s' in (c :: a, b)
  end.

Definition ratio_float (n d : N) : float :=
  match n, d with
  | Npos n', Npos d' => PyFloat.nearest_ratio false n' d'
  | _, _ => 0%float
  end.

Definition float_of_text (s : text) : option float :=
  let (ip, fp) := split_dot s in
  let fp := match fp with Some f => f | None => [] end in
  match ip ++ fp with
  | [] => None
  | ds =>
      match digits_value 0 ds with
      | Some n => Some (ratio_float n (10 ^ N.of_nat (length fp)))
      | None => None
      end
  end.

(** [\d{1,3}(?:,\d{3})*(?:\.\d{2})?] *)
Definition amount : regex :=
  seq [between 1 3 digit;
       star (Cat (chr ",") (times 3 digit));
       opt (Cat (chr ".") (times 2 digit))].

Definition income_patterns : list regex :=
  [ seq [opt (chr "$"); Grp 1 amount; star space;
         alts [lit "per month"; lit "monthly"; lit "a month"; lit "/month"]];
    seq [alts [lit "make"; lit "earn"; lit "income of"]; star space;
         opt (chr "$"); Grp 1 amount];
    seq [Grp 1 (plus digit); chr "k"; star space;
         alts [lit "per month"; lit "monthly"; lit "a month"]] ].

Definition debt_patterns : list regex :=
  [ seq [alts [lit "debt"; lit "debts"; lit "owe"; lit "payment"; lit "payments"];
         star space; opt (alts [lit "of"; lit "is"; lit "are"]); star space;
         opt (chr "$"); Grp 1 amount];
    seq [opt (chr "$"); Grp 1 amount; star space;
         alts [lit "in debt"; lit "debt payment"; lit "monthly debt"]] ].

Definition loan_patterns : list regex :=
  [ seq [alts [lit "loan"; lit "borrow"; lit "need"]; star space;
         opt (alts [lit "of"; lit "for"]); star space;
         opt (chr "$"); Grp 1 amount];
    seq [opt (chr "$"); Grp 1 amount; star space; lit "loan"] ].

Definition employment_keywords : list (string * list string) :=
  [ ("full_time", ["full-time"; "full time"; "fulltime"; "employed full"]);
    ("part_time", ["part-time"; "part time"; "parttime"]);
    ("self_employed", ["self-employed"; "self employed"; "freelance";
                       "own business"; "contractor"]);
    ("unemployed", ["unemployed"; "not working"; "no job"]);
    ("retired", ["retired"; "retirement"]) ].

Definition credit_keywords : list (string * list string) :=
  [ ("excellent", ["excellent"; "750"; "800"; "great credit"; "perfect credit"]);
    ("good", ["good"; "700"; "decent credit"]);
    ("fair", ["fair"; "650"; "average credit"; "okay credit"]);
    ("poor", ["poor"; "600"; "bad credit"; "low credit"]) ].

Definition intent_keywords : list string :=
  ["loan"; "apply"; "qualify"; "eligible"; "approval"; "borrow"; "mortgage"].

(** [session['metrics']] and the part of the session the function touches;
    [session['extracted_data']] is the dictionary later handed to
    [evaluate_application]. *)
Record metrics := {
  entities_extracted : list string;
  intent_recognized : bool
}.

Record session := {
  extracted_data : Loan.applicant_data;
  s_metrics : metrics
}.

Definition log_entity (label : string) (s : session) : session :=
  {| extracted_data := extracted_data s;
     s_metrics := {| entities_extracted := entities_extracted (s_metrics s) ++ [label];
                     intent_recognized := intent_recognized (s_metrics s) |} |}.

Definition set_income (v : float) (s : session) : session :=
  let d := extracted_data s in
  {| extracted_data :=
       {| Loan.gross_monthly_income := Some v;
          Loan.total_monthly_debt := Loan.total_monthly_debt d;
          Loan.loan_amount := Loan.loan_amount d;
          Loan.employment_status := Loan.employment_status d;
          Loan.credit_score_range := Loan.credit_score_range d |};
     s_metrics := s_metrics s |}.

Definition set_debt (v : float) (s : session) : session :=
  let d := extracted_data s in
  {| extracted_data :=
       {| Loan.gross_monthly_income := Loan.gross_monthly_income d;
          Loan.total_monthly_debt := Some v;
          Loan.loan_amount := Loan.loan_amount d;
          Loan.employment_status := Loan.employment_status d;
          Loan.credit_score_range := Loan.credit_score_range d |};
     s_metrics := s_metrics s |}.

Definition set_loan (v : float) (s : session) : session :=
  let d := extracted_data s in
  {| extracted_data :=
       {| Loan.gross_monthly_income := Loan.gross_monthly_income d;
          Loan.total_monthly_debt := Loan.total_monthly_debt d;
          Loan.loan_amount := Some v;
          Loan.employment_status := Loan.employment_status d;
          Loan.credit_score_range := Loan.credit_score_range d |};
     s_metrics := s_metrics s |}.

Definition set_employment (v : string) (s : session) : session :=
  let d := extracted_data s in
  {| extracted_data :=
       {| Loan.gross_monthly_income := Loan.gross_monthly_income d;
          Loan.total_monthly_debt := Loan.total_monthly_debt d;
          Loan.loan_amount := Loan.loan_amount d;
          Loan.employment_status := Some v;
          Loan.credit_score_range := Loan.credit_score_range d |};
     s_metrics := s_metrics s |}.

Definition set_credit (v : string) (s : session) : session :=
  let d := extracted_data s in
  {| extracted_data :=
       {| Loan.gross_monthly_income := Loan.gross_monthly_income d;
          Loan.total_monthly_debt := Loan.total_monthly_debt d;
          Loan.loan_amount := Loan.loan_amount d;
          Loan.employment_status := Loan.employment_status d;
          Loan.credit_score_range := Some v |};
     s_metrics := s_metrics s |}.

Definition set_intent (s : session) : session :=
  {| extracted_data := extracted_data s;
     s_metrics := {| entities_extracted := entities_extracted (s_metrics s);
                     intent_recognized := true |} |}.

(** [for pattern in patterns: match = re.search(pattern, msg); if match: ...; break] *)
Fixpoint first_match (patterns : list regex) (msg : text) : option match_obj :=
  match patterns with
  | [] => None
  | r :: rest =>
      match search false r msg with
      | Some m => Some m
      | None => first_match rest msg
      end
  end.

(** [match.group(1).replace(',', '')] *)
Definition amount_str (msg : text) (m : match_obj) : text :=
  match group msg m 1 with
  | Some g => replace g (T ",") []
  | None => []
  end.

(** The income branch; [None] is the [ValueError] of [float]. *)
Definition extract_income (user_message : text) (s : session) : option session :=
  let msg := lower user_message in
  match first_match income_patterns msg with
  | None => Some s
  | Some m =>
      match float_of_text (amount_str msg m) with
      | None => None
      | Some x =>
          let amount :=
            if contains (T "k") (lower (group0 msg m)) then (x * 1000)%float else x in
          let amount :=
            if contains (T "year") msg || contains (T "annual") msg
            then (amount / 12)%float else amount in
          Some (log_entity "income" (set_income amount s))
      end
  end.

Definition extract_amount (patterns : list regex) (store : float -> session -> session)
    (label : string) (user_message : text) (s : session) : option session :=
  let msg := lower user_message in
  match first_match patterns msg with
  | None => Some s
  | Some m =>
      match float_of_text (amount_str msg m) with
      | None => None
      | Some x => Some (log_entity label (store x s))
      end
  end.

(** [for keyword in keywords: if keyword in msg: <hit>; break] *)
Fixpoint keyword_loop (keywords : list string) (msg : text)
    (hit : session -> session) (s : session) : session :=
  match keywords with
  | [] => s
  | keyword :: more =>
      if contains (T keyword) msg then hit s
      else keyword_loop more msg hit s
  end.

(** [for name, keywords in table.items(): <keyword loop>] *)
Fixpoint category_loop (table : list (string * list string)) (msg : text)
    (hit : string -> session -> session) (s : session) : session :=
  match table with
  | [] => s
  | (name, keywords) :: more =>
      category_loop more msg hit (keyword_loop keywords msg (hit name) s)
  end.

Definition extract_employment (user_message : text) (s : session) : session :=
  category_loop employment_keywords (lower user_message)
    (fun status s => log_entity "employment" (set_employment status s)) s.

Definition extract_credit (user_message : text) (s : session) : session :=
  category_loop credit_keywords (lower user_message)
    (fun score_range s => log_entity "credit_score" (set_credit score_range s)) s.

Definition extract_intent (user_message : text) (s : session) : session :=
  if existsb (fun keyword => contains (T keyword) (lower user_message)) intent_keywords
  then set_intent s else s.

Definition bind {A B} (x : option A) (f : A -> option B) : option B :=
  match x with Some a => f a | None => None end.

Definition _extract_entities (s : session) (user_message : text) : option session :=
  bind (extract_income user_message s) (fun s =>
  bind (extract_amount debt_patterns set_debt "debt" user_message s) (fun s =>
  bind (extract_amount loan_patterns set_loan "loan_amount" user_message s) (fun s =>
  Some (extract_intent user_message
         (extract_credit user_message
           (extract_employment user_message s)))))).

Definition empty_record : Loan.applicant_data :=
  {| Loan.gross_monthly_income := None; Loan.total_monthly_debt := None;
     Loan.loan_amount := None; Loan.employment_status := None;
     Loan.credit_score_range := None |}.

(** The session as [create_chat_session] leaves the two entries. *)
Definition new_session : session :=
  {| extracted_data := empty_record;
     s_metrics := {| entities_extracted := []; intent_recognized := false |} |}.

End Extract.

(* ================================================================== *)
(** * utils/pii_masker.py *)
(* ================================================================== *)

Module Pii.

Import Re.

Local Open Scope string_scope.
Local Open Scope list_scope.

Definition T (s : string) : text := list_ascii_of_string s.

Definition letter_or_digit (c : ascii) : bool := is_alpha c || is_digit c.

(** [\b\d{3}-\d{2}-\d{4}\b|\b\d{9}\b] *)
Definition ssn_pattern : regex :=
  Alt (seq [Bnd; times 3 digit; chr "-"; times 2 digit; chr "-"; times 4 digit; Bnd])
      (seq [Bnd; times 9 digit; Bnd]).

(** [\b\d{4}[-\s]?\d{4}[-\s]?\d{4}[-\s]?\d{4}\b] *)
Definition credit_card_pattern : regex :=
  let sep := opt (Chr (fun c => Ascii.eqb c "-" || is_space c)) in
  seq [Bnd; times 4 digit; sep; times 4 digit; sep; times 4 digit; sep;
       times 4 digit; Bnd].

(** [\b(?:\+?1[-.\s]?)?\(?\d{3}\)?[-.\s]?\d{3}[-.\s]?\d{4}\b] *)
Definition phone_pattern : regex :=
  let sep := opt (Chr (fun c => one_of "-." c || is_space c)) in
  seq [Bnd; opt (seq [opt (chr "+"); chr "1"; sep]);
       opt (chr "("); times 3 digit; opt (chr ")"); sep;
       times 3 digit; sep; times 4 digit; Bnd].

(** [\b[A-Za-z0-9._%+-]+@[A-Za-z0-9.-]+\.[A-Z|a-z]{2,}\b] *)
Definition email_pattern : regex :=
  seq [Bnd; plus (Chr (fun c => letter_or_digit c || one_of "._%+-" c));
       chr "@"; plus (Chr (fun c => letter_or_digit c || one_of ".-" c));
       chr "."; at_least 2 (Chr (fun c => is_alpha c || Ascii.eqb c "|")); Bnd].

(** [\b(?:account|acct)[\s#:]*(\d{6,18})\b] *)
Definition account_number_pattern : regex :=
  seq [Bnd; alts [lit "account"; lit "acct"];
       star (Chr (fun c => is_space c || one_of "#:" c));
       Grp 1 (between 6 18 digit); Bnd].

(** [\b(?:routing|aba)[\s#:]*(\d{9})\b] *)
Definition routing_number_pattern : regex :=
  seq [Bnd; alts [lit "routing"; lit "aba"];
       star (Chr (fun c => is_space c || one_of "#:" c));
       Grp 1 (times 9 digit); Bnd].

(** [\b\d+\s+[A-Za-z0-9\s,]+(?:street|st|avenue|ave|road|rd|boulevard|blvd|lane|ln|drive|dr|court|ct|way)\b] *)
Definition address_pattern : regex :=
  seq [Bnd; plus digit; plus space;
       plus (Chr (fun c => letter_or_digit c || is_space c || Ascii.eqb c ","));
       alts [lit "street"; lit "st"; lit "avenue"; lit "ave"; lit "road"; lit "rd";
             lit "boulevard"; lit "blvd"; lit "lane"; lit "ln"; lit "drive";
             lit "dr"; lit "court"; lit "ct"; lit "way"];
       Bnd].

(** [self.pii_patterns], in the order the dictionary literal lists them. *)
Definition pii_patterns : list (string * regex) :=
  [ ("ssn", ssn_pattern);
    ("credit_card", credit_card_pattern);
    ("phone", phone_pattern);
    ("email", email_pattern);
    ("account_number", account_number_pattern);
    ("routing_number", routing_number_pattern);
    ("address", address_pattern) ].

(** [str(n)] *)
Definition str_of_nat (n : nat) : text :=
  list_ascii_of_string (NilEmpty.string_of_uint (Nat.to_uint n)).

(** [f"<{pii_type.upper()}_{count}>"] *)
Definition placeholder (pii_type : string) (count : nat) : text :=
  T "<" ++ upper (T pii_type) ++ T "_" ++ str_of_nat count ++ T ">".

(** The two dictionaries of a [PIIMasker]; both keep insertion order. *)
Record masker := {
  pii_counters : list (string * nat);
  masked_mapping : list (text * text)
}.

(** [PIIMasker()] *)
Definition new_masker : masker := {| pii_counters := []; masked_mapping := [] |}.

(** [d.get(k, 0)] *)
Fixpoint counter_get (d : list (string * nat)) (k : string) : nat :=
  match d with
  | [] => 0
  | (k', v) :: d' => if String.eqb k' k then v else counter_get d' k
  end.

(** [d[k] = v]: an existing key keeps its place, a new one goes last. *)
Fixpoint dict_set {K V} (eqb : K -> K -> bool) (d : list (K * V)) (k : K) (v : V)
  : list (K * V) :=
  match d with
  | [] => [(k, v)]
  | (k', v') :: d' =>
      if eqb k' k then (k, v) :: d' else (k', v') :: dict_set eqb d' k v
  end.

Definition text_eqb (a b : text) : bool :=
  Nat.eqb (length a) (length b) && prefixb a b.

Record metadata := {
  original_length : nat;
  pii_detected : list string;
  mask_count : nat;
  masked_length : nat
}.

(** The variables the two loops of [mask_text] update. *)
Record mask_state := {
  self : masker;
  masked_text : text;
  detected : list string;
  count_masked : nat
}.

(** The body of [for match in reversed(matches)]; [subject] is the string
    that [finditer] searched, which the match object keeps. *)
Definition replace_match (pii_type : string) (subject : text)
    (st : mask_state) (m : match_obj) : mask_state :=
  let count := counter_get (pii_counters (self st)) pii_type + 1 in
  let ph := placeholder pii_type count in
  let original_value := group0 subject m in
  {| self := {| pii_counters := dict_set String.eqb (pii_counters (self st)) pii_type count;
                masked_mapping := dict_set text_eqb (masked_mapping (self st)) ph original_value |};
     masked_text := firstn (m_start m) (masked_text st) ++ ph ++
                    skipn (m_end m) (masked_text st);
     detected := detected st;
     count_masked := count_masked st + 1 |}.

(** The body of [for pii_type, pattern in self.pii_patterns.items()]. *)
Definition mask_category (st : mask_state) (entry : string * regex) : mask_state :=
  let (pii_type, pattern) := entry in
  let subject := masked_text st in
  let matches := finditer true pattern subject in
  match matches with
  | [] => st
  | _ =>
      let st1 := {| self := self st; masked_text := masked_text st;
                    detected := detected st ++ [pii_type];
                    count_masked := count_masked st |} in
      fold_left (replace_match pii_type subject) (rev matches) st1
  end.

Definition mask_loop (patterns : list (string * regex)) (st : mask_state) : mask_state :=
  fold_left mask_category patterns st.

Definition mask_start (slf : masker) (txt : text) : mask_state :=
  {| self := {| pii_counters := []; masked_mapping := masked_mapping slf |};
     masked_text := txt;
     detected := [];
     count_masked := 0 |}.

(** [self.mask_text(text)]: the masker after the call, the masked text
    and the metadata. *)
Definition mask_text (slf : masker) (txt : text) : masker * (text * metadata) :=
  let st := mask_loop pii_patterns (mask_start slf txt) in
  (self st,
   (masked_text st,
    {| original_length := length txt;
       pii_detected := detected st;
       mask_count := count_masked st;
       masked_length := length (masked_text st) |})).

(** [self.unmask_text(masked_text)] *)
Definition unmask_text (slf : masker) (masked : text) : text :=
  fold_left (fun unmasked entry => replace unmasked (fst entry) (snd entry))
            (masked_mapping slf) masked.

(** [mask_sensitive_data(text)] *)
Definition mask_sensitive_data (txt : text) : text * metadata :=
  snd (mask_text new_masker txt).

End Pii.

(* ================================================================== *)
(** * Facts about binary64 comparison and rounding *)
(* ================================================================== *)

Module FloatFacts.

Import PyFloat.

(** A Python float that denotes a real number: neither [nan] nor an
    infinity. *)
Definition is_real (x : float) : bool :=
  match Prim2SF x with
  | S754_zero _ | S754_finite _ _ _ => true
  | _ => false
  end.

Definition is_number (x : float) : bool :=
  match Prim2SF x with
  | S754_nan => false
  | _ => true
  end.

Lemma compare_cont_opp (p q : positive) (c : comparison) :
  Pos.compare_cont (CompOpp c) q p = CompOpp (Pos.compare_cont c p q).
Proof.
  rewrite <- Pos.compare_cont_antisym. reflexivity.
Qed.

Lemma SFcompare_antisym (a b : spec_float) (o : comparison) :
  SFcompare a b = Some o -> SFcompare b a = Some (CompOpp o).
Proof.
  destruct a as [sa|sa| |sa ma ea], b as [sb|sb| |sb mb eb]; simpl;
    try discriminate;
    try (destruct sa; intros H; inversion H; reflexivity);
    try (destruct sb; intros H; inversion H; reflexivity);
    try (destruct sa, sb; intros H; inversion H; reflexivity).
  intros H. inversion H as [H1]. clear H H1.
  destruct sa, sb; try reflexivity;
    rewrite (Z.compare_antisym ea eb);
    destruct (ea ?= eb)%Z; simpl; try reflexivity;
    f_equal;
    rewrite <- (compare_cont_opp ma mb Eq); simpl;
    try reflexivity.
Qed.

Lemma SFcompare_number (a b : spec_float) :
  a <> S754_nan -> b <> S754_nan -> exists o, SFcompare a b = Some o.
Proof.
  destruct a, b; simpl; intros Ha Hb; try congruence; eexists; reflexivity.
Qed.

(** For numbers, [not (a <= c)] is [c < a]. *)
Lemma leb_false_ltb (a c : float) :
  is_number a = true -> is_number c = true ->
  ((a <=? c)%float = false <-> (c <? a)%float = true).
Proof.
  unfold is_number. rewrite leb_spec, ltb_spec. unfold SFleb, SFltb.
  intros Ha Hc.
  destruct (SFcompare_number (a := Prim2SF a) (b := Prim2SF c)) as [o Ho].
  - destruct (Prim2SF a); congruence.
  - destruct (Prim2SF c); congruence.
  - rewrite Ho, (SFcompare_antisym _ _ Ho).
    destruct o; simpl; split; congruence.
Qed.

Lemma leb_true_number_l (a c : float) : (a <=? c)%float = true -> is_number a = true.
Proof.
  unfold is_number. rewrite leb_spec. unfold SFleb.
  destruct (Prim2SF a); simpl; congruence.
Qed.

Lemma leb_true_number_r (a c : float) : (a <=? c)%float = true -> is_number c = true.
Proof.
  unfold is_number. rewrite leb_spec. unfold SFleb.
  destruct (Prim2SF a), (Prim2SF c); simpl; congruence.
Qed.

Lemma ltb_true_number_l (a c : float) : (a <? c)%float = true -> is_number a = true.
Proof.
  unfold is_number. rewrite ltb_spec. unfold SFltb.
  destruct (Prim2SF a); simpl; congruence.
Qed.

Lemma ltb_true_number_r (a c : float) : (a <? c)%float = true -> is_number c = true.
Proof.
  unfold is_number. rewrite ltb_spec. unfold SFltb.
  destruct (Prim2SF a), (Prim2SF c); simpl; congruence.
Qed.

Lemma ltb_leb_false (a c : float) : (c <? a)%float = true -> (a <=? c)%float = false.
Proof.
  intros H. apply leb_false_ltb; eauto using ltb_true_number_l, ltb_true_number_r.
Qed.

Lemma is_real_number (x : float) : is_real x = true -> is_number x = true.
Proof.
  unfold is_real, is_number. destruct (Prim2SF x); congruence.
Qed.

(** ** Rounding never produces [nan] from a non-negative mantissa *)


















End FloatFacts.

(* ================================================================== *)
(** * The eligibility engine: [evaluate_application] *)
(* ================================================================== *)

Module LoanSpec.

Import Loan FloatFacts.

Local Open Scope string_scope.
Local Open Scope list_scope.

(** A record with all five keys present. *)
Definition complete (gi debt loan : float) (emp credit : string) : applicant_data :=
  {| gross_monthly_income := Some gi; total_monthly_debt := Some debt;
     loan_amount := Some loan; employment_status := Some emp;
     credit_score_range := Some credit |}.

(** The ratio [calculate_dti] returns when the income is accepted. *)
Definition dti_of (gi debt : float) : float :=
  PyFloat.round2 (debt / gi * 100)%float.

Lemma calculate_dti_ok (gi debt : float) :
  (gi <=? 0)%float = false -> calculate_dti gi debt = inr (dti_of gi debt).
Proof.
  intros H. unfold calculate_dti. rewrite H. reflexivity.
Qed.

Lemma evaluate_complete (gi debt loan : float) (emp credit : string) :
  (gi <=? 0)%float = false ->
  let l := credit_considerations credit (before_credit gi (dti_of gi debt) emp) in
  let r := evaluate_application (complete gi debt loan emp credit) in
  status r = l_status l /\ decision r = l_decision l /\
  dti_ratio r = Some (dti_of gi debt) /\
  recommendations r = l_recommendations l /\
  reason r = match l_reasons l with
             | [] => [Txt "Based on financial profile assessment"]
             | rs => join [Txt " | "] rs
             end.
Proof.
  intros H. unfold evaluate_application, complete. simpl.
  rewrite (calculate_dti_ok debt H). simpl. repeat split; reflexivity.
Qed.

Lemma str_eq_false (a b : string) : a <> b -> str_eq a b = false.
Proof.
  intros H. unfold str_eq. apply String.eqb_neq. exact H.
Qed.

Lemma credit_considerations_other (credit : string) (l : locals) :
  credit <> "poor" -> credit <> "very_poor" -> credit_considerations credit l = l.
Proof.
  intros H1 H2. unfold credit_considerations. simpl.
  rewrite (str_eq_false H1), (str_eq_false H2). reflexivity.
Qed.

Lemma check_minimum_pass (gi : float) (emp : string) :
  (gi <? MIN_INCOME)%float = false -> emp <> "unemployed" ->
  check_minimum gi emp init_locals = init_locals.
Proof.
  intros H1 H2. unfold check_minimum. simpl.
  rewrite H1, (str_eq_false H2). reflexivity.
Qed.

Lemma check_minimum_rejects (gi : float) (emp : string) :
  (gi <? MIN_INCOME)%float = true \/ emp = "unemployed" ->
  let l := check_minimum gi emp init_locals in
  l_status l = Some "rejected" /\ l_decision l = "".
Proof.
  intros H. unfold check_minimum. simpl.
  destruct (str_eq emp "unemployed") eqn:E; simpl.
  - destruct (gi <? MIN_INCOME)%float; simpl; auto.
  - destruct H as [H|H].
    + rewrite H. simpl. auto.
    + subst emp. unfold str_eq in E. rewrite String.eqb_refl in E. discriminate.
Qed.

Lemma credit_considerations_poor (credit : string) (l : locals) :
  credit = "poor" \/ credit = "very_poor" ->
  let l' := credit_considerations credit l in
  l_status l' = (if status_is l APPROVED then Some "conditional" else l_status l) /\
  l_reasons l' = l_reasons l ++ [credit_reason] /\
  l_recommendations l' = l_recommendations l ++ [credit_recommendation].
Proof.
  intros H. unfold credit_considerations.
  assert (Hc : str_eq credit "poor" || str_eq credit "very_poor" = true).
  { destruct H; subst credit; reflexivity. }
  simpl. rewrite Hc. destruct (status_is l APPROVED); simpl; auto.
Qed.

Lemma evaluate_dti_skip (dti : float) (l : locals) (v : string) :
  l_status l = Some v -> evaluate_dti dti l = l.
Proof.
  intros H. unfold evaluate_dti. rewrite H. reflexivity.
Qed.

Lemma credit_considerations_keeps (credit : string) (l : locals) :
  status_is l APPROVED = false ->
  l_status (credit_considerations credit l) = l_status l /\
  l_decision (credit_considerations credit l) = l_decision l.
Proof.
  intros H. unfold credit_considerations. rewrite H.
  destruct (_ || _); simpl; auto.
Qed.

(** The repository's first test record ([__main__], "Approved Application"). *)
Definition scenario_approved : applicant_data :=
  complete 6000 1800 200000 "full_time" "good".

(** C1, the claim as stated, fails: on the record income 6000, debt 1800,
    loan 200000, full_time, good, [evaluate_application] returns a DTI
    ratio of 30.0 and the status [rejected], not [approved]: 6000 is below
    [MIN_INCOME], and the income floor is checked before the DTI
    thresholds. *)
Lemma C1_scenario_dti_30_status_rejected :
  dti_ratio (evaluate_application scenario_approved) = Some 30%float /\
  status (evaluate_application scenario_approved) = Some "rejected" /\
  status (evaluate_application scenario_approved) <> Some "approved".
Proof.
  vm_compute. repeat split; try reflexivity. discriminate.
Qed.

(** C1 (amended): for every complete record with employment [full_time]
    and credit range [good] whose income is greater than zero and whose
    DTI ratio comes out as 30.0, [evaluate_application] returns the ratio
    30.0, and the status is [rejected] when the income is below
    [MIN_INCOME] (15000) and [approved] when it is not.  The record of the
    scenario, with income 6000, is therefore [rejected]. *)
Theorem C1_status_at_dti_30_follows_income_floor (gi debt loan : float) :
  (gi <=? 0)%float = false ->
  dti_of gi debt = 30%float ->
  let r := evaluate_application (complete gi debt loan "full_time" "good") in
  dti_ratio r = Some 30%float /\
  ((gi <? MIN_INCOME)%float = true -> status r = Some "rejected") /\
  ((gi <? MIN_INCOME)%float = false -> status r = Some "approved").
Proof.
  intros H0 Hd r.
  destruct (@evaluate_complete gi debt loan "full_time" "good" H0) as (Hs & _ & Hr & _).
  fold r in Hs, Hr. rewrite Hs, Hr, Hd.
  assert (Hc : forall l, credit_considerations "good" l = l).
  { intros l. apply credit_considerations_other; discriminate. }
  rewrite Hc. split; [reflexivity|]. unfold before_credit. split; intros Hgi.
  - destruct (@check_minimum_rejects gi "full_time" (or_introl Hgi)) as [E _].
    cbn zeta in E. rewrite (@evaluate_dti_skip 30%float _ _ E). exact E.
  - assert (Hp : check_minimum gi "full_time" init_locals = init_locals).
    { apply check_minimum_pass; [exact Hgi | discriminate]. }
    rewrite Hp. reflexivity.
Qed.

Lemma C1_status_at_dti_30_follows_income_floor_witness :
  ((6000 <=? 0)%float = false /\ dti_of 6000 1800 = 30%float /\
   (6000 <? MIN_INCOME)%float = true) /\
  status (evaluate_application scenario_approved) = Some "rejected".
Proof.
  split; [repeat split; vm_compute; reflexivity|].
  assert (H0 : (6000 <=? 0)%float = false) by (vm_compute; reflexivity).
  assert (Hd : dti_of 6000 1800 = 30%float) by (vm_compute; reflexivity).
  destruct (@C1_status_at_dti_30_follows_income_floor
              6000%float 1800%float 200000%float H0 Hd)
    as (_ & Hrej & _).
  apply Hrej. vm_compute. reflexivity.
Defined.

Set Warnings "-inexact-float".


(** The four boundary ratios are reached by records with income 20000. *)
Lemma boundary_records :
  let r1 := evaluate_application (complete 20000 7200 100000 "full_time" "good") in
  let r2 := evaluate_application (complete 20000 7202 100000 "full_time" "good") in
  let r3 := evaluate_application (complete 20000 8600 100000 "full_time" "good") in
  let r4 := evaluate_application (complete 20000 8602 100000 "full_time" "good") in
  (dti_ratio r1 = Some 36%float /\ status r1 = Some "approved") /\
  (dti_ratio r2 = Some 36.01%float /\ status r2 = Some "conditional") /\
  (dti_ratio r3 = Some 43%float /\ status r3 = Some "conditional") /\
  (dti_ratio r4 = Some 43.01%float /\ status r4 = Some "rejected").
Proof.
  vm_compute. repeat split; reflexivity.
Qed.


(** C6: for every complete record whose income is not positive
    ([gross_monthly_income <= 0]), [evaluate_application] catches the
    [ValueError] of [calculate_dti] and returns a dictionary: status
    [rejected], the error message as the reason, and no DTI ratio. *)
Theorem C6_nonpositive_income_rejected (gi debt loan : float) (emp credit : string) :
  (gi <=? 0)%float = true ->
  let r := evaluate_application (complete gi debt loan emp credit) in
  exists e,
    calculate_dti gi debt = inl e /\
    e = "Gross monthly income must be greater than zero" /\
    status r = Some "rejected" /\
    reason r = [Txt e] /\
    dti_ratio r = None.
Proof.
  intros H r. exists "Gross monthly income must be greater than zero".
  unfold r, evaluate_application, complete, calculate_dti. simpl. rewrite H.
  repeat split; reflexivity.
Qed.

Lemma C6_nonpositive_income_rejected_witness :
  (0 <=? 0)%float = true /\
  let r := evaluate_application (complete 0 500 100000 "full_time" "good") in
  exists e,
    calculate_dti 0 500 = inl e /\
    e = "Gross monthly income must be greater than zero" /\
    status r = Some "rejected" /\
    reason r = [Txt e] /\
    dti_ratio r = None.
Proof.
  split; [reflexivity|].
  apply (@C6_nonpositive_income_rejected 0 500 100000 "full_time" "good"). reflexivity.
Defined.

(** C7: for every complete record with positive income and credit range
    [poor] or [very_poor]: a status that is [approved] before the credit
    step becomes [conditional]; [rejected] and [conditional] stay as they
    are; and in every case the credit reason and the credit recommendation
    are appended to what the earlier steps accumulated. *)
Theorem C7_credit_downgrade (gi debt loan : float) (emp credit : string) :
  (0 <? gi)%float = true ->
  credit = "poor" \/ credit = "very_poor" ->
  let before := before_credit gi (dti_of gi debt) emp in
  let r := evaluate_application (complete gi debt loan emp credit) in
  (l_status before = Some "approved" -> status r = Some "conditional") /\
  (l_status before = Some "rejected" -> status r = Some "rejected") /\
  (l_status before = Some "conditional" -> status r = Some "conditional") /\
  reason r = join [Txt " | "] (l_reasons before ++ [credit_reason]) /\
  recommendations r = l_recommendations before ++ [credit_recommendation].
Proof.
  intros Hpos Hcredit before r.
  pose proof (@ltb_leb_false gi 0 Hpos) as Hgi.
  destruct (@evaluate_complete gi debt loan emp credit Hgi) as (Hs & _ & _ & Hrec & Hreason).
  fold r in Hs, Hrec, Hreason. fold before in Hs, Hrec, Hreason.
  destruct (@credit_considerations_poor credit before Hcredit) as (Cs & Cr & Crec).
  rewrite Cs in Hs. rewrite Cr in Hreason. rewrite Crec in Hrec.
  unfold status_is in Hs.
  split; [|split; [|split; [|split]]].
  - intros Hb. rewrite Hs, Hb. reflexivity.
  - intros Hb. rewrite Hs, Hb. reflexivity.
  - intros Hb. rewrite Hs, Hb. reflexivity.
  - rewrite Hreason.
    destruct (l_reasons before ++ [credit_reason]) eqn:E; [|reflexivity].
    destruct (l_reasons before); discriminate.
  - exact Hrec.
Qed.

Lemma C7_credit_downgrade_witness :
  ((0 <? 20000)%float = true /\ "poor" = "poor") /\
  let before := before_credit 20000 (dti_of 20000 3000) "full_time" in
  let r := evaluate_application (complete 20000 3000 100000 "full_time" "poor") in
  l_status before = Some "approved" /\ status r = Some "conditional".
Proof.
  split; [split; reflexivity|].
  intros before r. split; [reflexivity|].
  apply (proj1 (@C7_credit_downgrade 20000 3000 100000 "full_time" "poor"
                  eq_refl (or_introl eq_refl))).
  reflexivity.
Defined.

(** C10: for every complete record with positive income on which a hard
    disqualifier fires (income below 15000, or employment [unemployed]),
    [evaluate_application] returns status [rejected] and leaves the
    [decision] field as the empty string. *)
Theorem C10_disqualified_decision_empty (gi debt loan : float) (emp credit : string) :
  (0 <? gi)%float = true ->
  (gi <? MIN_INCOME)%float = true \/ emp = "unemployed" ->
  let r := evaluate_application (complete gi debt loan emp credit) in
  status r = Some "rejected" /\ decision r = "".
Proof.
  intros Hpos Hdis r.
  pose proof (@ltb_leb_false gi 0 Hpos) as Hgi.
  destruct (@evaluate_complete gi debt loan emp credit Hgi) as (Hs & Hdec & _).
  fold r in Hs, Hdec. rewrite Hs, Hdec.
  destruct (@check_minimum_rejects gi emp Hdis) as [H1 H2].
  unfold before_credit. rewrite (evaluate_dti_skip _ _ H1).
  destruct (@credit_considerations_keeps credit (check_minimum gi emp init_locals)) as [K1 K2].
  - unfold status_is. rewrite H1. reflexivity.
  - rewrite K1, K2. auto.
Qed.

Lemma C10_disqualified_decision_empty_witness :
  ((0 <? 6000)%float = true /\ (6000 <? MIN_INCOME)%float = true) /\
  let r := evaluate_application scenario_approved in
  status r = Some "rejected" /\ decision r = "".
Proof.
  split; [split; reflexivity|].
  apply (@C10_disqualified_decision_empty 6000 1800 200000 "full_time" "good"
           eq_refl (or_introl eq_refl)).
Defined.

End LoanSpec.

(* ================================================================== *)
(** * The field extractor: [_extract_entities] *)
(* ================================================================== *)

Module ExtractSpec.

Import Re Extract.

Local Open Scope string_scope.
Local Open Scope list_scope.

Definition employment_of (s : session) : option string :=
  Loan.employment_status (extracted_data s).

Definition credit_of (s : session) : option string :=
  Loan.credit_score_range (extracted_data s).

Definition income_of (s : session) : option float :=
  Loan.gross_monthly_income (extracted_data s).

(** A category has a keyword that occurs in the message. *)
Definition category_hits (msg : text) (entry : string * list string) : bool :=
  existsb (fun keyword => contains (T keyword) msg) (snd entry).

(** The categories with a keyword in the message, in table order. *)
Definition matching_categories (table : list (string * list string)) (msg : text)
  : list string :=
  map fst (filter (category_hits msg) table).

Lemma keyword_loop_spec (keywords : list string) (msg : text)
    (hit : session -> session) (s : session) :
  keyword_loop keywords msg hit s =
  if existsb (fun keyword => contains (T keyword) msg) keywords then hit s else s.
Proof.
  induction keywords as [|k ks IH]; simpl; [reflexivity|].
  destruct (contains (T k) msg); simpl; auto.
Qed.

Lemma last_cons {A} (l : list A) (a d : A) : last (a :: l) d = last l a.
Proof.
  revert a d. induction l as [|x l IH]; intros a d; [reflexivity|].
  change (last (a :: x :: l) d) with (last (x :: l) d).
  rewrite !IH. reflexivity.
Qed.

Section CategoryLoop.

(** A field of the session, and a [hit] that stores the category name in
    it. *)
Variable field : session -> option string.
Variable hit : string -> session -> session.
Hypothesis hit_field : forall name s, field (hit name s) = Some name.

Lemma category_loop_last (table : list (string * list string)) (msg : text) :
  forall s,
    field (category_loop table msg hit s) =
    last (map Some (matching_categories table msg)) (field s).
Proof.
  unfold matching_categories.
  induction table as [|[name keywords] more IH]; intros s; simpl; [reflexivity|].
  rewrite IH, keyword_loop_spec. unfold category_hits at 2. simpl.
  destruct (existsb _ keywords); [|reflexivity].
  rewrite hit_field. cbn [map fst]. rewrite last_cons. reflexivity.
Qed.

End CategoryLoop.

(** Steps that leave the two categorical fields alone. *)
Definition keeps_categories (s s' : session) : Prop :=
  employment_of s' = employment_of s /\ credit_of s' = credit_of s.

Lemma extract_income_keeps (msg : text) (s s' : session) :
  extract_income msg s = Some s' -> keeps_categories s s'.
Proof.
  unfold extract_income, keeps_categories.
  destruct (first_match _ _); [|intros H; inversion H; auto].
  destruct (float_of_text _); [|discriminate].
  intros H. inversion H. auto.
Qed.

Lemma extract_amount_keeps (patterns : list regex) (store : float -> session -> session)
    (label : string) (msg : text) (s s' : session) :
  (forall x t, keeps_categories t (store x t)) ->
  extract_amount patterns store label msg s = Some s' -> keeps_categories s s'.
Proof.
  unfold extract_amount. intros Hstore.
  destruct (first_match _ _); [|intros H; inversion H; split; reflexivity].
  destruct (float_of_text _); [|discriminate].
  intros H. inversion H. apply (Hstore f s).
Qed.

Lemma extract_intent_keeps (msg : text) (s : session) :
  keeps_categories s (extract_intent msg s).
Proof.
  unfold extract_intent. destruct (existsb _ _); split; reflexivity.
Qed.

Lemma extract_employment_last (msg : text) (s : session) :
  employment_of (extract_employment msg s) =
  last (map Some (matching_categories employment_keywords (lower msg))) (employment_of s).
Proof.
  unfold extract_employment.
  apply (category_loop_last employment_of); reflexivity.
Qed.

Lemma extract_employment_credit (msg : text) (s : session) :
  credit_of (extract_employment msg s) = credit_of s.
Proof.
  unfold extract_employment.
  generalize (lower msg) as m. intros m. revert s.
  induction employment_keywords as [|[name kws] more IH]; intros s; simpl; [reflexivity|].
  rewrite IH, keyword_loop_spec. destruct (existsb _ kws); reflexivity.
Qed.

Lemma extract_credit_last (msg : text) (s : session) :
  credit_of (extract_credit msg s) =
  last (map Some (matching_categories credit_keywords (lower msg))) (credit_of s).
Proof.
  unfold extract_credit.
  apply (category_loop_last credit_of); reflexivity.
Qed.

Lemma extract_credit_employment (msg : text) (s : session) :
  employment_of (extract_credit msg s) = employment_of s.
Proof.
  unfold extract_credit.
  generalize (lower msg) as m. intros m. revert s.
  induction credit_keywords as [|[name kws] more IH]; intros s; simpl; [reflexivity|].
  rewrite IH, keyword_loop_spec. destruct (existsb _ kws); reflexivity.
Qed.

(** C2 (as the code behaves): for the utterance "I make 500" the second
    income pattern matches the literal "make 500", whose amount "500"
    carries no [k] suffix; the code still multiplies by 1000, because it
    looks for the letter [k] anywhere in the matched literal and finds it
    in "make".  The stored income is 500000.0, not 500.0. *)
Theorem C2_make_amount_is_multiplied :
  let msg := T "I make 500" in
  (exists m, first_match income_patterns (lower msg) = Some m /\
             group0 (lower msg) m = T "make 500" /\
             group (lower msg) m 1 = Some (T "500")) /\
  (exists s', _extract_entities new_session msg = Some s' /\
              income_of s' = Some 500000%float /\
              income_of s' <> Some 500%float).
Proof.
  split.
  - eexists. vm_compute. repeat split; reflexivity.
  - eexists. vm_compute. repeat split; try reflexivity. discriminate.
Qed.

(** C3, the claim as stated, fails: the utterance below has keywords of
    the categories [full_time] and [unemployed]; the category stored is
    [unemployed], not the first one in table order. *)
Lemma C3_first_category_does_not_win :
  let msg := T "I work full-time, I am not unemployed" in
  matching_categories employment_keywords (lower msg) = ["full_time"; "unemployed"] /\
  (exists s', _extract_entities new_session msg = Some s' /\
              employment_of s' = Some "unemployed") /\
  ~ (forall s', _extract_entities new_session msg = Some s' ->
                employment_of s' = Some "full_time").
Proof.
  split; [vm_compute; reflexivity|]. split.
  - eexists. vm_compute. split; reflexivity.
  - intros H.
    assert (E : exists s', _extract_entities new_session
                  (T "I work full-time, I am not unemployed") = Some s' /\
                  employment_of s' = Some "unemployed").
    { eexists. vm_compute. split; reflexivity. }
    destruct E as (s' & E1 & E2). rewrite (H s' E1) in E2. discriminate.
Qed.

(** C3 (amended): for every utterance and every session, the employment
    (and likewise the credit-score) category stored is the last category
    in table order that has a keyword in the lower-cased text, so later
    categories overwrite earlier ones; with no matching category the field
    keeps its value.  This holds for the two keyword steps and for the
    whole of [_extract_entities]. *)
Theorem C3_last_category_wins (msg : text) (s : session) :
  (employment_of (extract_employment msg s) =
     last (map Some (matching_categories employment_keywords (lower msg)))
          (employment_of s)) /\
  (credit_of (extract_credit msg s) =
     last (map Some (matching_categories credit_keywords (lower msg)))
          (credit_of s)) /\
  (forall s', _extract_entities s msg = Some s' ->
     employment_of s' =
       last (map Some (matching_categories employment_keywords (lower msg)))
            (employment_of s) /\
     credit_of s' =
       last (map Some (matching_categories credit_keywords (lower msg)))
            (credit_of s)).
Proof.
  split; [apply extract_employment_last|].
  split; [apply extract_credit_last|].
  intros s'. unfold _extract_entities, bind.
  destruct (extract_income msg s) as [s1|] eqn:E1; [|discriminate].
  destruct (extract_amount debt_patterns set_debt "debt" msg s1) as [s2|] eqn:E2;
    [|discriminate].
  destruct (extract_amount loan_patterns set_loan "loan_amount" msg s2) as [s3|] eqn:E3;
    [|discriminate].
  intros H. inversion H. clear H.
  apply extract_income_keeps in E1.
  apply extract_amount_keeps in E2; [|intros; split; reflexivity].
  apply extract_amount_keeps in E3; [|intros; split; reflexivity].
  destruct E1 as [A1 B1], E2 as [A2 B2], E3 as [A3 B3].
  destruct (extract_intent_keeps msg (extract_credit msg (extract_employment msg s3)))
    as [A4 B4].
  rewrite A4, B4, extract_credit_employment, extract_credit_last,
    extract_employment_last, extract_employment_credit.
  rewrite A3, A2, A1, B3, B2, B1. split; reflexivity.
Qed.

End ExtractSpec.

(* ================================================================== *)
(** * What the matcher can return *)
(* ================================================================== *)

Module ReFacts.

Import Re.

(** The character just before the position reached after reading [w]
    from a position whose previous character is [p]. *)
Definition last_char (p : option ascii) (w : text) : option ascii :=
  fold_left (fun _ c => Some c) w p.

Lemma last_char_app (p : option ascii) (w1 w2 : text) :
  last_char p (w1 ++ w2) = last_char (last_char p w1) w2.
Proof.
  unfold last_char. apply fold_left_app.
Qed.

(** [Matches ic r p w s']: the pattern [r] can read the word [w] when the
    character before it is [p] and the subject continues with [s'].  The
    relation ignores the upper bound of a repetition and the order in
    which the matcher tries alternatives: it bounds what a match can be. *)
Inductive Matches (ic : bool) : regex -> option ascii -> text -> text -> Prop :=
| MEps p s' : Matches ic Eps p [] s'
| MChr f p c s' : cmatch ic f c = true -> Matches ic (Chr f) p [c] s'
| MCat a b p w1 w2 s' :
    Matches ic a p w1 (w2 ++ s') ->
    Matches ic b (last_char p w1) w2 s' ->
    Matches ic (Cat a b) p (w1 ++ w2) s'
| MAltL a b p w s' : Matches ic a p w s' -> Matches ic (Alt a b) p w s'
| MAltR a b p w s' : Matches ic b p w s' -> Matches ic (Alt a b) p w s'
| MRep0 a hi p s' : Matches ic (Rep a 0 hi) p [] s'
| MRepS a lo hi p w1 w2 s' :
    Matches ic a p w1 (w2 ++ s') ->
    Matches ic (Rep a (pred lo) hi) (last_char p w1) w2 s' ->
    Matches ic (Rep a lo hi) p (w1 ++ w2) s'
| MBnd p s' : at_boundary {| prev := p; rest := s' |} = true -> Matches ic Bnd p [] s'
| MGrp n a p w s' : Matches ic a p w s' -> Matches ic (Grp n a) p w s'.

(** A matcher step is sound for [r] when every answer it gives comes from
    its continuation, called after a word that [r] can read. *)
Definition sound_for (ic : bool) (r : regex) (A : Type) (m : cont A -> cont A) : Prop :=
  forall (k : cont A) p s caps x,
    m k {| prev := p; rest := s |} caps = Some x ->
    exists w s' caps',
      s = w ++ s' /\ Matches ic r p w s' /\
      k {| prev := last_char p w; rest := s' |} caps' = Some x.

Lemma rep_loop_sound (ic : bool) (a : regex) (hi : option nat) (A : Type)
    (m : cont A -> cont A) :
  sound_for ic a m ->
  forall n lo, sound_for ic (Rep a lo hi) (rep_loop m n lo).
Proof.
  intros Hm. induction n as [|n IH]; intros lo k p s caps x; simpl.
  - destruct (Nat.eqb_spec lo 0) as [->|]; [|discriminate].
    intros H. exists [], s, caps. repeat split; [constructor | exact H].
  - destruct (m (rep_loop m n (pred lo) k) _ caps) as [y|] eqn:E.
    + intros H. inversion H. subst y.
      apply Hm in E. destruct E as (w1 & s1 & caps1 & -> & M1 & E).
      apply IH in E. destruct E as (w2 & s2 & caps2 & -> & M2 & E).
      exists (w1 ++ w2), s2, caps2. rewrite last_char_app, app_assoc.
      repeat split; [|exact E]. econstructor; eassumption.
    + destruct (Nat.eqb_spec lo 0) as [->|]; [|discriminate].
      intros H. exists [], s, caps. repeat split; [constructor | exact H].
Qed.

Theorem rmatch_sound (ic : bool) (r : regex) (A : Type) : sound_for ic r (rmatch (A := A) ic r).
Proof.
  induction r as [|f|a IHa b IHb|a IHa b IHb|a IHa lo hi| |n a IHa];
    intros k p s caps x; simpl.
  - intros H. exists [], s, caps. repeat split; [constructor | exact H].
  - destruct s as [|c s']; [discriminate|].
    destruct (cmatch ic f c) eqn:E; [|discriminate].
    intros H. exists [c], s', caps. repeat split; [constructor; exact E | exact H].
  - intros H. apply IHa in H. destruct H as (w1 & s1 & caps1 & -> & M1 & H).
    apply IHb in H. destruct H as (w2 & s2 & caps2 & -> & M2 & H).
    exists (w1 ++ w2), s2, caps2. rewrite last_char_app, app_assoc.
    repeat split; [|exact H]. econstructor; eassumption.
  - destruct (rmatch ic a k _ caps) as [y|] eqn:E.
    + intros H. inversion H. subst y. apply IHa in E.
      destruct E as (w & s' & caps' & -> & M & E).
      exists w, s', caps'. repeat split; [apply MAltL; exact M | exact E].
    + intros H. apply IHb in H.
      destruct H as (w & s' & caps' & -> & M & E').
      exists w, s', caps'. repeat split; [apply MAltR; exact M | exact E'].
  - intros H. eapply rep_loop_sound in H; [exact H | exact IHa].
  - destruct (at_boundary _) eqn:E; [|discriminate].
    intros H. exists [], s, caps. repeat split; [constructor; exact E | exact H].
  - intros H. apply IHa in H. destruct H as (w & s' & caps' & -> & M & H).
    exists w, s', ((n, consumed {| prev := p; rest := w ++ s' |}
                              {| prev := last_char p w; rest := s' |}) :: caps').
    repeat split; [constructor; exact M | exact H].
Qed.

(** ** Matches found in a subject *)

(** [r] matches the subject [s] from offset [st] to offset [en]. *)
Definition match_at (ic : bool) (r : regex) (s : text) (st en : nat) : Prop :=
  exists pre w post,
    s = pre ++ w ++ post /\ length pre = st /\ en = st + length w /\
    Matches ic r (last_char None pre) w post.

(** The scanner stands at offset [pos] of the subject [s]. *)
Definition stands_at (s : text) (pos : nat) (cur : cursor) : Prop :=
  exists pre, s = pre ++ rest cur /\ length pre = pos /\ prev cur = last_char None pre.

Lemma scan_unfold (ic : bool) (r : regex) (adv : bool) (pos : nat)
    (p : option ascii) (s : text) :
  scan ic r adv pos p s =
  match rmatch ic r (accept adv s) {| prev := p; rest := s |} [] with
  | Some (cur', caps) =>
      Some ({| m_start := pos;
               m_end := pos + (length s - length (rest cur'));
               m_groups := caps |}, cur')
  | None =>
      match s with
      | [] => None
      | c :: s' => scan ic r false (S pos) (Some c) s'
      end
  end.
Proof.
  destruct s; reflexivity.
Qed.

Lemma scan_hit (ic : bool) (r : regex) (subject : text) (adv : bool) (pos : nat)
    (p : option ascii) (s : text) (cur : cursor) (caps : captures) :
  stands_at subject pos {| prev := p; rest := s |} ->
  rmatch ic r (accept adv s) {| prev := p; rest := s |} [] = Some (cur, caps) ->
  let en := pos + (length s - length (rest cur)) in
  pos <= en /\ en <= length subject /\
  (adv = true -> pos < en) /\
  match_at ic r subject pos en /\
  stands_at subject en cur.
Proof.
  intros (pre & Hs & Hlen & Hp) E. cbn [prev rest] in Hs, Hp.
  apply rmatch_sound in E. destruct E as (w & s' & caps' & Hw & M & E).
  unfold accept in E. cbn [rest] in E.
  destruct (adv && _) eqn:Hadv; [discriminate|].
  inversion E. subst cur caps'. clear E. cbn [rest].
  assert (Hl : length s = length w + length s') by (rewrite Hw, length_app; reflexivity).
  assert (Hsub : length subject = pos + length w + length s')
    by (rewrite Hs, length_app; lia).
  replace (length s - length s') with (length w) by lia.
  split; [lia|]. split; [lia|]. split; [|split].
  - intros ->. cbn [andb] in Hadv. apply Nat.eqb_neq in Hadv. lia.
  - exists pre, w, s'. rewrite <- Hw, <- Hp. auto.
  - exists (pre ++ w). cbn [prev rest].
    rewrite <- app_assoc, <- Hw, length_app, last_char_app, <- Hp. auto.
Qed.

Lemma scan_sound (ic : bool) (r : regex) (subject : text) :
  forall s adv pos p m cur',
    stands_at subject pos {| prev := p; rest := s |} ->
    scan ic r adv pos p s = Some (m, cur') ->
    pos <= m_start m /\ m_start m <= m_end m /\ m_end m <= length subject /\
    (adv = true -> pos < m_end m) /\
    match_at ic r subject (m_start m) (m_end m) /\
    stands_at subject (m_end m) cur'.
Proof.
  induction s as [|c s IH]; intros adv pos p m cur' Hcur; rewrite scan_unfold;
    (destruct (rmatch ic r (accept adv _) _ []) as [[cur caps]|] eqn:E;
     [intros H; inversion H; subst m cur'; clear H; cbn [m_start m_end];
      destruct (@scan_hit _ _ _ _ _ _ _ _ _ Hcur E) as (H1 & H2 & H3 & H4 & H5);
      split; [lia|]; split; [lia|]; auto | ]).
  - discriminate.
  - destruct Hcur as (pre & Hs & Hlen & Hp). cbn [prev rest] in Hs, Hp.
    intros H. apply IH in H.
    + destruct H as (H1 & H2 & H3 & _ & H5 & H6).
      split; [lia|]. split; [lia|]. split; [lia|]. split; [intros _; lia|]. auto.
    + exists (pre ++ [c]). cbn [prev rest]. rewrite <- app_assoc.
      rewrite length_app, last_char_app. simpl. repeat split; auto; lia.
Qed.

(** The matches of a list are in the subject, left to right, without
    overlap, starting at or after [pos]. *)
Fixpoint ordered_from (n pos : nat) (ms : list match_obj) : Prop :=
  match ms with
  | [] => True
  | m :: ms' =>
      pos <= m_start m /\ m_start m <= m_end m /\ m_end m <= n /\
      ordered_from n (m_end m) ms'
  end.

Lemma finditer_loop_sound (ic : bool) (r : regex) (subject : text) :
  forall fuel adv pos cur,
    stands_at subject pos cur ->
    let ms := finditer_loop ic r fuel adv pos cur in
    ordered_from (length subject) pos ms /\
    Forall (fun m => match_at ic r subject (m_start m) (m_end m)) ms.
Proof.
  induction fuel as [|fuel IH]; intros adv pos cur Hcur; simpl; [auto|].
  destruct cur as [p s]. simpl.
  destruct (scan ic r adv pos p s) as [[m cur']|] eqn:E; simpl; [|auto].
  eapply scan_sound in E; [|exact Hcur].
  destruct E as (H1 & H2 & H3 & _ & H5 & H6).
  destruct (IH (Nat.eqb (m_end m) (m_start m)) (m_end m) cur' H6) as [I1 I2].
  repeat split; auto.
Qed.

Theorem finditer_sound (ic : bool) (r : regex) (s : text) :
  ordered_from (length s) 0 (finditer ic r s) /\
  Forall (fun m => match_at ic r s (m_start m) (m_end m)) (finditer ic r s).
Proof.
  unfold finditer. apply finditer_loop_sound.
  exists []. repeat split.
Qed.

(** ** Three static analyses of a pattern *)

(** The characters a match of the pattern can contain. *)
Fixpoint charset (ic : bool) (r : regex) (c : ascii) : bool :=
  match r with
  | Chr f => cmatch ic f c
  | Cat a b | Alt a b => charset ic a c || charset ic b c
  | Rep a _ _ | Grp _ a => charset ic a c
  | Eps | Bnd => false
  end.

Lemma Matches_charset (ic : bool) (r : regex) (p : option ascii) (w s' : text) :
  Matches ic r p w s' -> Forall (fun c => charset ic r c = true) w.
Proof.
  induction 1; simpl; try constructor; auto.
  - apply Forall_app. split; eapply Forall_impl; try eassumption;
      simpl; intros c Hc; rewrite Hc; auto using orb_true_r.
  - eapply Forall_impl; try eassumption. simpl. intros c Hc. rewrite Hc. reflexivity.
  - eapply Forall_impl; try eassumption. simpl. intros c Hc. rewrite Hc.
    apply orb_true_r.
  - apply Forall_app. split; assumption.
Qed.

Definition all_ascii : list ascii := map ascii_of_nat (List.seq 0 256).

Lemma all_ascii_complete (c : ascii) : In c all_ascii.
Proof.
  unfold all_ascii. rewrite <- (ascii_nat_embedding c).
  apply in_map, in_seq. pose proof (nat_ascii_bounded c). lia.
Qed.

(** Every match of the pattern contains a character that satisfies [P]. *)
Fixpoint mandatory (ic : bool) (P : ascii -> bool) (r : regex) : bool :=
  match r with
  | Chr f => forallb (fun c => implb (cmatch ic f c) (P c)) all_ascii
  | Cat a b => mandatory ic P a || mandatory ic P b
  | Alt a b => mandatory ic P a && mandatory ic P b
  | Rep a lo _ => negb (Nat.eqb lo 0) && mandatory ic P a
  | Grp _ a => mandatory ic P a
  | Eps | Bnd => false
  end.

Lemma Matches_mandatory (ic : bool) (P : ascii -> bool) (r : regex)
    (p : option ascii) (w s' : text) :
  Matches ic r p w s' -> mandatory ic P r = true -> Exists (fun c => P c = true) w.
Proof.
  induction 1; cbn [mandatory]; intros Hm; try discriminate.
  - constructor. rewrite forallb_forall in Hm.
    specialize (Hm c (all_ascii_complete c)). rewrite H in Hm. exact Hm.
  - apply Exists_app. apply orb_true_iff in Hm. tauto.
  - apply andb_true_iff in Hm. tauto.
  - apply andb_true_iff in Hm. tauto.
  - apply andb_true_iff in Hm. apply Exists_app. tauto.
  - auto.
Qed.

(** Every match of the pattern starts at a word boundary. *)
Fixpoint leading_bnd (r : regex) : bool :=
  match r with
  | Bnd => true
  | Cat a _ => leading_bnd a
  | Alt a b => leading_bnd a && leading_bnd b
  | Grp _ a => leading_bnd a
  | _ => false
  end.

Lemma Matches_leading_bnd (ic : bool) (r : regex) (p : option ascii) (w s' : text) :
  Matches ic r p w s' -> leading_bnd r = true ->
  at_boundary {| prev := p; rest := w ++ s' |} = true.
Proof.
  induction 1; simpl; intros Hb; try discriminate; auto.
  - rewrite <- app_assoc. auto.
  - apply andb_true_iff in Hb. tauto.
  - apply andb_true_iff in Hb. tauto.
Qed.

End ReFacts.

(* ================================================================== *)
(** * The PII redactor: [mask_text] and [unmask_text] *)
(* ================================================================== *)

Module PiiSpec.

Import Re Pii ReFacts.

Local Open Scope string_scope.
Local Open Scope list_scope.

(** ** One category, read left to right *)

(** The text a category leaves behind, read left to right from offset
    [q] of the subject [s]: each match paired with the index of its
    placeholder. *)
Fixpoint fill_with (ty : string) (s : text) (q : nat) (nms : list (match_obj * nat))
  : text :=
  match nms with
  | [] => skipn q s
  | (m, i) :: more =>
      slice s q (m_start m) ++ placeholder ty i ++ fill_with ty s (m_end m) more
  end.

(** Indices [c0 + n, ..., c0 + 2, c0 + 1] for [n] matches: the leftmost
    match gets the highest index, the rightmost gets [c0 + 1]. *)
Definition countdown (c0 n : nat) : list nat := rev (List.seq (S c0) n).

Definition numbered (c0 : nat) (ms : list match_obj) : list (match_obj * nat) :=
  combine ms (countdown c0 (length ms)).

(** The placeholder-to-original pairs of a category, in the order the
    code stores them (rightmost match first). *)
Definition entries (ty : string) (s : text) (nms : list (match_obj * nat))
  : list (text * text) :=
  rev (map (fun mi => (placeholder ty (snd mi), group0 s (fst mi))) nms).

(** [for k, v in es: d[k] = v] *)
Definition dict_update (d : list (text * text)) (es : list (text * text))
  : list (text * text) :=
  fold_left (fun d e => dict_set text_eqb d (fst e) (snd e)) es d.

Lemma countdown_S (c0 n : nat) : countdown c0 (S n) = (c0 + S n) :: countdown c0 n.
Proof.
  unfold countdown. rewrite seq_S, rev_app_distr. simpl. f_equal. lia.
Qed.

Lemma numbered_cons (c0 : nat) (m : match_obj) (ms : list match_obj) :
  numbered c0 (m :: ms) = (m, c0 + S (length ms)) :: numbered c0 ms.
Proof.
  unfold numbered. cbn [length]. rewrite countdown_S. reflexivity.
Qed.

Lemma counter_get_set_same (d : list (string * nat)) (k : string) (v : nat) :
  counter_get (dict_set String.eqb d k v) k = v.
Proof.
  induction d as [|[k' v'] d IH]; simpl.
  - rewrite String.eqb_refl. reflexivity.
  - destruct (String.eqb k' k) eqn:E; simpl.
    + rewrite String.eqb_refl. reflexivity.
    + rewrite E. exact IH.
Qed.

Lemma counter_get_set_other (d : list (string * nat)) (k k' : string) (v : nat) :
  k' <> k -> counter_get (dict_set String.eqb d k v) k' = counter_get d k'.
Proof.
  intros Hne. induction d as [|[k0 v0] d IH]; simpl.
  - destruct (String.eqb_spec k k'); [congruence | reflexivity].
  - destruct (String.eqb_spec k0 k) as [->|Hk]; simpl.
    + destruct (String.eqb_spec k k'); [congruence|].
      destruct (String.eqb_spec k k'); [congruence | reflexivity].
    + destruct (String.eqb_spec k0 k'); [reflexivity | exact IH].
Qed.

Lemma firstn_app_exact {A} (a b : list A) (n : nat) :
  n = length a -> firstn n (a ++ b) = a.
Proof.
  intros ->. rewrite firstn_app, Nat.sub_diag, firstn_all. simpl. apply app_nil_r.
Qed.

Lemma skipn_app_exact {A} (a b : list A) (n : nat) :
  n = length a -> skipn n (a ++ b) = b.
Proof.
  intros ->. rewrite skipn_app, Nat.sub_diag, skipn_all. reflexivity.
Qed.

Lemma firstn_slice (s : text) (q st : nat) :
  q <= st -> firstn q s ++ slice s q st = firstn st s.
Proof.
  unfold slice. revert s st. induction q as [|q IH]; intros s st H.
  - simpl. rewrite Nat.sub_0_r. reflexivity.
  - destruct st as [|st]; [lia|]. destruct s as [|c s]; simpl.
    + rewrite firstn_nil. reflexivity.
    + f_equal. apply IH. lia.
Qed.

Section Category.

Variable ty : string.
Variable s : text.

(** The state after the matches [ms] have been replaced, rightmost
    first, starting from [st1]. *)
Definition replaced (st1 : mask_state) (ms : list match_obj) : mask_state :=
  fold_left (replace_match ty s) (rev ms) st1.

Lemma replaced_cons (st1 : mask_state) (m : match_obj) (ms : list match_obj) :
  replaced st1 (m :: ms) = replace_match ty s (replaced st1 ms) m.
Proof.
  unfold replaced. simpl. rewrite fold_left_app. reflexivity.
Qed.

Lemma replaced_spec (st1 : mask_state) :
  masked_text st1 = s ->
  forall ms q,
    ordered_from (length s) q ms ->
    let c0 := counter_get (pii_counters (self st1)) ty in
    let st' := replaced st1 ms in
    masked_text st' = firstn q s ++ fill_with ty s q (numbered c0 ms) /\
    counter_get (pii_counters (self st')) ty = c0 + length ms /\
    (forall ty', ty' <> ty ->
       counter_get (pii_counters (self st')) ty' =
       counter_get (pii_counters (self st1)) ty') /\
    masked_mapping (self st') =
      dict_update (masked_mapping (self st1)) (entries ty s (numbered c0 ms)) /\
    detected st' = detected st1 /\
    count_masked st' = count_masked st1 + length ms.
Proof.
  intros Hs. induction ms as [|m ms IH]; intros q Hord; cbn zeta.
  - unfold replaced. simpl. rewrite firstn_skipn, !Nat.add_0_r. auto 7.
  - destruct Hord as (H1 & H2 & H3 & Hord).
    destruct (IH _ Hord) as (I1 & I2 & I3 & I4 & I5 & I6). clear IH.
    rewrite replaced_cons, numbered_cons.
    unfold replace_match. cbn [masked_text self pii_counters masked_mapping
                                 detected count_masked fill_with].
    rewrite I1, I2, I5, I6.
    split; [|split; [|split; [|split; [|split]]]].
    + rewrite firstn_app, firstn_firstn, length_firstn.
      replace (Nat.min (m_start m) (m_end m)) with (m_start m) by lia.
      replace (m_start m - Nat.min (m_end m) (length s)) with 0 by lia.
      rewrite skipn_app_exact by (rewrite length_firstn; lia).
      simpl. rewrite app_nil_r, <- (firstn_slice s H1), <- app_assoc.
      replace (counter_get (pii_counters (self st1)) ty + length ms + 1)
        with (counter_get (pii_counters (self st1)) ty + S (length ms)) by lia.
      reflexivity.
    + rewrite counter_get_set_same. simpl. lia.
    + intros ty' Hne. rewrite counter_get_set_other by exact Hne. apply I3, Hne.
    + rewrite I4. unfold entries, dict_update. cbn [map rev fst snd].
      rewrite fold_left_app. cbn [fold_left fst snd].
      replace (counter_get (pii_counters (self st1)) ty + length ms + 1)
        with (counter_get (pii_counters (self st1)) ty + S (length ms)) by lia.
      reflexivity.
    + reflexivity.
    + simpl. lia.
Qed.

End Category.

(** What [mask_category] does, read left to right. *)
Lemma mask_category_spec (st : mask_state) (ty : string) (pat : regex) :
  let s := masked_text st in
  let ms := finditer true pat s in
  let c0 := counter_get (pii_counters (self st)) ty in
  let st' := mask_category st (ty, pat) in
  masked_text st' = fill_with ty s 0 (numbered c0 ms) /\
  counter_get (pii_counters (self st')) ty = c0 + length ms /\
  (forall ty', ty' <> ty ->
     counter_get (pii_counters (self st')) ty' =
     counter_get (pii_counters (self st)) ty') /\
  masked_mapping (self st') =
    dict_update (masked_mapping (self st)) (entries ty s (numbered c0 ms)) /\
  detected st' = detected st ++ (match ms with [] => [] | _ => [ty] end) /\
  count_masked st' = count_masked st + length ms.
Proof.
  cbn zeta. unfold mask_category.
  pose proof (proj1 (finditer_sound true pat (masked_text st))) as Hord.
  destruct (finditer true pat (masked_text st)) as [|m ms] eqn:E.
  - simpl. rewrite app_nil_r, !Nat.add_0_r. auto 7.
  - set (st1 := {| self := self st; masked_text := masked_text st;
                   detected := detected st ++ [ty];
                   count_masked := count_masked st |}).
    apply (@replaced_spec ty (masked_text st) st1 eq_refl) in Hord.
    exact Hord.
Qed.

(** ** The loop over the categories *)

Lemma mask_loop_app (pre post : list (string * regex)) (st : mask_state) :
  mask_loop (pre ++ post) st = mask_loop post (mask_loop pre st).
Proof.
  unfold mask_loop. apply fold_left_app.
Qed.

Lemma mask_loop_counter (pats : list (string * regex)) (ty : string) :
  ~ In ty (map fst pats) ->
  forall st,
    counter_get (pii_counters (self (mask_loop pats st))) ty =
    counter_get (pii_counters (self st)) ty.
Proof.
  induction pats as [|[ty' pat] pats IH]; intros Hnot st; [reflexivity|].
  simpl in Hnot. change (mask_loop ((ty', pat) :: pats) st)
    with (mask_loop pats (mask_category st (ty', pat))).
  rewrite IH by tauto.
  destruct (mask_category_spec st ty' pat) as (_ & _ & H & _).
  apply H. intros ->. tauto.
Qed.

Lemma mask_loop_detected (pats : list (string * regex)) :
  forall st, exists names,
    detected (mask_loop pats st) = detected st ++ names /\
    incl names (map fst pats).
Proof.
  induction pats as [|[ty pat] pats IH]; intros st.
  - exists []. simpl. rewrite app_nil_r. split; [reflexivity | apply incl_refl].
  - change (mask_loop ((ty, pat) :: pats) st)
      with (mask_loop pats (mask_category st (ty, pat))).
    destruct (IH (mask_category st (ty, pat))) as (names & Hd & Hincl).
    destruct (mask_category_spec st ty pat) as (_ & _ & _ & _ & H & _).
    rewrite Hd, H, <- app_assoc. eexists. split; [reflexivity|].
    intros x Hx. apply in_app_or in Hx. destruct Hx as [Hx|Hx].
    + destruct (finditer true pat (masked_text st)); simpl in *; tauto.
    + right. apply Hincl, Hx.
Qed.

(** The text a category scans: what the categories before it left. *)
Definition scanned (slf : masker) (txt : text) (pre : list (string * regex)) : text :=
  masked_text (mask_loop pre (mask_start slf txt)).

Lemma pii_patterns_nodup : NoDup (map fst pii_patterns).
Proof.
  simpl. repeat constructor; simpl; intuition discriminate.
Qed.

Lemma split_nodup (pre post : list (string * regex)) (ty : string) (pat : regex) :
  pii_patterns = pre ++ (ty, pat) :: post ->
  ~ In ty (map fst pre) /\ ~ In ty (map fst post).
Proof.
  intros H. pose proof pii_patterns_nodup as N.
  rewrite H, map_app in N. simpl in N.
  apply NoDup_remove_2 in N. rewrite in_app_iff in N. tauto.
Qed.

(** C8: within one [mask_text] call, for each category the matches found
    in the text the category scans are replaced right to left, and the
    category's counter starts at 1 and counts in that order: reading the
    result left to right, the matches carry the indices n, n-1, ..., 1, so
    the rightmost occurrence gets index 1 and the leftmost the highest
    index; the counter ends at the number of matches. *)
Theorem C8_rightmost_match_gets_index_1 (slf : masker) (txt : text)
    (pre post : list (string * regex)) (ty : string) (pat : regex) :
  pii_patterns = pre ++ (ty, pat) :: post ->
  let st := mask_loop pre (mask_start slf txt) in
  let s := masked_text st in
  let ms := finditer true pat s in
  let st' := mask_category st (ty, pat) in
  masked_text st' =
    fill_with ty s 0 (combine ms (rev (List.seq 1 (length ms)))) /\
  counter_get (pii_counters (self st)) ty = 0 /\
  counter_get (pii_counters (self st')) ty = length ms.
Proof.
  intros Hsplit st s ms st'.
  destruct (@split_nodup pre post ty pat Hsplit) as [Hpre _].
  assert (H0 : counter_get (pii_counters (self st)) ty = 0).
  { unfold st. rewrite mask_loop_counter by exact Hpre. reflexivity. }
  destruct (mask_category_spec st ty pat) as (H1 & H2 & _).
  rewrite H0 in H1, H2.
  repeat split; auto.
Qed.

Lemma C8_rightmost_match_gets_index_1_witness :
  let txt := T "111-22-3333 444-55-6666 777-88-9999" in
  pii_patterns = [] ++ ("ssn", ssn_pattern) :: tl pii_patterns /\
  masked_text (mask_category (mask_loop [] (mask_start new_masker txt))
                 ("ssn", ssn_pattern)) = T "<SSN_3> <SSN_2> <SSN_1>".
Proof.
  split; [reflexivity|].
  rewrite (proj1 (@C8_rightmost_match_gets_index_1 new_masker
                    (T "111-22-3333 444-55-6666 777-88-9999")
                    [] (tl pii_patterns) "ssn" ssn_pattern eq_refl)).
  vm_compute. reflexivity.
Defined.

(** C4, the claim as stated, fails: the routing-number pattern matches
    the original text "routing 021000021", but the category is not
    reported, because the SSN category has already replaced the nine
    digits by the time the routing-number pattern is tried. *)
Lemma C4_original_match_not_detected :
  let txt := T "routing 021000021" in
  finditer true routing_number_pattern txt <> [] /\
  fst (mask_sensitive_data txt) = T "routing <SSN_1>" /\
  pii_detected (snd (mask_sensitive_data txt)) = ["ssn"] /\
  ~ In "routing_number" (pii_detected (snd (mask_sensitive_data txt))).
Proof.
  vm_compute. repeat split; try reflexivity; try discriminate.
  intros [H|[]]. discriminate.
Qed.

(** C4 (amended): in [mask_text] each category's pattern is matched
    against the text as the earlier categories left it, which is the
    original text for the first category only.  For every category, it is
    reported iff its pattern has a match in that text, and the text it
    leaves is that text with exactly those matches replaced. *)
Theorem C4_category_scans_current_text (slf : masker) (txt : text)
    (pre post : list (string * regex)) (ty : string) (pat : regex) :
  pii_patterns = pre ++ (ty, pat) :: post ->
  let s := scanned slf txt pre in
  let ms := finditer true pat s in
  scanned slf txt [] = txt /\
  (In ty (pii_detected (snd (snd (mask_text slf txt)))) <-> ms <> []) /\
  scanned slf txt (pre ++ [(ty, pat)]) =
    fill_with ty s 0 (combine ms (rev (List.seq 1 (length ms)))).
Proof.
  intros Hsplit s ms. subst ms s.
  destruct (@split_nodup pre post ty pat Hsplit) as [Hpre Hpost].
  split; [reflexivity|].
  unfold scanned. rewrite mask_loop_app.
  unfold mask_text. cbn [snd fst pii_detected].
  rewrite Hsplit.
  change (pre ++ (ty, pat) :: post) with (pre ++ [(ty, pat)] ++ post).
  rewrite !mask_loop_app.
  set (st := mask_loop pre (mask_start slf txt)).
  change (mask_loop [(ty, pat)] st) with (mask_category st (ty, pat)).
  destruct (mask_category_spec st ty pat) as (H1 & _ & _ & _ & H5 & _).
  assert (H0 : counter_get (pii_counters (self st)) ty = 0).
  { unfold st. rewrite mask_loop_counter by exact Hpre. reflexivity. }
  rewrite H0 in H1.
  destruct (mask_loop_detected post (mask_category st (ty, pat))) as (n2 & D2 & I2).
  destruct (mask_loop_detected pre (mask_start slf txt)) as (n1 & D1 & I1).
  fold st in D1. rewrite D2, H5, D1, H1. cbn [mask_start detected app].
  split; [|reflexivity].
  rewrite !in_app_iff.
  destruct (finditer true pat (masked_text st)) as [|m ms].
  - split; [|congruence].
    intros [[Hin|Hin]|Hin].
    + exfalso. apply Hpre, I1, Hin.
    + destruct Hin.
    + exfalso. apply Hpost, I2, Hin.
  - split; [discriminate|]. intros _. left. right. left. reflexivity.
Qed.

Lemma C4_category_scans_current_text_witness :
  let txt := T "routing 021000021" in
  pii_patterns =
    firstn 5 pii_patterns ++ ("routing_number", routing_number_pattern) :: skipn 6 pii_patterns /\
  scanned new_masker txt (firstn 5 pii_patterns) = T "routing <SSN_1>" /\
  (In "routing_number" (pii_detected (snd (snd (mask_text new_masker txt)))) <->
   finditer true routing_number_pattern (T "routing <SSN_1>") <> []).
Proof.
  split; [reflexivity|]. split; [vm_compute; reflexivity|].
  apply (@C4_category_scans_current_text new_masker (T "routing 021000021")
           (firstn 5 pii_patterns) (skipn 6 pii_patterns)
           "routing_number" routing_number_pattern eq_refl).
Defined.

End PiiSpec.

(* ================================================================== *)
(** * Masking followed by unmasking *)
(* ================================================================== *)

Unset Implicit Arguments.

Module RoundTrip.

Import Re Pii ReFacts PiiSpec.

Local Open Scope char_scope.
Local Open Scope list_scope.

Lemma prefixb_refl (a : text) : prefixb a a = true.
Proof.
  induction a as [|c a IH]; simpl; [reflexivity|].
  rewrite Ascii.eqb_refl. exact IH.
Qed.

Lemma text_eqb_refl (a : text) : text_eqb a a = true.
Proof.
  unfold text_eqb. rewrite Nat.eqb_refl, prefixb_refl. reflexivity.
Qed.

Lemma prefixb_app (p s : text) : prefixb p s = true <-> exists t, s = p ++ t.
Proof.
  revert s. induction p as [|a p IH]; intros s; simpl.
  - split; [intros _; exists s; reflexivity | reflexivity].
  - destruct s as [|b s]; [split; [discriminate | intros [t Ht]; discriminate]|].
    rewrite andb_true_iff, Ascii.eqb_eq, IH. split.
    + intros [-> [t ->]]. exists t. reflexivity.
    + intros [t Ht]. inversion Ht. split; [reflexivity | exists t; reflexivity].
Qed.

Lemma text_eqb_eq (a b : text) : text_eqb a b = true <-> a = b.
Proof.
  split; [|intros ->; apply text_eqb_refl].
  unfold text_eqb. rewrite andb_true_iff, Nat.eqb_eq, prefixb_app.
  intros [Hl [t ->]]. rewrite length_app in Hl.
  destruct t; [rewrite app_nil_r; reflexivity | simpl in Hl; lia].
Qed.

(** ** Placeholders *)

(** The characters of a category name in upper case. *)
Definition up (c : ascii) : bool := is_upper c || Ascii.eqb c "_".

(** [<TYPE_n>]: an opening bracket, a name in upper-case letters and
    underscores, an underscore, decimal digits, a closing bracket. *)
Definition wf_ph (ph : text) : Prop :=
  exists U D,
    ph = "<" :: U ++ "_" :: D ++ [">"] /\
    Forall (fun c => up c = true) U /\
    Forall (fun c => is_digit c = true) D.

Definition names : list string := map fst pii_patterns.

(** A text of placeholder form: [<TYPE_n>] for a category of the table. *)
Definition placeholder_form (ph : text) : Prop :=
  exists ty n, In ty names /\ ph = placeholder ty n.

Lemma placeholder_unfold (ty : string) (n : nat) :
  placeholder ty n = "<" :: upper (T ty) ++ "_" :: str_of_nat n ++ [">"].
Proof.
  reflexivity.
Qed.

Lemma string_of_uint_digits (d : Decimal.uint) :
  Forall (fun c => is_digit c = true)
         (list_ascii_of_string (NilEmpty.string_of_uint d)).
Proof.
  induction d; simpl; constructor; auto.
Qed.

Lemma str_of_nat_digits (n : nat) : Forall (fun c => is_digit c = true) (str_of_nat n).
Proof.
  apply string_of_uint_digits.
Qed.

Lemma str_of_nat_inj (n n' : nat) : str_of_nat n = str_of_nat n' -> n = n'.
Proof.
  unfold str_of_nat. intros H.
  apply (f_equal string_of_list_ascii) in H.
  rewrite !string_of_list_ascii_of_string in H.
  apply (f_equal NilEmpty.uint_of_string) in H.
  rewrite !NilEmpty.usu in H. inversion H.
  apply DecimalNat.Unsigned.to_uint_inj. assumption.
Qed.

Lemma names_upper (ty : string) :
  In ty names -> Forall (fun c => up c = true) (upper (T ty)).
Proof.
  assert (H : forallb (fun ty => forallb up (upper (T ty))) names = true)
    by (vm_compute; reflexivity).
  rewrite forallb_forall in H. intros Hin.
  apply Forall_forall. apply forallb_forall. apply H, Hin.
Qed.

Lemma names_upper_inj (ty ty' : string) :
  In ty names -> In ty' names -> upper (T ty) = upper (T ty') -> ty = ty'.
Proof.
  assert (H : forallb (fun a => forallb (fun b =>
                implb (text_eqb (upper (T a)) (upper (T b))) (String.eqb a b))
              names) names = true) by (vm_compute; reflexivity).
  rewrite forallb_forall in H. intros Ha Hb E.
  specialize (H ty Ha). rewrite forallb_forall in H. specialize (H ty' Hb).
  rewrite E in H.
  rewrite text_eqb_refl in H. simpl in H. apply String.eqb_eq. exact H.
Qed.

Lemma placeholder_wf (ty : string) (n : nat) : In ty names -> wf_ph (placeholder ty n).
Proof.
  intros H. exists (upper (T ty)), (str_of_nat n).
  rewrite placeholder_unfold. auto using names_upper, str_of_nat_digits.
Qed.

Lemma digit_not_underscore (D : text) :
  Forall (fun c => is_digit c = true) D -> ~ In "_" D.
Proof.
  intros H Hin. rewrite Forall_forall in H. apply H in Hin. discriminate.
Qed.

Lemma placeholder_inj (ty ty' : string) (n n' : nat) :
  In ty names -> In ty' names ->
  placeholder ty n = placeholder ty' n' -> ty = ty' /\ n = n'.
Proof.
  intros Ha Hb E. rewrite !placeholder_unfold in E. inversion E as [E1]. clear E.
  change ("_" :: str_of_nat n ++ [">"]) with (("_" :: str_of_nat n) ++ [">"]) in E1.
  change ("_" :: str_of_nat n' ++ [">"]) with (("_" :: str_of_nat n') ++ [">"]) in E1.
  rewrite !app_assoc in E1. apply app_inv_tail in E1.
  apply app_inj_pivot in E1.
  destruct E1 as [[[_ H]|[H _]]|[H1 H2]].
  - exfalso. eapply digit_not_underscore; [apply str_of_nat_digits | exact H].
  - exfalso. eapply digit_not_underscore; [apply str_of_nat_digits | exact H].
  - split; [apply names_upper_inj; assumption | apply str_of_nat_inj; assumption].
Qed.

(** ** What a match of a table pattern looks like *)

Definition safe_pattern (r : regex) : bool :=
  leading_bnd r &&
  negb (charset true r "<") && negb (charset true r ">") &&
  ((negb (charset true r "_") && mandatory true is_digit r)
   || mandatory true (Ascii.eqb "@") r).

Lemma pii_patterns_safe :
  forall ty pat, In (ty, pat) pii_patterns -> safe_pattern pat = true.
Proof.
  assert (H : forallb (fun e => safe_pattern (snd e)) pii_patterns = true)
    by (vm_compute; reflexivity).
  rewrite forallb_forall in H. intros ty pat Hin. apply (H _ Hin).
Qed.

(** A word that a table pattern can match after the character [lc] and
    before [post]: not empty, free of brackets, starting at a word
    boundary, and either with a digit and no underscore or with an [@]. *)
Definition good_word (lc : option ascii) (w post : text) : Prop :=
  w <> [] /\
  Forall (fun c => c <> "<" /\ c <> ">") w /\
  at_boundary {| prev := lc; rest := w ++ post |} = true /\
  ((Forall (fun c => c <> "_") w /\ Exists (fun c => is_digit c = true) w)
   \/ In "@" w).

Lemma charset_excludes (r : regex) (x : ascii) (w : text) :
  charset true r x = false ->
  Forall (fun c => charset true r c = true) w ->
  Forall (fun c => c <> x) w.
Proof.
  intros Hx. apply Forall_impl. intros c Hc ->. congruence.
Qed.

Lemma safe_pattern_good (r : regex) (p : option ascii) (w post : text) :
  safe_pattern r = true -> Matches true r p w post -> good_word p w post.
Proof.
  unfold safe_pattern. rewrite !andb_true_iff, !negb_true_iff.
  intros [[[Hb Hlt] Hgt] Hk] M.
  pose proof (Matches_charset M) as Hcs.
  pose proof (charset_excludes r _ w Hlt Hcs) as H1.
  pose proof (charset_excludes r _ w Hgt Hcs) as H2.
  assert (Hkind : (Forall (fun c => c <> "_") w /\ Exists (fun c => is_digit c = true) w)
                  \/ In "@" w).
  { apply orb_true_iff in Hk. destruct Hk as [Hk|Hk].
    - apply andb_true_iff in Hk. destruct Hk as [Hu Hd]. apply negb_true_iff in Hu.
      left. split; [exact (charset_excludes r _ w Hu Hcs) | exact (Matches_mandatory _ M Hd)].
    - right. pose proof (Matches_mandatory _ M Hk) as He.
      apply Exists_exists in He. destruct He as (c & Hin & Hc).
      apply Ascii.eqb_eq in Hc. subst c. exact Hin. }
  repeat split.
  - intros ->. destruct Hkind as [[_ He]|Hin]; [inversion He | destruct Hin].
  - rewrite Forall_forall in *. intros c Hc. split; [apply H1 | apply H2]; exact Hc.
  - exact (Matches_leading_bnd M Hb).
  - exact Hkind.
Qed.

(** ** Character facts *)

Lemma ascii_forall (P : ascii -> bool) :
  forallb P all_ascii = true -> forall c, P c = true.
Proof.
  intros H c. rewrite forallb_forall in H. apply H, all_ascii_complete.
Qed.

(** The characters between the brackets of a placeholder. *)
Definition inner (c : ascii) : bool := up c || is_digit c.

Lemma inner_word (c : ascii) : inner c = true -> is_word c = true.
Proof.
  assert (H : forall c, implb (inner c) (is_word c) = true)
    by (apply ascii_forall; vm_compute; reflexivity).
  intros Hc. specialize (H c). rewrite Hc in H. exact H.
Qed.

Lemma digit_not_up (c : ascii) : is_digit c = true -> up c = false.
Proof.
  assert (H : forall c, implb (is_digit c) (negb (up c)) = true)
    by (apply ascii_forall; vm_compute; reflexivity).
  intros Hc. specialize (H c). rewrite Hc in H. apply negb_true_iff. exact H.
Qed.

Lemma inner_chars (U D : text) :
  Forall (fun c => up c = true) U -> Forall (fun c => is_digit c = true) D ->
  Forall (fun c => inner c = true) (U ++ "_" :: D).
Proof.
  intros HU HD. apply Forall_app. split; [|constructor; [reflexivity|]].
  - eapply Forall_impl; [|exact HU]. intros c Hc. unfold inner. rewrite Hc. reflexivity.
  - eapply Forall_impl; [|exact HD]. intros c Hc. unfold inner. rewrite Hc.
    apply orb_true_r.
Qed.

Lemma last_char_snoc (lc : option ascii) (x : text) (z : ascii) :
  last_char lc (x ++ [z]) = Some z.
Proof.
  rewrite last_char_app. reflexivity.
Qed.

Lemma ends_with (l x y : text) (c : ascii) :
  x ++ l = y ++ [c] -> l <> [] -> exists l0, l = l0 ++ [c].
Proof.
  intros E Hl. destruct (exists_last Hl) as (l0 & z & ->).
  rewrite app_assoc in E. apply app_inj_tail in E. destruct E as [_ ->].
  exists l0. reflexivity.
Qed.

(** ** Annotated text *)

(** The masked text with its history: a character of the original text,
    or a placeholder that stands for a stretch of the original text. *)
Inductive item :=
| C (c : ascii)
| H (ph v : text).

Definition masked_of (it : item) : text :=
  match it with C c => [c] | H ph _ => ph end.

Definition original_of (it : item) : text :=
  match it with C c => [c] | H _ v => v end.

Definition render_m (a : list item) : text := flat_map masked_of a.
Definition render_o (a : list item) : text := flat_map original_of a.

Definition holes (a : list item) : list (text * text) :=
  flat_map (fun it => match it with C _ => [] | H ph v => [(ph, v)] end) a.

Definition wf_item (it : item) : Prop :=
  match it with C _ => True | H ph _ => wf_ph ph end.

Lemma render_m_app (a b : list item) : render_m (a ++ b) = render_m a ++ render_m b.
Proof. apply flat_map_app. Qed.

Lemma render_o_app (a b : list item) : render_o (a ++ b) = render_o a ++ render_o b.
Proof. apply flat_map_app. Qed.

Lemma holes_app (a b : list item) : holes (a ++ b) = holes a ++ holes b.
Proof. apply flat_map_app. Qed.

Lemma render_m_chars (w : text) : render_m (map C w) = w.
Proof. induction w; simpl; congruence. Qed.

Lemma render_o_chars (w : text) : render_o (map C w) = w.
Proof. induction w; simpl; congruence. Qed.

Lemma holes_chars (w : text) : holes (map C w) = [].
Proof. induction w; simpl; congruence. Qed.

(** A stretch of the masked text without an opening bracket is made of
    original characters. *)
Lemma run (w : text) :
  forall a post,
    Forall wf_item a ->
    render_m a = w ++ post ->
    Forall (fun c => c <> "<") w ->
    exists Y, a = map C w ++ Y /\ render_m Y = post.
Proof.
  induction w as [|d w IH]; intros a post Hwf E Hw.
  - exists a. auto.
  - inversion Hw as [|? ? Hd Hw']. subst.
    destruct a as [|[c|ph v] a]; simpl in E.
    + discriminate.
    + inversion E. subst c. inversion Hwf. subst.
      destruct (IH a post) as (Y & -> & HY); auto.
      exists Y. auto.
    + inversion Hwf as [|? ? Hph _]. subst. simpl in Hph.
      destruct Hph as (U & D & -> & _).
      simpl in E. inversion E. congruence.
Qed.

(** No good word starts inside a placeholder. *)
Lemma no_match_inside (ph pre l R w post : text) (lc : option ascii) :
  wf_ph ph -> ph = pre ++ l -> l <> [] ->
  w ++ post = l ++ R ->
  good_word (last_char lc pre) w post -> False.
Proof.
  intros (U & D & Eph & HU & HD) Hsplit Hl E (Hne & Hbr & Hbnd & Hkind).
  assert (Hgt : ~ In ">" w).
  { intros Hin. rewrite Forall_forall in Hbr. destruct (Hbr _ Hin). congruence. }
  assert (Hlt : ~ In "<" w).
  { intros Hin. rewrite Forall_forall in Hbr. destruct (Hbr _ Hin). congruence. }
  assert (Eph' : pre ++ l = ("<" :: U ++ "_" :: D) ++ [">"]).
  { rewrite <- Hsplit, Eph. simpl. rewrite <- app_assoc. reflexivity. }
  apply app_eq_app in E. destruct E as (m & [[Ew _]|[El _]]).
  - destruct (ends_with _ _ _ _ Eph' Hl) as (l0 & ->).
    apply Hgt. rewrite Ew. rewrite !in_app_iff. simpl. auto.
  - subst l. destruct m as [|m1 m].
    + rewrite app_nil_r in Eph'.
      destruct (ends_with _ _ _ _ Eph' Hne) as (w0 & ->).
      apply Hgt. rewrite in_app_iff. simpl. auto.
    + assert (Hm : m1 :: m <> []) by discriminate.
      rewrite app_assoc in Eph'.
      destruct (ends_with _ _ _ _ Eph' Hm) as (m0 & Em). rewrite Em in Eph'.
      rewrite app_assoc in Eph'. apply app_inj_tail in Eph'. destruct Eph' as [Ein _].
      rewrite <- app_assoc in Ein.
      assert (Hw1 : exists c1 w1, w = c1 :: w1) by (destruct w; [congruence | eauto]).
      destruct Hw1 as (c1 & w1 & Ew1).
      destruct pre as [|p0 pre'].
      * rewrite Ew1 in Ein. simpl in Ein. inversion Ein. subst c1.
        apply Hlt. rewrite Ew1. left. reflexivity.
      * simpl in Ein. inversion Ein as [[Ep Ein']]. subst p0. clear Ein.
        pose proof (inner_chars U D HU HD) as Hin. rewrite <- Ein' in Hin.
        apply Forall_app in Hin. destruct Hin as [Hpre' Hin].
        apply Forall_app in Hin. destruct Hin as [Hw _].
        destruct Hkind as [[Hus Hdig]|Hat].
        -- destruct pre' as [|q pre''] using rev_ind.
           ++ simpl in Ein'. symmetry in Ein'. apply app_eq_app in Ein'.
              destruct Ein' as (k & [[EU _]|[Ew Ek]]).
              ** apply Exists_exists in Hdig. destruct Hdig as (c & Hc & Hcd).
                 rewrite Forall_forall in HU.
                 assert (Hcu : up c = true).
                 { apply HU. rewrite EU. apply in_app_iff. left. exact Hc. }
                 rewrite (digit_not_up c Hcd) in Hcu. discriminate.
              ** destruct k as [|k1 k].
                 --- rewrite app_nil_r in Ew.
                     apply Exists_exists in Hdig. destruct Hdig as (c & Hc & Hcd).
                     rewrite Forall_forall in HU.
                     assert (Hcu : up c = true) by (apply HU; rewrite <- Ew; exact Hc).
                     rewrite (digit_not_up c Hcd) in Hcu. discriminate.
                 --- simpl in Ek. inversion Ek. subst k1.
                     rewrite Forall_forall in Hus.
                     apply (Hus "_"); [|reflexivity].
                     rewrite Ew. apply in_app_iff. right. left. reflexivity.
           ++ clear IHpre''.
              change ("<" :: pre'' ++ [q]) with (("<" :: pre'') ++ [q]) in Hbnd.
              rewrite last_char_snoc in Hbnd.
              unfold at_boundary, word_before, word_after in Hbnd.
              rewrite Ew1 in Hbnd, Hw. simpl in Hbnd.
              apply Forall_app in Hpre'. destruct Hpre' as [_ Hq].
              inversion Hq as [|? ? Hq' _]. inversion Hw as [|? ? Hc1 _].
              rewrite (inner_word _ Hq'), (inner_word _ Hc1) in Hbnd. discriminate.
        -- rewrite Forall_forall in Hw. specialize (Hw _ Hat). discriminate.
Qed.

(** A good word found in the masked text lies in a stretch of original
    characters. *)
Lemma locate (a : list item) :
  forall lc pre w post,
    Forall wf_item a ->
    render_m a = pre ++ w ++ post ->
    good_word (last_char lc pre) w post ->
    exists X Y, a = X ++ map C w ++ Y /\ render_m X = pre /\ render_m Y = post.
Proof.
  induction a as [|[c|ph v] a IH]; intros lc pre w post Hwf E Hgood.
  - destruct Hgood as (Hne & _). destruct pre, w; simpl in E; congruence.
  - inversion Hwf as [|? ? _ Hwf']. subst. simpl in E.
    destruct pre as [|p0 pre].
    + destruct Hgood as (Hne & Hbr & _). destruct w as [|c1 w]; [congruence|].
      simpl in E. inversion E. subst c1.
      inversion Hbr as [|? ? _ Hbr']. subst.
      destruct (run w a post Hwf') as (Y & -> & HY); auto.
      { eapply Forall_impl; [|exact Hbr']. simpl. tauto. }
      exists [], Y. auto.
    + simpl in E. inversion E. subst p0.
      destruct (IH (Some c) pre w post Hwf') as (X & Y & -> & HX & HY); auto.
      exists (C c :: X), Y. simpl. rewrite HX. auto.
  - inversion Hwf as [|? ? Hph Hwf']. subst. simpl in E.
    apply app_eq_app in E. destruct E as (l & [[E1 E2]|[E1 E2]]).
    + destruct l as [|l1 l].
      * rewrite app_nil_r in E1. subst pre. simpl in E2.
        destruct (IH (last_char lc ph) [] w post Hwf') as (X & Y & -> & HX & HY); auto.
        exists (H ph v :: X), Y. simpl. rewrite HX, app_nil_r. auto.
      * exfalso. eapply (no_match_inside ph pre (l1 :: l)); eauto. discriminate.
    + subst pre.
      destruct (IH (last_char lc ph) l w post Hwf') as (X & Y & -> & HX & HY); auto.
      { rewrite <- last_char_app. exact Hgood. }
      exists (H ph v :: X), Y. simpl. rewrite HX. auto.
Qed.

(** ** One category on the annotated text *)

(** The pairs a list of numbered matches adds to the mapping. *)
Definition new_pairs (ty : string) (s : text) (nms : list (match_obj * nat))
  : list (text * text) :=
  map (fun mi => (placeholder ty (snd mi), group0 s (fst mi))) nms.

Lemma skipn_prefix (pre x : text) (q : nat) :
  q <= length pre -> skipn q (pre ++ x) = skipn q pre ++ x.
Proof.
  intros Hq. rewrite skipn_app. replace (q - length pre) with 0 by lia. reflexivity.
Qed.

Lemma fill_items (ty : string) (s : text) (r : regex) :
  In ty names -> safe_pattern r = true ->
  forall nms q a,
    Forall wf_item a ->
    render_m a = skipn q s ->
    ordered_from (length s) q (map fst nms) ->
    Forall (fun mi => match_at true r s (m_start (fst mi)) (m_end (fst mi))) nms ->
    exists a',
      Forall wf_item a' /\
      render_m a' = fill_with ty s q nms /\
      render_o a' = render_o a /\
      (forall e, In e (holes a') -> In e (holes a) \/ In e (new_pairs ty s nms)).
Proof.
  intros Hty Hsafe. induction nms as [|[m i] more IH]; intros q a Hwf Hr Hord Hm.
  - exists a. simpl. auto.
  - simpl in Hord. destruct Hord as (Hq & Hse & Hen & Hord).
    inversion Hm as [|? ? Hm1 Hm2]. subst. simpl in Hm1.
    destruct Hm1 as (pre & w & post & Es & Hpre & Eend & M).
    pose proof (safe_pattern_good r _ w post Hsafe M) as Hgood.
    assert (Hskip : skipn q s = skipn q pre ++ w ++ post).
    { rewrite Es at 1. apply skipn_prefix. lia. }
    rewrite Hskip in Hr.
    destruct (locate a (last_char None (firstn q pre)) (skipn q pre) w post Hwf Hr)
      as (X & Y & Ea & HX & HY).
    { rewrite <- last_char_app, firstn_skipn. exact Hgood. }
    subst a. apply Forall_app in Hwf. destruct Hwf as [HwfX Hwf].
    apply Forall_app in Hwf. destruct Hwf as [_ HwfY].
    assert (Hpost : skipn (m_end m) s = post).
    { rewrite Es, app_assoc. apply skipn_app_exact. rewrite length_app. lia. }
    destruct (IH (m_end m) Y HwfY) as (Y' & HwfY' & RY' & OY' & HY'); auto.
    { rewrite HY. symmetry. exact Hpost. }
    assert (Hg : group0 s m = w).
    { unfold group0, slice. rewrite Es, skipn_app_exact by (symmetry; exact Hpre).
      apply firstn_app_exact. lia. }
    exists (X ++ H (placeholder ty i) w :: Y'). repeat split.
    + apply Forall_app. split; [exact HwfX|]. constructor; [|exact HwfY'].
      apply placeholder_wf, Hty.
    + rewrite render_m_app. simpl. rewrite HX, RY'. f_equal.
      unfold slice. rewrite Hskip. symmetry. apply firstn_app_exact.
      rewrite length_skipn. lia.
    + rewrite !render_o_app. simpl. rewrite render_o_chars, OY'. reflexivity.
    + intros e. rewrite !holes_app. simpl. rewrite holes_chars.
      rewrite !in_app_iff. simpl. rewrite Hg.
      intros [He|[He|He]]; auto.
      apply HY' in He. destruct He; auto.
Qed.

Lemma map_fst_combine {A B} (l : list A) (l' : list B) :
  length l = length l' -> map fst (combine l l') = l.
Proof.
  revert l'. induction l as [|x l IH]; intros [|y l'] Hl; simpl in *; try congruence.
  f_equal. apply IH. lia.
Qed.

Lemma map_snd_combine {A B} (l : list A) (l' : list B) :
  length l = length l' -> map snd (combine l l') = l'.
Proof.
  revert l'. induction l as [|x l IH]; intros [|y l'] Hl; simpl in *; try congruence.
  f_equal. apply IH. lia.
Qed.

Lemma countdown_length (c0 n : nat) : length (countdown c0 n) = n.
Proof.
  unfold countdown. rewrite length_rev, length_seq. reflexivity.
Qed.

Lemma numbered_fst (c0 : nat) (ms : list match_obj) : map fst (numbered c0 ms) = ms.
Proof.
  apply map_fst_combine. rewrite countdown_length. reflexivity.
Qed.

Lemma numbered_snd (c0 : nat) (ms : list match_obj) :
  map snd (numbered c0 ms) = countdown c0 (length ms).
Proof.
  apply map_snd_combine. rewrite countdown_length. reflexivity.
Qed.

(** ** The mapping *)

Definition keys (d : list (text * text)) : list text := map fst d.

Lemma dict_set_fresh (d : list (text * text)) (k v : text) :
  ~ In k (keys d) -> dict_set text_eqb d k v = d ++ [(k, v)].
Proof.
  induction d as [|[k' v'] d IH]; simpl; intros Hk; [reflexivity|].
  destruct (text_eqb k' k) eqn:E.
  - apply text_eqb_eq in E. tauto.
  - rewrite IH by tauto. reflexivity.
Qed.

Lemma dict_update_fresh (es : list (text * text)) :
  forall d,
    NoDup (keys es) -> (forall k, In k (keys es) -> ~ In k (keys d)) ->
    dict_update d es = d ++ es.
Proof.
  induction es as [|[k v] es IH]; intros d Hnd Hfresh.
  - simpl. rewrite app_nil_r. reflexivity.
  - simpl in Hnd. inversion Hnd as [|? ? Hk Hnd']. subst.
    change (dict_update d ((k, v) :: es))
      with (dict_update (dict_set text_eqb d k v) es).
    rewrite dict_set_fresh by (apply Hfresh; left; reflexivity).
    rewrite IH; auto.
    + rewrite <- app_assoc. reflexivity.
    + intros k' Hk'. unfold keys. rewrite map_app, in_app_iff. simpl.
      intros [Hd|[->|[]]].
      * apply (Hfresh k'); [right; exact Hk' | exact Hd].
      * apply Hk, Hk'.
Qed.

Lemma entries_keys (ty : string) (s : text) (nms : list (match_obj * nat)) :
  keys (entries ty s nms) = rev (map (placeholder ty) (map snd nms)).
Proof.
  unfold keys, entries. rewrite map_rev, !map_map. reflexivity.
Qed.

Lemma placeholder_nodup (ty : string) (idx : list nat) :
  In ty names -> NoDup idx -> NoDup (map (placeholder ty) idx).
Proof.
  intros Hty. induction 1 as [|i idx Hi Hnd IH]; simpl; constructor; auto.
  rewrite in_map_iff. intros (j & E & Hj).
  apply placeholder_inj in E; auto. destruct E as [_ ->]. tauto.
Qed.

(** ** The invariant of the masking loop *)

(** The annotated text [a] describes the state [st] of a masking pass
    over [txt], in which the categories [done] have been handled. *)
Record Inv (txt : text) (done : list string) (st : mask_state) (a : list item)
  : Prop := {
  inv_masked : render_m a = masked_text st;
  inv_original : render_o a = txt;
  inv_wf : Forall wf_item a;
  inv_holes : forall e, In e (holes a) -> In e (masked_mapping (self st));
  inv_nodup : NoDup (keys (masked_mapping (self st)));
  inv_keys : forall k, In k (keys (masked_mapping (self st))) ->
               exists ty n, In ty done /\ k = placeholder ty n
}.

Lemma inv_start (txt : text) :
  Inv txt [] (mask_start new_masker txt) (map C txt).
Proof.
  constructor; simpl.
  - apply render_m_chars.
  - apply render_o_chars.
  - apply Forall_forall. intros it Hit. apply in_map_iff in Hit.
    destruct Hit as (c & <- & _). exact I.
  - rewrite holes_chars. intros e [].
  - constructor.
  - intros k [].
Qed.

Lemma inv_category (txt : text) (done : list string) (st : mask_state)
    (a : list item) (ty : string) (pat : regex) :
  Inv txt done st a ->
  incl done names -> In ty names -> ~ In ty done -> safe_pattern pat = true ->
  exists a', Inv txt (ty :: done) (mask_category st (ty, pat)) a'.
Proof.
  intros [Im Io Iw Ih Ind Ik] Hdone Hty Hnew Hsafe.
  destruct (mask_category_spec st ty pat) as (S1 & _ & _ & S4 & _).
  destruct (finditer_sound true pat (masked_text st)) as [Hord Hms].
  set (s := masked_text st) in *.
  set (nms := numbered (counter_get (pii_counters (self st)) ty) (finditer true pat s)) in *.
  destruct (fill_items ty s pat Hty Hsafe nms 0 a Iw) as (a' & Hwf' & Hm' & Ho' & Hh').
  - exact Im.
  - unfold nms. rewrite numbered_fst. exact Hord.
  - apply Forall_forall. intros mi Hmi. rewrite Forall_forall in Hms.
    apply Hms. rewrite <- (numbered_fst (counter_get (pii_counters (self st)) ty)
                             (finditer true pat s)).
    apply in_map. exact Hmi.
  - assert (Hk : keys (entries ty s nms) =
                 rev (map (placeholder ty) (countdown (counter_get (pii_counters (self st)) ty)
                                              (length (finditer true pat s))))).
    { rewrite entries_keys. unfold nms. rewrite numbered_snd. reflexivity. }
    assert (Hnd : NoDup (keys (entries ty s nms))).
    { rewrite Hk. apply NoDup_rev, placeholder_nodup; [exact Hty|].
      apply NoDup_rev, seq_NoDup. }
    assert (Hfresh : forall k, In k (keys (entries ty s nms)) ->
                               ~ In k (keys (masked_mapping (self st)))).
    { intros k Hin Hold. rewrite Hk in Hin. apply in_rev, in_map_iff in Hin.
      destruct Hin as (i & <- & _).
      destruct (Ik _ Hold) as (ty' & n' & Hd & E).
      apply placeholder_inj in E; auto. destruct E as [-> _]. tauto. }
    rewrite (dict_update_fresh _ _ Hnd Hfresh) in S4.
    exists a'. constructor.
    + rewrite Hm'. symmetry. exact S1.
    + rewrite Ho'. exact Io.
    + exact Hwf'.
    + intros e He. rewrite S4. apply in_app_iff. apply Hh' in He.
      destruct He as [He|He]; [left; auto|right].
      unfold entries. apply in_rev. rewrite rev_involutive. exact He.
    + rewrite S4. unfold keys. rewrite map_app. apply NoDup_app; auto.
      intros k Hk1 Hk2. exact (Hfresh k Hk2 Hk1).
    + intros k. rewrite S4. unfold keys. rewrite map_app, in_app_iff.
      intros [Hold|Hnew'].
      * destruct (Ik _ Hold) as (ty' & n' & Hd & E). exists ty', n'. simpl. auto.
      * fold (keys (entries ty s nms)) in Hnew'. rewrite Hk in Hnew'.
        apply in_rev, in_map_iff in Hnew'. destruct Hnew' as (i & <- & _).
        exists ty, i. simpl. auto.
Qed.

Lemma inv_loop (txt : text) (pats : list (string * regex)) :
  forall done st a,
    Inv txt done st a ->
    incl done names ->
    NoDup (map fst pats) ->
    (forall ty pat, In (ty, pat) pats ->
       In ty names /\ ~ In ty done /\ safe_pattern pat = true) ->
    exists a' done',
      Inv txt done' (mask_loop pats st) a' /\ incl done' names.
Proof.
  induction pats as [|[ty pat] pats IH]; intros done st a HI Hdone Hnd Hp.
  - exists a, done. auto.
  - destruct (Hp ty pat (or_introl eq_refl)) as (Hty & Hnew & Hsafe).
    destruct (inv_category _ _ _ _ ty pat HI Hdone Hty Hnew Hsafe) as (a1 & HI1).
    simpl in Hnd. inversion Hnd as [|? ? Hty' Hnd']. subst.
    change (mask_loop ((ty, pat) :: pats) st)
      with (mask_loop pats (mask_category st (ty, pat))).
    apply (IH (ty :: done) _ a1 HI1); auto.
    + intros x [<-|Hx]; auto.
    + intros ty2 pat2 Hin. destruct (Hp ty2 pat2 (or_intror Hin)) as (H1 & H2 & H3).
      repeat split; auto. intros [<-|Hd]; [|tauto].
      apply Hty'. apply in_map_iff. exists (ty, pat2). auto.
Qed.

(** The state [mask_text] ends in is described by an annotated text. *)
Lemma inv_mask_text (txt : text) :
  exists a done,
    Inv txt done (mask_loop pii_patterns (mask_start new_masker txt)) a /\
    incl done names.
Proof.
  apply (inv_loop txt pii_patterns [] _ _ (inv_start txt)).
  - intros x [].
  - apply pii_patterns_nodup.
  - intros ty pat Hin. repeat split.
    + apply in_map_iff. exists (ty, pat). auto.
    + intros [].
    + apply (pii_patterns_safe ty pat Hin).
Qed.

(** ** [str.replace] on the masked text *)

Lemma replace_from_skip (old new x R : text) :
  replace_from old new (length x) (x ++ R) = replace_from old new 0 R.
Proof.
  induction x as [|c x IH]; simpl; [reflexivity | exact IH].
Qed.

Lemma replace_from_hit (old new R : text) :
  old <> [] ->
  replace_from old new 0 (old ++ R) = new ++ replace_from old new 0 R.
Proof.
  destruct old as [|c old]; [congruence|]. intros _.
  change ((c :: old) ++ R) with (c :: (old ++ R)).
  cbn [replace_from].
  assert (Hp : prefixb (c :: old) (c :: old ++ R) = true)
    by (apply prefixb_app; exists R; reflexivity).
  rewrite Hp. f_equal. cbn [length]. rewrite Nat.sub_succ, Nat.sub_0_r.
  apply replace_from_skip.
Qed.

Lemma replace_from_pass (old new R : text) :
  forall x,
    (forall y z, x = y ++ z -> z <> [] -> prefixb old (z ++ R) = false) ->
    replace_from old new 0 (x ++ R) = x ++ replace_from old new 0 R.
Proof.
  induction x as [|c x IH]; intros Hx; [reflexivity|].
  change ((c :: x) ++ R) with (c :: (x ++ R)). cbn [replace_from].
  assert (Hm : prefixb old (c :: x ++ R) = false)
    by (apply (Hx [] (c :: x)); [reflexivity | discriminate]).
  rewrite Hm. simpl. f_equal. apply IH. intros y z -> Hz. apply (Hx (c :: y) z); auto.
Qed.

Lemma contains_cons (p R : text) (c : ascii) :
  contains p (c :: R) = prefixb p (c :: R) || contains p R.
Proof.
  reflexivity.
Qed.

Lemma contains_app_r (p x y : text) :
  contains p (x ++ y) = false -> contains p y = false.
Proof.
  induction x as [|c x IH]; [auto|].
  change ((c :: x) ++ y) with (c :: (x ++ y)). rewrite contains_cons.
  intros H. apply orb_false_iff in H. tauto.
Qed.

Lemma contains_prefix (p R : text) : contains p (p ++ R) = true.
Proof.
  assert (Hp : prefixb p (p ++ R) = true) by (apply prefixb_app; exists R; reflexivity).
  destruct (p ++ R); simpl in *; rewrite Hp; reflexivity.
Qed.

(** A placeholder is a pair of brackets around characters that are not
    brackets. *)
Lemma wf_ph_norm (p : text) :
  wf_ph p ->
  exists I, p = "<" :: I ++ [">"] /\ Forall (fun c => inner c = true) I.
Proof.
  intros (U & D & -> & HU & HD). exists (U ++ "_" :: D). split.
  - rewrite <- app_assoc. reflexivity.
  - apply inner_chars; assumption.
Qed.

Lemma inner_not_bracket (I : text) (c : ascii) :
  Forall (fun c => inner c = true) I -> inner c = false -> ~ In c I.
Proof.
  intros HI Hc Hin. rewrite Forall_forall in HI. specialize (HI _ Hin). congruence.
Qed.

(** Two placeholders that start at the same place are the same. *)
Lemma wf_ph_same_start (p q R t : text) :
  wf_ph p -> wf_ph q -> p ++ R = q ++ t -> p = q.
Proof.
  intros Hp Hq E.
  destruct (wf_ph_norm p Hp) as (I & -> & HI).
  destruct (wf_ph_norm q Hq) as (J & -> & HJ).
  simpl in E. inversion E as [E']. clear E.
  rewrite <- !app_assoc in E'. simpl in E'.
  apply app_inj_pivot in E'.
  destruct E' as [[[Hin _]|[_ Hin]]|[E1 _]].
  - exfalso. exact (inner_not_bracket I ">" HI eq_refl Hin).
  - exfalso. exact (inner_not_bracket J ">" HJ eq_refl Hin).
  - rewrite E1. reflexivity.
Qed.

Lemma wf_ph_nonempty (p : text) : wf_ph p -> p <> [].
Proof.
  intros (U & D & -> & _). discriminate.
Qed.

(** Inside a placeholder no opening bracket comes after the first
    character. *)
Lemma wf_ph_bracket (p y z : text) :
  wf_ph p -> p = y ++ "<" :: z -> y = [].
Proof.
  intros Hp E. destruct (wf_ph_norm p Hp) as (I & -> & HI).
  destruct y as [|y0 y]; [reflexivity|]. exfalso.
  simpl in E. inversion E as [[E0 E1]]. clear E.
  assert (Hin : In "<" (I ++ [">"])).
  { rewrite E1. apply in_app_iff. right. left. reflexivity. }
  apply in_app_iff in Hin. destruct Hin as [Hin|[Hin|[]]].
  - exact (inner_not_bracket I "<" HI eq_refl Hin).
  - discriminate.
Qed.

(** ** Unmasking one placeholder *)

(** The annotated text after the placeholder [ph] has been put back. *)
Definition restore (ph : text) (a : list item) : list item :=
  flat_map (fun it => match it with
                      | H p v => if text_eqb p ph then map C v else [it]
                      | C _ => [it]
                      end) a.

Lemma restore_original (ph : text) (a : list item) :
  render_o (restore ph a) = render_o a.
Proof.
  induction a as [|[c|p v] a IH]; simpl; [reflexivity | congruence |].
  destruct (text_eqb p ph); rewrite render_o_app, IH.
  - rewrite render_o_chars. reflexivity.
  - simpl. rewrite app_nil_r. reflexivity.
Qed.

Lemma restore_wf (ph : text) (a : list item) :
  Forall wf_item a -> Forall wf_item (restore ph a).
Proof.
  induction 1 as [|[c|p v] a Hit Ha IH]; simpl; [constructor | constructor; auto |].
  destruct (text_eqb p ph); apply Forall_app; split; auto.
  apply Forall_forall. intros it Hin. apply in_map_iff in Hin.
  destruct Hin as (c & <- & _). exact I.
Qed.

Lemma restore_holes (ph : text) (a : list item) (e : text * text) :
  In e (holes (restore ph a)) -> In e (holes a) /\ fst e <> ph.
Proof.
  induction a as [|[c|p v] a IH]; simpl; [tauto | exact IH |].
  destruct (text_eqb p ph) eqn:E; rewrite holes_app, in_app_iff.
  - rewrite holes_chars. intros [[]|Hin]. apply IH in Hin. tauto.
  - simpl. intros [[<-|[]]|Hin].
    + split; [auto|]. simpl. intros ->. rewrite text_eqb_refl in E. discriminate.
    + apply IH in Hin. tauto.
Qed.

Lemma replace_render (ph v : text) :
  wf_ph ph ->
  forall a,
    Forall wf_item a ->
    (forall v', In (ph, v') (holes a) -> v' = v) ->
    contains ph (render_o a) = false ->
    replace_from ph v 0 (render_m a) = render_m (restore ph a).
Proof.
  intros Hph. induction a as [|[c|p v'] a IH]; intros Hwf Hval Hno.
  - reflexivity.
  - inversion Hwf as [|? ? _ Hwf']. subst.
    change (render_o (C c :: a)) with (c :: render_o a) in Hno.
    rewrite contains_cons in Hno. apply orb_false_iff in Hno. destruct Hno as [Hp Hno].
    change (render_m (C c :: a)) with (c :: render_m a). cbn [replace_from].
    assert (Hmiss : prefixb ph (c :: render_m a) = false).
    { destruct (prefixb ph (c :: render_m a)) eqn:E; [|reflexivity]. exfalso.
      apply prefixb_app in E. destruct E as (t & E).
      destruct (wf_ph_norm ph Hph) as (I & -> & HI).
      simpl in E. inversion E as [[Ec Ea]]. clear E.
      destruct (run (I ++ [">"]) a t Hwf' Ea) as (Y & -> & _).
      - apply Forall_app. split; [|constructor; [discriminate | constructor]].
        eapply Forall_impl; [|exact HI]. intros x Hx ->. discriminate.
      - rewrite render_o_app, render_o_chars in Hp.
        assert (Hp' : prefixb ("<" :: I ++ [">"])
                        (c :: (I ++ [">"]) ++ render_o Y) = true).
        { apply prefixb_app. exists (render_o Y). rewrite Ec. reflexivity. }
        rewrite Hp' in Hp. discriminate. }
    rewrite Hmiss. simpl. f_equal. apply IH; auto.
  - inversion Hwf as [|? ? Hp Hwf']. subst. simpl in Hp.
    change (render_o (H p v' :: a)) with (v' ++ render_o a) in Hno.
    apply contains_app_r in Hno.
    change (render_m (H p v' :: a)) with (p ++ render_m a).
    simpl. destruct (text_eqb p ph) eqn:E.
    + apply text_eqb_eq in E. subst p.
      assert (Ev : v' = v) by (apply Hval; simpl; auto). subst v'.
      rewrite replace_from_hit by (apply wf_ph_nonempty, Hph).
      rewrite render_m_app, render_m_chars. f_equal. apply IH; auto.
      intros v' Hin. apply Hval. simpl. auto.
    + rewrite replace_from_pass.
      * simpl. f_equal. apply IH; auto. intros v'' Hin. apply Hval. simpl. auto.
      * intros y z Ey Hz.
        destruct (prefixb ph (z ++ render_m a)) eqn:Ep; [|reflexivity]. exfalso.
        apply prefixb_app in Ep. destruct Ep as (t & Ep).
        assert (Hz0 : exists z', z = "<" :: z').
        { destruct Hph as (U & D & Eph & _). rewrite Eph in Ep.
          destruct z as [|z0 z']; [congruence|].
          simpl in Ep. inversion Ep. eauto. }
        destruct Hz0 as (z' & ->).
        pose proof (wf_ph_bracket p y z' Hp Ey) as ->. simpl in Ey. subst p.
        assert (Epq : "<" :: z' = ph) by (eapply wf_ph_same_start; eauto).
        rewrite Epq, text_eqb_refl in E. discriminate.
Qed.

Lemma no_holes_same (a : list item) :
  (forall e, ~ In e (holes a)) -> render_m a = render_o a.
Proof.
  induction a as [|[c|p v] a IH]; simpl; intros Hn; [reflexivity | |].
  - f_equal. apply IH. exact Hn.
  - exfalso. apply (Hn (p, v)). left. reflexivity.
Qed.

(** ** Unmasking *)

Lemma unmask_fold (rem : list (text * text)) :
  forall a,
    Forall wf_item a ->
    NoDup (keys rem) ->
    (forall e, In e (holes a) -> In e rem) ->
    (forall k, In k (keys rem) -> wf_ph k /\ contains k (render_o a) = false) ->
    fold_left (fun unmasked entry => replace unmasked (fst entry) (snd entry))
              rem (render_m a) = render_o a.
Proof.
  induction rem as [|[ph v] rem IH]; intros a Hwf Hnd Hh Hk.
  - simpl. apply no_holes_same. intros e He. exact (Hh e He).
  - simpl in Hnd. inversion Hnd as [|? ? Hfresh Hnd']. subst.
    destruct (Hk ph (or_introl eq_refl)) as [Hph Hno].
    cbn [fold_left fst snd].
    assert (Er : replace (render_m a) ph v = render_m (restore ph a)).
    { unfold replace. destruct ph as [|c ph'] eqn:Eph.
      - exfalso. exact (wf_ph_nonempty _ Hph eq_refl).
      - rewrite <- Eph in *. apply replace_render; auto.
        intros v' Hin. apply Hh in Hin. destruct Hin as [Hin|Hin]; [congruence|].
        exfalso. apply Hfresh. apply in_map_iff. exists (ph, v'). auto. }
    rewrite Er, <- (restore_original ph a).
    apply IH.
    + apply restore_wf, Hwf.
    + exact Hnd'.
    + intros e He. apply restore_holes in He. destruct He as [He Hne].
      apply Hh in He. destruct He as [<-|He]; [|exact He]. simpl in Hne. congruence.
    + intros k Hin. rewrite restore_original. apply Hk. right. exact Hin.
Qed.

(** A text without an opening bracket has no substring of placeholder
    form. *)
Lemma no_bracket_no_placeholder (txt : text) :
  forallb (fun c => negb (Ascii.eqb c "<")) txt = true ->
  forall ph, placeholder_form ph -> contains ph txt = false.
Proof.
  intros Hb ph (ty & n & _ & ->). rewrite placeholder_unfold.
  induction txt as [|c txt IH]; [reflexivity|].
  simpl in Hb. apply andb_true_iff in Hb. destruct Hb as [Hc Hb].
  rewrite contains_cons, (IH Hb), orb_false_r. cbn [prefixb].
  apply negb_true_iff in Hc. rewrite Ascii.eqb_sym, Hc. reflexivity.
Qed.

(** C9: for every text that contains no substring of placeholder form
    [<TYPE_n>], masking with a fresh [PIIMasker] and unmasking with the
    same instance gives the text back:
    [unmask_text(mask_text(text)[0]) == text]. *)
Theorem C9_mask_unmask_round_trip (txt : text) :
  (forall ph, placeholder_form ph -> contains ph txt = false) ->
  let r := mask_text new_masker txt in
  unmask_text (fst r) (fst (snd r)) = txt.
Proof.
  intros Hno r.
  destruct (inv_mask_text txt) as (a & done & [Im Io Iw Ih Ind Ik] & Hdone).
  unfold r, mask_text, unmask_text. cbn [fst snd].
  rewrite <- Im. transitivity (render_o a); [|exact Io].
  apply unmask_fold; [exact Iw | exact Ind | exact Ih |].
  intros k Hk. destruct (Ik k Hk) as (ty & n & Hty & ->).
  split.
  - apply placeholder_wf, Hdone, Hty.
  - rewrite Io. apply Hno. exists ty, n. split; [apply Hdone, Hty | reflexivity].
Qed.

Lemma C9_mask_unmask_round_trip_witness :
  let txt := T "My SSN is 123-45-6789, mail john.doe@example.com, acct# 1234567" in
  fst (snd (mask_text new_masker txt)) =
    T "My SSN is <SSN_1>, mail <EMAIL_1>, <ACCOUNT_NUMBER_1>" /\
  unmask_text (fst (mask_text new_masker txt)) (fst (snd (mask_text new_masker txt))) = txt.
Proof.
  split; [vm_compute; reflexivity|].
  apply (C9_mask_unmask_round_trip
           (T "My SSN is 123-45-6789, mail john.doe@example.com, acct# 1234567")).
  apply no_bracket_no_placeholder. vm_compute. reflexivity.
Defined.

End RoundTrip.

(* ================================================================== *)
(** * More about the eligibility engine *)
(* ================================================================== *)

Module LoanExtra.

Import Loan LoanSpec.

Local Open Scope string_scope.
Local Open Scope list_scope.

(** [self.required_fields] *)
Definition required_fields : list string :=
  ["gross_monthly_income"; "total_monthly_debt"; "loan_amount";
   "employment_status"; "credit_score_range"].

(** [field in applicant_data and applicant_data[field] is not None] *)
Definition present (d : applicant_data) (field : string) : bool :=
  if String.eqb field "gross_monthly_income" then negb (is_missing (gross_monthly_income d))
  else if String.eqb field "total_monthly_debt" then negb (is_missing (total_monthly_debt d))
  else if String.eqb field "loan_amount" then negb (is_missing (loan_amount d))
  else if String.eqb field "employment_status" then negb (is_missing (employment_status d))
  else if String.eqb field "credit_score_range" then negb (is_missing (credit_score_range d))
  else false.

Definition three_way (s : option string) : Prop :=
  s = Some "approved" \/ s = Some "conditional" \/ s = Some "rejected".

Lemma check_minimum_status (gi : float) (emp : string) :
  let l := check_minimum gi emp init_locals in
  l_status l = None \/ l_status l = Some "rejected".
Proof.
  unfold check_minimum. simpl.
  destruct (str_eq emp "unemployed"); simpl; auto.
  destruct (gi <? MIN_INCOME)%float; simpl; auto.
Qed.

Lemma before_credit_status (gi dti : float) (emp : string) :
  three_way (l_status (before_credit gi dti emp)).
Proof.
  unfold before_credit, three_way.
  destruct (check_minimum_status gi emp) as [E|E]; unfold evaluate_dti; rewrite E.
  - unfold DTI_APPROVED_MAX, DTI_CONDITIONAL_MAX.
    destruct (dti <=? 36)%float; simpl; auto.
    destruct (dti <=? 43)%float; simpl; auto.
  - rewrite E. auto.
Qed.

Lemma credit_considerations_status (credit : string) (l : locals) :
  three_way (l_status l) -> three_way (l_status (credit_considerations credit l)).
Proof.
  unfold credit_considerations, three_way.
  destruct (_ || _); [|auto].
  destruct (status_is l APPROVED); simpl; auto.
Qed.

Lemma complete_status (gi debt loan : float) (emp credit : string) :
  three_way (status (evaluate_application (complete gi debt loan emp credit))).
Proof.
  unfold evaluate_application, complete. simpl.
  destruct (calculate_dti gi debt) as [e|dti]; simpl.
  - right. right. reflexivity.
  - apply credit_considerations_status, before_credit_status.
Qed.

Lemma complete_or_missing (d : applicant_data) :
  (exists gi debt loan emp credit, d = complete gi debt loan emp credit) \/
  (fst (check_data_completeness d) = false /\
   status (evaluate_application d) = Some "insufficient_data" /\
   missing (evaluate_application d) = Some (snd (check_data_completeness d)) /\
   dti_ratio (evaluate_application d) = None /\
   decision (evaluate_application d) = "Cannot process application").
Proof.
  destruct d as [[gi|] [debt|] [loan|] [emp|] [credit|]];
    try (right; repeat split; reflexivity).
  left. exists gi, debt, loan, emp, credit. reflexivity.
Qed.

(** The result is [insufficient_data] exactly when
    [check_data_completeness] reports a missing field; the missing fields
    are then the required fields that are absent, in the order of
    [required_fields], the list is not empty, and no DTI is computed. *)
Theorem insufficient_data_iff_incomplete (d : applicant_data) :
  let r := evaluate_application d in
  let c := check_data_completeness d in
  snd c = filter (fun f => negb (present d f)) required_fields /\
  (fst c = true <-> snd c = []) /\
  (status r = Some "insufficient_data" <-> fst c = false) /\
  (fst c = false -> missing r = Some (snd c) /\ dti_ratio r = None).
Proof.
  cbn zeta. split; [|split; [|split]].
  - destruct d as [[gi|] [debt|] [loan|] [emp|] [credit|]]; reflexivity.
  - destruct d as [[gi|] [debt|] [loan|] [emp|] [credit|]]; simpl;
      split; intros H; try reflexivity; discriminate.
  - destruct (complete_or_missing d) as [(gi & debt & loan & emp & credit & ->)|(H1 & H2 & _)].
    + split.
      * intros H. destruct (complete_status gi debt loan emp credit) as [E|[E|E]];
          rewrite E in H; discriminate.
      * discriminate.
    + rewrite H1, H2. split; reflexivity.
  - intros H. destruct (complete_or_missing d) as [(gi & debt & loan & emp & credit & ->)|(_ & _ & H3 & H4 & _)].
    + discriminate.
    + auto.
Qed.

(** The [status] entry is never [None]: it is always one of the four
    values of [ApprovalStatus]. *)
Theorem status_is_always_set (d : applicant_data) :
  exists s : ApprovalStatus,
    status (evaluate_application d) = Some (ApprovalStatus_value s).
Proof.
  destruct (complete_or_missing d) as [(gi & debt & loan & emp & credit & ->)|(_ & H & _)].
  - destruct (complete_status gi debt loan emp credit) as [E|[E|E]]; rewrite E.
    + exists APPROVED. reflexivity.
    + exists CONDITIONAL. reflexivity.
    + exists REJECTED. reflexivity.
  - exists INSUFFICIENT_DATA. exact H.
Qed.

Lemma str_eq_neq (a b : string) : str_eq a b = false -> a <> b.
Proof.
  unfold str_eq. apply String.eqb_neq.
Qed.

Lemma str_eq_true (a b : string) : str_eq a b = true -> a = b.
Proof.
  unfold str_eq. apply String.eqb_eq.
Qed.

Lemma credit_low_not_approved (credit : string) (l : locals) :
  str_eq credit "poor" || str_eq credit "very_poor" = true ->
  l_status (credit_considerations credit l) <> Some "approved".
Proof.
  intros Hc. unfold credit_considerations. cbn [CreditScoreRange_value].
  rewrite Hc. destruct (status_is l APPROVED) eqn:E; cbn [l_status ApprovalStatus_value].
  - discriminate.
  - intros H. unfold status_is in E. rewrite H in E. discriminate E.
Qed.

Lemma credit_not_low (credit : string) (l : locals) :
  str_eq credit "poor" || str_eq credit "very_poor" = false ->
  credit_considerations credit l = l.
Proof.
  intros Hc. unfold credit_considerations. cbn [CreditScoreRange_value].
  rewrite Hc. reflexivity.
Qed.

Lemma before_credit_rejected (gi dti : float) (emp : string) :
  (gi <? MIN_INCOME)%float = true \/ emp = "unemployed" ->
  before_credit gi dti emp = check_minimum gi emp init_locals.
Proof.
  intros H. destruct (@check_minimum_rejects gi emp H) as [Hs _].
  unfold before_credit. apply (@evaluate_dti_skip dti _ _ Hs).
Qed.

Lemma approved_locals (gi dti : float) (emp credit : string) :
  l_status (credit_considerations credit (before_credit gi dti emp)) = Some "approved" ->
  (gi <? MIN_INCOME)%float = false /\
  emp <> "unemployed" /\
  credit <> "poor" /\ credit <> "very_poor" /\
  (dti <=? DTI_APPROVED_MAX)%float = true /\
  l_decision (credit_considerations credit (before_credit gi dti emp)) =
    "Application Approved".
Proof.
  intros Hs.
  destruct (str_eq credit "poor" || str_eq credit "very_poor") eqn:Ec.
  { exfalso. exact (credit_low_not_approved credit _ Ec Hs). }
  rewrite (credit_not_low credit _ Ec) in *.
  apply orb_false_elim in Ec. destruct Ec as [Ep Ev].
  assert (Hgi : (gi <? MIN_INCOME)%float = false).
  { destruct (gi <? MIN_INCOME)%float eqn:E1; [exfalso|reflexivity].
    rewrite (before_credit_rejected gi dti emp (or_introl E1)) in Hs.
    destruct (@check_minimum_rejects gi emp (or_introl E1)) as [Hr _].
    cbn zeta in Hr. rewrite Hr in Hs. discriminate Hs. }
  assert (Hemp : emp <> "unemployed").
  { intros ->.
    rewrite (before_credit_rejected gi dti "unemployed" (or_intror eq_refl)) in Hs.
    destruct (@check_minimum_rejects gi "unemployed" (or_intror eq_refl)) as [Hr _].
    cbn zeta in Hr. rewrite Hr in Hs. discriminate Hs. }
  repeat split; auto using str_eq_neq.
  - revert Hs. unfold before_credit. rewrite (@check_minimum_pass gi emp Hgi Hemp).
    unfold evaluate_dti. cbn [l_status init_locals].
    destruct (dti <=? DTI_APPROVED_MAX)%float; [reflexivity|].
    destruct (dti <=? DTI_CONDITIONAL_MAX)%float;
      cbn [l_status ApprovalStatus_value]; discriminate.
  - revert Hs. unfold before_credit. rewrite (@check_minimum_pass gi emp Hgi Hemp).
    unfold evaluate_dti. cbn [l_status init_locals].
    destruct (dti <=? DTI_APPROVED_MAX)%float; [reflexivity|].
    destruct (dti <=? DTI_CONDITIONAL_MAX)%float;
      cbn [l_status ApprovalStatus_value]; discriminate.
Qed.

(** [approved] is only returned when every rule passes: the record is
    complete, the income is accepted by [calculate_dti] and is not below
    [MIN_INCOME], the applicant is not unemployed, the credit range is
    neither [poor] nor [very_poor], and the DTI ratio is at most 36.0; the
    decision text is then "Application Approved". *)
Theorem approved_only_when_all_rules_pass (d : applicant_data) :
  status (evaluate_application d) = Some "approved" ->
  exists gi debt loan emp credit,
    d = complete gi debt loan emp credit /\
    (gi <=? 0)%float = false /\
    (gi <? MIN_INCOME)%float = false /\
    emp <> "unemployed" /\
    credit <> "poor" /\ credit <> "very_poor" /\
    (dti_of gi debt <=? DTI_APPROVED_MAX)%float = true /\
    decision (evaluate_application d) = "Application Approved".
Proof.
  destruct (complete_or_missing d) as [(gi & debt & loan & emp & credit & ->)|(_ & H & _)];
    [|rewrite H; discriminate].
  intros Hs. exists gi, debt, loan, emp, credit. split; [reflexivity|].
  destruct (gi <=? 0)%float eqn:E0.
  { exfalso. revert Hs. unfold evaluate_application, complete, calculate_dti.
    cbn [gross_monthly_income total_monthly_debt loan_amount employment_status
         credit_score_range].
    rewrite E0. cbn [status ApprovalStatus_value]. discriminate. }
  destruct (@evaluate_complete gi debt loan emp credit E0) as (Hst & Hdec & _).
  cbn zeta in Hst, Hdec. rewrite Hst in Hs. rewrite Hdec. clear Hst Hdec.
  destruct (approved_locals gi (dti_of gi debt) emp credit Hs)
    as (H1 & H2 & H3 & H4 & H5 & H6).
  repeat split; assumption.
Qed.

Lemma approved_only_when_all_rules_pass_witness :
  let d := complete 20000 3000 100000 "full_time" "good" in
  status (evaluate_application d) = Some "approved" /\
  exists gi debt loan emp credit,
    d = complete gi debt loan emp credit /\
    (gi <=? 0)%float = false /\
    (gi <? MIN_INCOME)%float = false /\
    emp <> "unemployed" /\
    credit <> "poor" /\ credit <> "very_poor" /\
    (dti_of gi debt <=? DTI_APPROVED_MAX)%float = true /\
    decision (evaluate_application d) = "Application Approved".
Proof.
  split; [reflexivity|].
  apply (approved_only_when_all_rules_pass (complete 20000 3000 100000 "full_time" "good")).
  reflexivity.
Defined.

Lemma app_not_nil {A} (l : list A) (x : A) : l ++ [x] <> [].
Proof.
  destruct l; discriminate.
Qed.

Lemma check_minimum_fields (gi : float) (emp : string) :
  let l := check_minimum gi emp init_locals in
  l_recommendations l = [] /\
  l_reasons l =
    (if (gi <? MIN_INCOME)%float
     then [[Txt "Monthly income (₹"; Money gi;
            Txt ") is below minimum requirement (₹"; Money MIN_INCOME; Txt ")"]]
     else []) ++
    (if str_eq emp "unemployed"
     then [[Txt "Applicant must have employment or income source"]] else []).
Proof.
  unfold check_minimum. cbn [EmploymentStatus_value].
  destruct (gi <? MIN_INCOME)%float; destruct (str_eq emp "unemployed");
    split; reflexivity.
Qed.

Lemma evaluate_dti_reasons (dti : float) (l : locals) :
  l_reasons l <> [] \/ l_status l = None -> l_reasons (evaluate_dti dti l) <> [].
Proof.
  intros H. unfold evaluate_dti. destruct (l_status l) as [v|].
  - destruct H as [H|H]; [exact H | discriminate H].
  - destruct (dti <=? DTI_APPROVED_MAX)%float;
      [|destruct (dti <=? DTI_CONDITIONAL_MAX)%float];
      cbn [l_reasons]; apply app_not_nil.
Qed.

Lemma before_credit_reasons (gi dti : float) (emp : string) :
  l_reasons (before_credit gi dti emp) <> [].
Proof.
  unfold before_credit. apply evaluate_dti_reasons.
  destruct (check_minimum_fields gi emp) as [_ Hr]. cbn zeta in Hr.
  destruct (gi <? MIN_INCOME)%float eqn:E1.
  - left. rewrite Hr. discriminate.
  - destruct (str_eq emp "unemployed") eqn:E2.
    + left. rewrite Hr. discriminate.
    + right. rewrite (@check_minimum_pass gi emp E1 (str_eq_neq _ _ E2)). reflexivity.
Qed.

Lemma credit_considerations_reasons (credit : string) (l : locals) :
  l_reasons l <> [] -> l_reasons (credit_considerations credit l) <> [].
Proof.
  intros H. unfold credit_considerations.
  destruct (_ || _); [|exact H].
  cbn [l_reasons]. apply app_not_nil.
Qed.

(** Every decision on a complete record with an accepted income carries
    at least one reason, so the fallback text "Based on financial profile
    assessment" is never returned. *)
Theorem reasons_never_empty (gi debt loan : float) (emp credit : string) :
  (gi <=? 0)%float = false ->
  let l := credit_considerations credit (before_credit gi (dti_of gi debt) emp) in
  let r := evaluate_application (complete gi debt loan emp credit) in
  l_reasons l <> [] /\ reason r = join [Txt " | "] (l_reasons l).
Proof.
  intros H0 l r.
  assert (Hne : l_reasons l <> []).
  { apply credit_considerations_reasons, before_credit_reasons. }
  split; [exact Hne|].
  destruct (@evaluate_complete gi debt loan emp credit H0) as (_ & _ & _ & _ & Hr).
  fold l in Hr. fold r in Hr. rewrite Hr.
  destruct (l_reasons l); [congruence | reflexivity].
Qed.

Lemma reasons_never_empty_witness :
  (20000 <=? 0)%float = false /\
  let l := credit_considerations "good" (before_credit 20000 (dti_of 20000 3000) "full_time") in
  let r := evaluate_application (complete 20000 3000 100000 "full_time" "good") in
  l_reasons l <> [] /\ reason r = join [Txt " | "] (l_reasons l).
Proof.
  split; [reflexivity|].
  apply (reasons_never_empty 20000 3000 100000 "full_time" "good"). reflexivity.
Defined.

(** A record rejected by a hard disqualifier gets no next step from the
    DTI rules: the recommendation list is empty, or holds only the credit
    recommendation when the credit range is [poor] or [very_poor]; and
    the reasons are the disqualifiers that fired, income first. *)
Theorem disqualified_recommendations (gi debt loan : float) (emp credit : string) :
  (gi <=? 0)%float = false ->
  (gi <? MIN_INCOME)%float = true \/ emp = "unemployed" ->
  let r := evaluate_application (complete gi debt loan emp credit) in
  let low := str_eq credit "poor" || str_eq credit "very_poor" in
  recommendations r = (if low then [credit_recommendation] else []) /\
  reason r = join [Txt " | "]
    ((if (gi <? MIN_INCOME)%float
      then [[Txt "Monthly income (₹"; Money gi;
             Txt ") is below minimum requirement (₹"; Money MIN_INCOME; Txt ")"]]
      else []) ++
     (if str_eq emp "unemployed"
      then [[Txt "Applicant must have employment or income source"]] else []) ++
     (if low then [credit_reason] else [])).
Proof.
  intros H0 Hdis r low.
  destruct (@evaluate_complete gi debt loan emp credit H0) as (_ & _ & _ & Hrec & Hr).
  fold r in Hrec, Hr. rewrite Hrec, Hr. clear Hrec Hr.
  assert (Hu : (gi <? MIN_INCOME)%float = true \/ str_eq emp "unemployed" = true).
  { destruct Hdis as [H| ->]; [left; exact H | right; reflexivity]. }
  rewrite (before_credit_rejected gi (dti_of gi debt) emp Hdis).
  destruct (check_minimum_fields gi emp) as [Hrec Hrs]. cbn zeta in Hrec, Hrs.
  assert (Hl : l_recommendations (credit_considerations credit
                 (check_minimum gi emp init_locals)) =
               (if low then [credit_recommendation] else []) /\
               l_reasons (credit_considerations credit
                 (check_minimum gi emp init_locals)) =
               l_reasons (check_minimum gi emp init_locals) ++
               (if low then [credit_reason] else [])).
  { unfold low. destruct (str_eq credit "poor" || str_eq credit "very_poor") eqn:Ec.
    - assert (Hc : credit = "poor" \/ credit = "very_poor").
      { apply orb_true_iff in Ec. destruct Ec as [E|E]; apply str_eq_true in E; auto. }
      destruct (@credit_considerations_poor credit (check_minimum gi emp init_locals) Hc)
        as (_ & Hr1 & Hr2).
      cbn zeta in Hr1, Hr2. rewrite Hr1, Hr2, Hrec. split; reflexivity.
    - rewrite (credit_not_low credit _ Ec), Hrec, app_nil_r. split; reflexivity. }
  destruct Hl as [Hl1 Hl2]. rewrite Hl1, Hl2, Hrs, <- app_assoc.
  split; [reflexivity|].
  destruct (gi <? MIN_INCOME)%float; [reflexivity|].
  destruct (str_eq emp "unemployed"); [reflexivity|].
  destruct Hu; discriminate.
Qed.

Lemma disqualified_recommendations_witness :
  ((6000 <=? 0)%float = false /\ (6000 <? MIN_INCOME)%float = true) /\
  recommendations (evaluate_application (complete 6000 1800 200000 "full_time" "good")) = [].
Proof.
  split; [split; reflexivity|].
  apply (disqualified_recommendations 6000 1800 200000 "full_time" "good" eq_refl
           (or_introl eq_refl)).
Defined.

End LoanExtra.

(* ================================================================== *)
(** * More about the PII redactor *)
(* ================================================================== *)

Module PiiExtra.

Import Re Pii ReFacts PiiSpec RoundTrip.

Local Open Scope string_scope.
Local Open Scope list_scope.

(** Two states of the masking loop that differ at most in the stored
    mapping and in the layout of the counter dictionary. *)
Definition same_progress (st1 st2 : mask_state) : Prop :=
  masked_text st1 = masked_text st2 /\
  detected st1 = detected st2 /\
  count_masked st1 = count_masked st2 /\
  forall ty, counter_get (pii_counters (self st1)) ty =
             counter_get (pii_counters (self st2)) ty.

Lemma same_progress_category (st1 st2 : mask_state) (ty : string) (pat : regex) :
  same_progress st1 st2 ->
  same_progress (mask_category st1 (ty, pat)) (mask_category st2 (ty, pat)).
Proof.
  intros (Ht & Hd & Hc & Hk).
  destruct (mask_category_spec st1 ty pat) as (A1 & A2 & A3 & _ & A5 & A6).
  destruct (mask_category_spec st2 ty pat) as (B1 & B2 & B3 & _ & B5 & B6).
  repeat split.
  - rewrite A1, B1, Ht, Hk. reflexivity.
  - rewrite A5, B5, Ht, Hd. reflexivity.
  - rewrite A6, B6, Ht, Hc. reflexivity.
  - intros ty'. destruct (String.eqb_spec ty' ty) as [->|Hne].
    + rewrite A2, B2, Ht, Hk. reflexivity.
    + rewrite A3, B3 by exact Hne. apply Hk.
Qed.

Lemma same_progress_loop (pats : list (string * regex)) :
  forall st1 st2,
    same_progress st1 st2 -> same_progress (mask_loop pats st1) (mask_loop pats st2).
Proof.
  induction pats as [|[ty pat] pats IH]; intros st1 st2 H; [exact H|].
  apply (IH (mask_category st1 (ty, pat)) (mask_category st2 (ty, pat))).
  apply same_progress_category, H.
Qed.

(** What [mask_text] returns does not depend on what the instance has
    masked before: the masked text and the metadata are those a fresh
    [PIIMasker] gives (the counters are reset at every call). *)
Theorem mask_text_ignores_history (slf : masker) (txt : text) :
  snd (mask_text slf txt) = mask_sensitive_data txt.
Proof.
  unfold mask_sensitive_data, mask_text. cbn [snd].
  destruct (same_progress_loop pii_patterns (mask_start slf txt) (mask_start new_masker txt))
    as (Ht & Hd & Hc & _).
  - repeat split.
  - rewrite Ht, Hd, Hc. reflexivity.
Qed.

(** ** Nothing detected *)

Lemma detected_grows (pats : list (string * regex)) :
  forall st,
    length (detected st) <= length (detected (mask_loop pats st)) /\
    count_masked st <= count_masked (mask_loop pats st) /\
    (length (detected (mask_loop pats st)) = length (detected st) \/
     count_masked (mask_loop pats st) = count_masked st ->
     mask_loop pats st = st).
Proof.
  induction pats as [|[ty pat] pats IH]; intros st.
  - simpl. auto.
  - change (mask_loop ((ty, pat) :: pats) st)
      with (mask_loop pats (mask_category st (ty, pat))).
    destruct (IH (mask_category st (ty, pat))) as (I1 & I2 & I3).
    destruct (mask_category_spec st ty pat) as (_ & _ & _ & _ & S5 & S6).
    assert (Hstep : finditer true pat (masked_text st) = [] ->
                    mask_category st (ty, pat) = st).
    { intros E. unfold mask_category. rewrite E. reflexivity. }
    destruct (finditer true pat (masked_text st)) as [|m ms].
    + rewrite (Hstep eq_refl) in *. auto.
    + rewrite S5 in I1. rewrite S6 in I2. rewrite length_app in I1.
      cbn [length] in I1, I2.
      split; [lia|]. split; [lia|]. intros [H|H]; lia.
Qed.

(** The call reports no category exactly when it replaces nothing; the
    text then comes back unchanged and the instance keeps its mapping. *)
Theorem nothing_detected_nothing_changed (slf : masker) (txt : text) :
  let r := mask_text slf txt in
  (pii_detected (snd (snd r)) = [] <-> mask_count (snd (snd r)) = 0) /\
  (pii_detected (snd (snd r)) = [] ->
     fst (snd r) = txt /\ masked_mapping (fst r) = masked_mapping slf /\
     masked_length (snd (snd r)) = original_length (snd (snd r))).
Proof.
  cbn zeta. unfold mask_text. cbn [fst snd pii_detected mask_count masked_length
                                     original_length].
  destruct (detected_grows pii_patterns (mask_start slf txt)) as (H1 & H2 & H3).
  set (st := mask_loop pii_patterns (mask_start slf txt)) in *.
  assert (Hd : detected st = [] -> st = mask_start slf txt).
  { intros E. apply H3. left. rewrite E. reflexivity. }
  assert (Hc : count_masked st = 0 -> st = mask_start slf txt).
  { intros E. apply H3. right. rewrite E. reflexivity. }
  split; [split|].
  - intros E. rewrite (Hd E). reflexivity.
  - intros E. rewrite (Hc E). reflexivity.
  - intros E. rewrite (Hd E). simpl. auto.
Qed.

(** ** The order of the reported categories *)

(** [l1] is [l2] with some elements left out. *)
Inductive subseq {A : Type} : list A -> list A -> Prop :=
| sub_nil : subseq [] []
| sub_skip x l1 l2 : subseq l1 l2 -> subseq l1 (x :: l2)
| sub_take x l1 l2 : subseq l1 l2 -> subseq (x :: l1) (x :: l2).

Lemma subseq_nil_l {A} (l : list A) : subseq [] l.
Proof.
  induction l; constructor; assumption.
Qed.

Lemma subseq_in {A} (l1 l2 : list A) (x : A) : subseq l1 l2 -> In x l1 -> In x l2.
Proof.
  induction 1; simpl; intuition.
Qed.

Lemma subseq_nodup {A} (l1 l2 : list A) : subseq l1 l2 -> NoDup l2 -> NoDup l1.
Proof.
  induction 1 as [|x l1 l2 Hs IH|x l1 l2 Hs IH]; intros Hnd.
  - constructor.
  - inversion Hnd. auto.
  - inversion Hnd as [|? ? Hx Hnd']. subst. constructor; auto.
    intros Hin. apply Hx. eapply subseq_in; eassumption.
Qed.

Lemma detected_subseq (pats : list (string * regex)) :
  forall st, exists found,
    detected (mask_loop pats st) = detected st ++ found /\
    subseq found (map fst pats).
Proof.
  induction pats as [|[ty pat] pats IH]; intros st.
  - exists []. simpl. rewrite app_nil_r. split; [reflexivity | constructor].
  - change (mask_loop ((ty, pat) :: pats) st)
      with (mask_loop pats (mask_category st (ty, pat))).
    destruct (IH (mask_category st (ty, pat))) as (found & Hd & Hsub).
    destruct (mask_category_spec st ty pat) as (_ & _ & _ & _ & S5 & _).
    rewrite Hd, S5, <- app_assoc.
    destruct (finditer true pat (masked_text st)).
    + exists found. split; [reflexivity|]. simpl. apply sub_skip. exact Hsub.
    + exists (ty :: found). split; [reflexivity|]. simpl. apply sub_take. exact Hsub.
Qed.

(** [pii_detected] lists each category at most once, and in the order
    in which [pii_patterns] lists the categories. *)
Theorem detected_in_table_order (slf : masker) (txt : text) :
  let found := pii_detected (snd (snd (mask_text slf txt))) in
  subseq found ["ssn"; "credit_card"; "phone"; "email"; "account_number";
                "routing_number"; "address"] /\
  NoDup found.
Proof.
  cbn zeta. unfold mask_text. cbn [snd pii_detected].
  destruct (detected_subseq pii_patterns (mask_start slf txt)) as (found & Hd & Hsub).
  rewrite Hd. cbn [mask_start detected app].
  split; [exact Hsub|].
  apply (subseq_nodup _ _ Hsub). apply pii_patterns_nodup.
Qed.

(** ** The mapping of a fresh instance *)

Lemma category_appends (txt : text) (done : list string) (st : mask_state)
    (a : list item) (ty : string) (pat : regex) :
  Inv txt done st a ->
  incl done names -> In ty names -> ~ In ty done ->
  let ms := finditer true pat (masked_text st) in
  let c0 := counter_get (pii_counters (self st)) ty in
  masked_mapping (self (mask_category st (ty, pat))) =
    masked_mapping (self st) ++ entries ty (masked_text st) (numbered c0 ms).
Proof.
  intros [Im Io Iw Ih Ind Ik] Hdone Hty Hnew ms c0.
  destruct (mask_category_spec st ty pat) as (_ & _ & _ & S4 & _).
  fold ms in S4. fold c0 in S4. rewrite S4.
  assert (Hk : keys (entries ty (masked_text st) (numbered c0 ms)) =
               rev (map (placeholder ty) (countdown c0 (length ms)))).
  { rewrite entries_keys, numbered_snd. reflexivity. }
  apply dict_update_fresh.
  - rewrite Hk. apply NoDup_rev, placeholder_nodup; [exact Hty|].
    apply NoDup_rev, seq_NoDup.
  - intros k Hin Hold. rewrite Hk in Hin. apply in_rev, in_map_iff in Hin.
    destruct Hin as (i & <- & _).
    destruct (Ik _ Hold) as (ty' & n' & Hd & E).
    apply placeholder_inj in E; auto. destruct E as [-> _]. tauto.
Qed.

Lemma entries_length (ty : string) (s : text) (nms : list (match_obj * nat)) :
  length (entries ty s nms) = length nms.
Proof.
  unfold entries. rewrite length_rev, length_map. reflexivity.
Qed.

Lemma numbered_length (c0 : nat) (ms : list match_obj) :
  length (numbered c0 ms) = length ms.
Proof.
  rewrite <- (numbered_fst c0 ms) at 2. rewrite length_map. reflexivity.
Qed.

Lemma fresh_loop (txt : text) (pats : list (string * regex)) :
  forall done st a,
    Inv txt done st a ->
    length (masked_mapping (self st)) = count_masked st ->
    incl done names ->
    NoDup (map fst pats) ->
    (forall ty pat, In (ty, pat) pats ->
       In ty names /\ ~ In ty done /\ safe_pattern pat = true) ->
    length (masked_mapping (self (mask_loop pats st))) = count_masked (mask_loop pats st) /\
    NoDup (map fst (masked_mapping (self (mask_loop pats st)))) /\
    (forall k, In k (map fst (masked_mapping (self (mask_loop pats st)))) ->
               placeholder_form k).
Proof.
  induction pats as [|[ty pat] pats IH]; intros done st a HI Hlen Hdone Hnd Hp.
  - cbn [mask_loop fold_left]. split; [exact Hlen|].
    split; [exact (inv_nodup _ _ _ _ HI)|].
    intros k Hk. destruct (inv_keys _ _ _ _ HI k Hk) as (ty & n & Hty & ->).
    exists ty, n. auto.
  - destruct (Hp ty pat (or_introl eq_refl)) as (Hty & Hnew & Hsafe).
    destruct (inv_category _ _ _ _ ty pat HI Hdone Hty Hnew Hsafe) as (a1 & HI1).
    pose proof (category_appends _ _ _ _ ty pat HI Hdone Hty Hnew) as Happ.
    cbn zeta in Happ.
    destruct (mask_category_spec st ty pat) as (_ & _ & _ & _ & _ & S6).
    simpl in Hnd. inversion Hnd as [|? ? Hty' Hnd']. subst.
    change (mask_loop ((ty, pat) :: pats) st)
      with (mask_loop pats (mask_category st (ty, pat))).
    apply (IH (ty :: done) _ a1 HI1); auto.
    + rewrite Happ, S6, length_app, entries_length, numbered_length, Hlen. reflexivity.
    + intros x [<-|Hx]; auto.
    + intros ty2 pat2 Hin. destruct (Hp ty2 pat2 (or_intror Hin)) as (H1 & H2 & H3).
      repeat split; auto. intros [<-|Hd]; [|tauto].
      apply Hty'. apply in_map_iff. exists (ty, pat2). auto.
Qed.

Lemma mask_text_self (slf : masker) (txt : text) :
  fst (mask_text slf txt) = self (mask_loop pii_patterns (mask_start slf txt)).
Proof.
  reflexivity.
Qed.

Lemma mask_text_count (slf : masker) (txt : text) :
  mask_count (snd (snd (mask_text slf txt))) =
  count_masked (mask_loop pii_patterns (mask_start slf txt)).
Proof.
  reflexivity.
Qed.

(** After [mask_text] on a fresh [PIIMasker] the mapping records every
    substitution: it has exactly [mask_count] entries, its keys are
    pairwise distinct, and each key is a placeholder [<TYPE_n>] of a
    category of the table. *)
Theorem fresh_mapping_records_every_substitution (txt : text) :
  let r := mask_text new_masker txt in
  length (masked_mapping (fst r)) = mask_count (snd (snd r)) /\
  NoDup (map fst (masked_mapping (fst r))) /\
  (forall k, In k (map fst (masked_mapping (fst r))) -> placeholder_form k).
Proof.
  cbn zeta. rewrite mask_text_self, mask_text_count.
  apply (fresh_loop txt pii_patterns [] (mask_start new_masker txt) (map C txt)
           (inv_start txt)).
  - reflexivity.
  - intros x [].
  - apply pii_patterns_nodup.
  - intros ty pat Hin. repeat split.
    + apply in_map_iff. exists (ty, pat). auto.
    + intros [].
    + apply (pii_patterns_safe ty pat Hin).
Qed.

(** ** Text without digits and without [@] *)

(** The characters one of which every PII match contains. *)
Definition telltale (c : ascii) : bool := is_digit c || Ascii.eqb c "@".

Lemma finditer_none (ic : bool) (P : ascii -> bool) (r : regex) (s : text) :
  mandatory ic P r = true ->
  forallb (fun c => negb (P c)) s = true ->
  finditer ic r s = [].
Proof.
  intros Hm Hs.
  destruct (finditer_sound ic r s) as [_ Hall].
  destruct (finditer ic r s) as [|m ms]; [reflexivity|]. exfalso.
  inversion Hall as [|? ? (pre & w & post & E & _ & _ & M) _]. subst.
  apply (Matches_mandatory P M) in Hm. apply Exists_exists in Hm.
  destruct Hm as (c & Hin & Hc).
  rewrite forallb_forall in Hs.
  assert (Hn : negb (P c) = true).
  { apply Hs. apply in_app_iff. right. apply in_app_iff. left. exact Hin. }
  rewrite Hc in Hn. discriminate.
Qed.

Lemma plain_loop (P : ascii -> bool) (pats : list (string * regex)) :
  forallb (fun e => mandatory true P (snd e)) pats = true ->
  forall st,
    forallb (fun c => negb (P c)) (masked_text st) = true ->
    mask_loop pats st = st.
Proof.
  induction pats as [|[ty pat] pats IH]; intros Hm st Hs; [reflexivity|].
  cbn [forallb snd] in Hm. apply andb_true_iff in Hm. destruct Hm as [Hpat Hm].
  change (mask_loop ((ty, pat) :: pats) st)
    with (mask_loop pats (mask_category st (ty, pat))).
  assert (E : mask_category st (ty, pat) = st).
  { unfold mask_category. rewrite (finditer_none true P pat _ Hpat Hs). reflexivity. }
  rewrite E. apply IH; assumption.
Qed.

Lemma mask_text_masked (slf : masker) (txt : text) :
  fst (snd (mask_text slf txt)) = masked_text (mask_loop pii_patterns (mask_start slf txt)).
Proof.
  reflexivity.
Qed.

Lemma mask_text_detected (slf : masker) (txt : text) :
  pii_detected (snd (snd (mask_text slf txt))) =
  detected (mask_loop pii_patterns (mask_start slf txt)).
Proof.
  reflexivity.
Qed.

(** An ASCII text with no digit and no [@] holds nothing that any of the
    seven patterns matches: [mask_text] returns it unchanged, reports no
    category, and leaves the stored mapping as it was.  (In a text with
    other characters, [\d] also matches the decimal digits of other
    scripts.) *)
Theorem plain_text_passes_through (slf : masker) (txt : text) :
  ascii_text txt = true ->
  forallb (fun c => negb (is_digit c || Ascii.eqb c "@")) txt = true ->
  let r := mask_text slf txt in
  fst (snd r) = txt /\
  pii_detected (snd (snd r)) = [] /\
  mask_count (snd (snd r)) = 0 /\
  masked_mapping (fst r) = masked_mapping slf.
Proof.
  intros _ Hplain. cbn zeta.
  rewrite mask_text_masked, mask_text_detected, mask_text_count, mask_text_self.
  rewrite (plain_loop telltale pii_patterns) by (reflexivity || exact Hplain).
  repeat split.
Qed.

Lemma plain_text_passes_through_witness :
  let txt := T "I would like to borrow some money, please" in
  (ascii_text txt = true /\
   forallb (fun c => negb (is_digit c || Ascii.eqb c "@")) txt = true) /\
  fst (snd (mask_text new_masker txt)) = txt.
Proof.
  split; [split; reflexivity|].
  apply (plain_text_passes_through new_masker
           (T "I would like to borrow some money, please")).
  - reflexivity.
  - reflexivity.
Defined.

(** ** Instances that have been used *)

(** [self.clear_mapping()] *)
Definition clear_mapping (slf : masker) : masker :=
  {| pii_counters := []; masked_mapping := [] |}.

(** The instances a program can hold: a new one, and what [mask_text]
    and [clear_mapping] make of one. *)
Inductive used : masker -> Prop :=
| used_new : used new_masker
| used_mask slf txt : used slf -> used (fst (mask_text slf txt))
| used_clear slf : used slf -> used (clear_mapping slf).

Lemma keys_dict_set (d : list (text * text)) (k0 v k : text) :
  In k (keys (dict_set text_eqb d k0 v)) -> k = k0 \/ In k (keys d).
Proof.
  induction d as [|[k' v'] d IH]; simpl.
  - intros [<-|[]]. auto.
  - destruct (text_eqb k' k0); simpl.
    + intros [<-|H]; auto.
    + intros [<-|H]; auto. apply IH in H. tauto.
Qed.

Lemma keys_dict_update (es d : list (text * text)) (k : text) :
  In k (keys (dict_update d es)) -> In k (keys es) \/ In k (keys d).
Proof.
  unfold dict_update. revert d.
  induction es as [|[k0 v] es IH]; intros d; simpl; [auto|].
  intros H. apply IH in H. destruct H as [H|H]; [auto|].
  apply keys_dict_set in H. destruct H as [->|H]; auto.
Qed.

Lemma category_keys (st : mask_state) (ty : string) (pat : regex) :
  In ty names ->
  (forall k, In k (keys (masked_mapping (self st))) -> placeholder_form k) ->
  forall k, In k (keys (masked_mapping (self (mask_category st (ty, pat))))) ->
            placeholder_form k.
Proof.
  intros Hty Hold k.
  destruct (mask_category_spec st ty pat) as (_ & _ & _ & S4 & _). rewrite S4.
  intros H. apply keys_dict_update in H. destruct H as [H|H]; [|exact (Hold k H)].
  rewrite entries_keys in H. apply in_rev, in_map_iff in H.
  destruct H as (n & <- & _). exists ty, n. auto.
Qed.

Lemma loop_keys (pats : list (string * regex)) :
  incl (map fst pats) names ->
  forall st,
    (forall k, In k (keys (masked_mapping (self st))) -> placeholder_form k) ->
    forall k, In k (keys (masked_mapping (self (mask_loop pats st)))) ->
              placeholder_form k.
Proof.
  induction pats as [|[ty pat] pats IH]; intros Hin st Hold; [exact Hold|].
  change (mask_loop ((ty, pat) :: pats) st)
    with (mask_loop pats (mask_category st (ty, pat))).
  apply IH.
  - intros x Hx. apply Hin. right. exact Hx.
  - apply category_keys; [apply Hin; left; reflexivity | exact Hold].
Qed.

Lemma used_keys (slf : masker) :
  used slf -> forall k, In k (keys (masked_mapping slf)) -> placeholder_form k.
Proof.
  induction 1 as [|slf txt Hu IH|slf Hu IH].
  - intros k [].
  - rewrite mask_text_self. apply loop_keys; [apply incl_refl | exact IH].
  - intros k [].
Qed.

Lemma replace_absent (s old new : text) :
  old <> [] -> contains old s = false -> replace s old new = s.
Proof.
  intros Hne Hno. unfold replace. destruct old as [|c old]; [congruence|].
  rewrite <- (app_nil_r s) at 1. rewrite replace_from_pass.
  - simpl. apply app_nil_r.
  - intros y z E Hz. rewrite app_nil_r. subst s. apply contains_app_r in Hno.
    destruct z as [|z0 z]; [congruence|].
    rewrite contains_cons in Hno. apply orb_false_iff in Hno. tauto.
Qed.

(** Whatever an instance has masked before, every key of its mapping is
    a placeholder [<TYPE_n>] of a category of the table; so
    [unmask_text] returns a text that contains no [<] unchanged. *)
Theorem unmask_leaves_plain_text (slf : masker) (txt : text) :
  used slf ->
  forallb (fun c => negb (Ascii.eqb c "<")) txt = true ->
  (forall k, In k (map fst (masked_mapping slf)) -> placeholder_form k) /\
  unmask_text slf txt = txt.
Proof.
  intros Hu Hb. pose proof (used_keys slf Hu) as Hk. split; [exact Hk|].
  unfold unmask_text. revert Hk. generalize (masked_mapping slf) as d.
  induction d as [|[k v] d IH]; intros Hk; [reflexivity|].
  cbn [fold_left fst snd].
  assert (Hform : placeholder_form k) by (apply Hk; left; reflexivity).
  rewrite replace_absent.
  - apply IH. intros k' Hin. apply Hk. right. exact Hin.
  - destruct Hform as (ty & n & _ & ->). rewrite placeholder_unfold. discriminate.
  - apply no_bracket_no_placeholder; assumption.
Qed.

Lemma unmask_leaves_plain_text_witness :
  let slf := fst (mask_text new_masker (T "my SSN is 123-45-6789")) in
  let txt := T "Your DTI ratio is 30.0%" in
  (used slf /\ forallb (fun c => negb (Ascii.eqb c "<")) txt = true) /\
  unmask_text slf txt = txt.
Proof.
  split; [split; [apply used_mask, used_new | reflexivity]|].
  apply (unmask_leaves_plain_text
           (fst (mask_text new_masker (T "my SSN is 123-45-6789")))
           (T "Your DTI ratio is 30.0%")).
  - apply used_mask, used_new.
  - reflexivity.
Defined.

End PiiExtra.

(* ================================================================== *)
(** * More about the entity extractor *)
(* ================================================================== *)

Module ExtractExtra.

Import Re Extract ReFacts ExtractSpec.

Local Open Scope string_scope.
Local Open Scope list_scope.

Definition debt_of (s : session) : option float :=
  Loan.total_monthly_debt (extracted_data s).

Definition loan_of (s : session) : option float :=
  Loan.loan_amount (extracted_data s).

(** ** Matches of a pattern without groups, with the bounds respected *)

Fixpoint no_grp (r : regex) : bool :=
  match r with
  | Grp _ _ => false
  | Cat a b | Alt a b => no_grp a && no_grp b
  | Rep a _ _ => no_grp a
  | Eps | Chr _ | Bnd => true
  end.

(** [Reads ic r p w s']: as [Matches], but a repetition is read at most
    as often as its upper bound allows. *)
Inductive Reads (ic : bool) : regex -> option ascii -> text -> text -> Prop :=
| REps p s' : Reads ic Eps p [] s'
| RChr f p c s' : cmatch ic f c = true -> Reads ic (Chr f) p [c] s'
| RCat a b p w1 w2 s' :
    Reads ic a p w1 (w2 ++ s') ->
    Reads ic b (last_char p w1) w2 s' ->
    Reads ic (Cat a b) p (w1 ++ w2) s'
| RAltL a b p w s' : Reads ic a p w s' -> Reads ic (Alt a b) p w s'
| RAltR a b p w s' : Reads ic b p w s' -> Reads ic (Alt a b) p w s'
| RRep0 a hi p s' : Reads ic (Rep a 0 hi) p [] s'
| RRepS a lo hi p w1 w2 s' :
    hi <> Some 0 ->
    Reads ic a p w1 (w2 ++ s') ->
    Reads ic (Rep a (pred lo) (option_map pred hi)) (last_char p w1) w2 s' ->
    Reads ic (Rep a lo hi) p (w1 ++ w2) s'
| RBnd p s' : at_boundary {| prev := p; rest := s' |} = true -> Reads ic Bnd p [] s'.

(** A matcher step that leaves the captures alone and reads a word of
    [r]. *)
Definition reads_for (ic : bool) (r : regex) (A : Type) (m : cont A -> cont A) : Prop :=
  forall (k : cont A) p s caps x,
    m k {| prev := p; rest := s |} caps = Some x ->
    exists w s',
      s = w ++ s' /\ Reads ic r p w s' /\
      k {| prev := last_char p w; rest := s' |} caps = Some x.

Lemma rep_loop_reads (ic : bool) (a : regex) (A : Type) (m : cont A -> cont A) :
  reads_for ic a A m ->
  forall n lo hi,
    (forall h, hi = Some h -> n <= h) ->
    reads_for ic (Rep a lo hi) A (rep_loop m n lo).
Proof.
  intros Hm. induction n as [|n IH]; intros lo hi Hn k p s caps x; simpl.
  - destruct (Nat.eqb_spec lo 0) as [->|]; [|discriminate].
    intros H. exists [], s. repeat split; [constructor | exact H].
  - destruct (m (rep_loop m n (pred lo) k) _ caps) as [y|] eqn:E.
    + intros H. inversion H. subst y.
      apply Hm in E. destruct E as (w1 & s1 & -> & R1 & E).
      apply (IH (pred lo) (option_map pred hi)) in E.
      * destruct E as (w2 & s2 & -> & R2 & E).
        exists (w1 ++ w2), s2. rewrite last_char_app, app_assoc.
        repeat split; [|exact E]. apply RRepS; [|exact R1 | exact R2].
        intros ->. specialize (Hn 0 eq_refl). lia.
      * intros h Hh. destruct hi as [h0|]; [|discriminate].
        simpl in Hh. inversion Hh. specialize (Hn h0 eq_refl). lia.
    + destruct (Nat.eqb_spec lo 0) as [->|]; [|discriminate].
      intros H. exists [], s. repeat split; [constructor | exact H].
Qed.

Lemma rmatch_reads (ic : bool) (r : regex) (A : Type) :
  no_grp r = true -> reads_for ic r A (rmatch (A := A) ic r).
Proof.
  induction r as [|f|a IHa b IHb|a IHa b IHb|a IHa lo hi| |n a IHa];
    intros Hg k p s caps x; simpl in Hg |- *.
  - intros H. exists [], s. repeat split; [constructor | exact H].
  - destruct s as [|c s']; [discriminate|].
    destruct (cmatch ic f c) eqn:E; [|discriminate].
    intros H. exists [c], s'. repeat split; [constructor; exact E | exact H].
  - apply andb_true_iff in Hg. destruct Hg as [Ha Hb].
    intros H. apply (IHa Ha) in H. destruct H as (w1 & s1 & -> & R1 & H).
    apply (IHb Hb) in H. destruct H as (w2 & s2 & -> & R2 & H).
    exists (w1 ++ w2), s2. rewrite last_char_app, app_assoc.
    repeat split; [|exact H]. econstructor; eassumption.
  - apply andb_true_iff in Hg. destruct Hg as [Ha Hb].
    destruct (rmatch ic a k _ caps) as [y|] eqn:E.
    + intros H. inversion H. subst y. apply (IHa Ha) in E.
      destruct E as (w & s' & -> & R & E).
      exists w, s'. repeat split; [apply RAltL; exact R | exact E].
    + intros H. apply (IHb Hb) in H. destruct H as (w & s' & -> & R & E').
      exists w, s'. repeat split; [apply RAltR; exact R | exact E'].
  - intros H. eapply rep_loop_reads in H; [exact H | exact (IHa Hg) |].
    intros h Hh. subst hi. apply Nat.le_refl.
  - destruct (at_boundary _) eqn:E; [|discriminate].
    intros H. exists [], s. repeat split; [constructor; exact E | exact H].
  - discriminate.
Qed.

(** ** The one capturing group of the amount patterns *)

(** The body of group 1, when the pattern is a sequence with exactly
    that group on its spine. *)
Fixpoint grp1 (r : regex) : option regex :=
  match r with
  | Grp n a => if Nat.eqb n 1 && no_grp a then Some a else None
  | Cat a b =>
      if no_grp b then grp1 a
      else if no_grp a then grp1 b
      else None
  | _ => None
  end.

Lemma consumed_app (p q : option ascii) (w s' : text) :
  consumed {| prev := p; rest := w ++ s' |} {| prev := q; rest := s' |} = w.
Proof.
  unfold consumed. cbn [rest]. rewrite length_app, Nat.add_sub.
  rewrite firstn_app, Nat.sub_diag, firstn_all. simpl. apply app_nil_r.
Qed.

Lemma rmatch_grp1 (ic : bool) (A : Type) (r : regex) :
  forall g, grp1 r = Some g ->
  forall (k : cont A) p s caps x,
    rmatch ic r k {| prev := p; rest := s |} caps = Some x ->
    exists cur' q wg t,
      Reads ic g q wg t /\ k cur' ((1, wg) :: caps) = Some x.
Proof.
  induction r as [|f|a IHa b IHb|a IHa b IHb|a IHa lo hi| |n a IHa];
    intros g Hg k p s caps x; simpl in Hg; try discriminate.
  - cbn [rmatch]. destruct (no_grp b) eqn:Eb.
    + intros H. apply (IHa g Hg) in H.
      destruct H as ([p' s'] & q & wg & t & R & H).
      apply (rmatch_reads ic b A Eb) in H. destruct H as (w2 & s2 & _ & _ & H).
      eauto 6.
    + destruct (no_grp a) eqn:Ea; [|discriminate].
      intros H. apply (rmatch_reads ic a A Ea) in H.
      destruct H as (w1 & s1 & _ & _ & H).
      apply (IHb g Hg) in H. exact H.
  - destruct (Nat.eqb_spec n 1) as [->|]; [|discriminate].
    destruct (no_grp a) eqn:Ea; [|discriminate].
    simpl in Hg. inversion Hg. subst g. cbn [rmatch].
    intros H. apply (rmatch_reads ic a A Ea) in H.
    destruct H as (w & s' & -> & R & H). rewrite consumed_app in H.
    eauto 6.
Qed.

Lemma scan_grp1 (ic : bool) (r g : regex) :
  grp1 r = Some g ->
  forall s adv pos p m cur',
    scan ic r adv pos p s = Some (m, cur') ->
    exists q wg t, Reads ic g q wg t /\ m_groups m = [(1, wg)].
Proof.
  intros Hg. induction s as [|c s IH]; intros adv pos p m cur'; rewrite scan_unfold;
    (destruct (rmatch ic r (accept adv _) _ []) as [[cur caps]|] eqn:E;
     [intros H; inversion H; subst m cur'; clear H; cbn [m_groups];
      apply (rmatch_grp1 ic _ r g Hg) in E;
      destruct E as (cur2 & q & wg & t & R & E);
      unfold accept in E; destruct (_ && _); [discriminate|];
      inversion E; eauto | ]).
  - discriminate.
  - apply IH.
Qed.

Lemma search_grp1 (ic : bool) (r g : regex) (s : text) (m : match_obj) :
  grp1 r = Some g -> search ic r s = Some m ->
  exists q wg t, Reads ic g q wg t /\ group s m 1 = Some wg.
Proof.
  intros Hg. unfold search.
  destruct (scan ic r false 0 None s) as [[m' cur]|] eqn:E; [|discriminate].
  intros H. inversion H. subst m'.
  destruct (scan_grp1 ic r g Hg _ _ _ _ _ _ E) as (q & wg & t & R & Hm).
  exists q, wg, t. split; [exact R|]. cbn [group]. rewrite Hm. reflexivity.
Qed.

Lemma first_match_in (patterns : list regex) (msg : text) (m : match_obj) :
  first_match patterns msg = Some m ->
  exists r, In r patterns /\ search false r msg = Some m.
Proof.
  induction patterns as [|r rest IH]; simpl; [discriminate|].
  destruct (search false r msg) as [m'|] eqn:E.
  - intros H. inversion H. subst m'. exists r. auto.
  - intros H. destruct (IH H) as (r' & Hin & Hs). exists r'. auto.
Qed.

(** ** What group 1 holds *)

Definition digits (w : text) : Prop := Forall (fun c => is_digit c = true) w.

(** [g.replace(',', '')] *)
Definition strip (w : text) : text := filter (fun c => negb (Ascii.eqb c ",")) w.

(** A text that [float] accepts: digits, then possibly a point and
    digits. *)
Definition numeral (t : text) : Prop :=
  exists ip fp,
    t = ip ++ fp /\ ip <> [] /\ digits ip /\
    (fp = [] \/ exists ds, fp = "."%char :: ds /\ digits ds).

Lemma cmatch_plain (f : ascii -> bool) (c : ascii) :
  cmatch false f c = true -> f c = true.
Proof.
  unfold cmatch. simpl. rewrite orb_false_r. auto.
Qed.

Lemma strip_app (a b : text) : strip (a ++ b) = strip a ++ strip b.
Proof.
  apply filter_app.
Qed.

Lemma strip_digits (w : text) : digits w -> strip w = w.
Proof.
  induction 1 as [|c w Hc Hw IH]; [reflexivity|].
  simpl. destruct (Ascii.eqb_spec c ","%char) as [->|_]; [discriminate Hc|].
  simpl. rewrite IH. reflexivity.
Qed.

Lemma replace_comma (g : text) : replace g (T ",") [] = strip g.
Proof.
  unfold replace. cbn [T list_ascii_of_string].
  induction g as [|c g IH]; [reflexivity|].
  cbn [replace_from prefixb strip filter]. rewrite andb_true_r, Ascii.eqb_sym.
  destruct (Ascii.eqb c ","); simpl.
  - exact IH.
  - f_equal. exact IH.
Qed.

Lemma reads_digits (w : text) (p : option ascii) (t : text) (r : regex) :
  Reads false r p w t ->
  forall lo hi, r = Rep digit lo hi -> digits w /\ lo <= length w.
Proof.
  induction 1 as [ | | | | | a hi p s' | a lo hi p w1 w2 s' Hhi R1 _ R2 IH2 | ];
    intros lo' hi' E; try discriminate.
  - inversion E. subst. split; [constructor | apply Nat.le_refl].
  - inversion E. subst. clear E.
    destruct (IH2 _ _ eq_refl) as [D2 L2].
    inversion R1 as [|f p' c s'' Hc| | | | | |]. subst.
    apply cmatch_plain in Hc. split.
    + constructor; assumption.
    + simpl. lia.
Qed.

Lemma reads_comma_groups (w : text) (p : option ascii) (t : text) (r : regex) :
  Reads false r p w t ->
  forall lo hi, r = Rep (Cat (chr ",") (times 3 digit)) lo hi -> digits (strip w).
Proof.
  induction 1 as [ | | | | | a hi p s' | a lo hi p w1 w2 s' Hhi R1 _ R2 IH2 | ];
    intros lo' hi' E; try discriminate.
  - constructor.
  - inversion E. subst. clear E.
    pose proof (IH2 _ _ eq_refl) as D2.
    inversion R1 as [| |a b p' u1 u2 s'' Ru1 Ru2| | | | |]. subst.
    inversion Ru1 as [|f p' c s'' Hc| | | | | |]. subst.
    apply cmatch_plain, Ascii.eqb_eq in Hc. subst c.
    destruct (reads_digits _ _ _ _ Ru2 _ _ eq_refl) as [D1 _].
    rewrite !strip_app. simpl. rewrite (strip_digits _ D1).
    apply Forall_app. split; assumption.
Qed.

Lemma reads_fraction (w : text) (p : option ascii) (t : text) :
  Reads false (opt (Cat (chr ".") (times 2 digit))) p w t ->
  w = [] \/ exists ds, w = "."%char :: ds /\ digits ds.
Proof.
  unfold opt. intros R.
  inversion R as [ | | | | | a hi p' s' | a lo hi p' w1 w2 s' Hhi R1 R2 | ]; subst.
  - left. reflexivity.
  - right. simpl in R2.
    inversion R2 as [ | | | | | a hi p' s' | a lo hi p' v1 v2 s' Hhi' | ]; subst;
      [|congruence].
    rewrite app_nil_r.
    inversion R1 as [| |a b p' u1 u2 s'' Ru1 Ru2| | | | |]. subst.
    inversion Ru1 as [|f p' c s'' Hc| | | | | |]. subst.
    apply cmatch_plain, Ascii.eqb_eq in Hc. subst c.
    destruct (reads_digits _ _ _ _ Ru2 _ _ eq_refl) as [D1 _].
    exists u2. split; [reflexivity | exact D1].
Qed.

Lemma amount_numeral (q : option ascii) (w t : text) :
  Reads false amount q w t -> numeral (strip w).
Proof.
  unfold amount. cbn [seq]. intros R.
  inversion R as [| |a b p' wa wbc s' Ra Rbc| | | | |]. subst.
  inversion Rbc as [| |a b p' wb wc s' Rb Rc| | | | |]. subst.
  destruct (reads_digits _ _ _ _ Ra _ _ eq_refl) as [Da La].
  pose proof (reads_comma_groups _ _ _ _ Rb _ _ eq_refl) as Db.
  apply reads_fraction in Rc.
  exists (wa ++ strip wb), wc. rewrite !strip_app, (strip_digits _ Da).
  split; [|split; [|split]].
  - rewrite <- app_assoc. f_equal. f_equal.
    destruct Rc as [->|(ds & -> & Dd)]; [reflexivity|].
    simpl. rewrite (strip_digits _ Dd). reflexivity.
  - destruct wa; [simpl in La; lia | discriminate].
  - apply Forall_app. split; assumption.
  - exact Rc.
Qed.

Lemma count_numeral (q : option ascii) (w t : text) :
  Reads false (plus digit) q w t -> numeral (strip w).
Proof.
  intros R. destruct (reads_digits _ _ _ _ R _ _ eq_refl) as [D L].
  rewrite (strip_digits _ D). exists w, []. rewrite app_nil_r.
  split; [reflexivity|]. split; [|split; [exact D | left; reflexivity]].
  destruct w; [simpl in L; lia | discriminate].
Qed.

(** ** [float] on a numeral *)

Lemma digits_value_digits (ds : text) :
  digits ds -> forall acc, exists n, digits_value acc ds = Some n.
Proof.
  induction 1 as [|c ds Hc Hd IH]; intros acc; simpl.
  - eauto.
  - rewrite Hc. apply IH.
Qed.

Lemma split_dot_digits (ip rest : text) :
  digits ip ->
  split_dot (ip ++ rest) = (ip ++ fst (split_dot rest), snd (split_dot rest)).
Proof.
  induction 1 as [|c ip Hc Hd IH]; simpl.
  - destruct (split_dot rest). reflexivity.
  - destruct (Ascii.eqb_spec c "."%char) as [->|_]; [discriminate Hc|].
    rewrite IH. reflexivity.
Qed.

Lemma split_dot_point (ds : text) : split_dot ("."%char :: ds) = ([], Some ds).
Proof.
  reflexivity.
Qed.

Lemma float_of_numeral (t : text) :
  numeral t -> exists x, float_of_text t = Some x.
Proof.
  intros (ip & fp & -> & Hne & Di & Hfp). unfold float_of_text.
  rewrite (split_dot_digits ip fp Di).
  destruct Hfp as [->|(ds & -> & Dd)].
  - cbn [split_dot fst snd]. rewrite !app_nil_r. destruct ip as [|c ip]; [congruence|].
    destruct (digits_value_digits _ Di 0%N) as (n & ->). eauto.
  - rewrite split_dot_point. cbn [fst snd]. rewrite app_nil_r.
    assert (Dall : digits (ip ++ ds)) by (apply Forall_app; split; assumption).
    destruct (digits_value_digits _ Dall 0%N) as (n & En).
    destruct ip as [|c ip]; [congruence|].
    cbn [app] in *. rewrite En. eauto.
Qed.

(** ** The amount patterns *)

(** Group 1 of the pattern always takes part in a match and holds a
    numeral, commas apart. *)
Definition captures_numeral (r : regex) : Prop :=
  exists g, grp1 r = Some g /\
            forall q w t, Reads false g q w t -> numeral (strip w).

Lemma with_amount (r : regex) : grp1 r = Some amount -> captures_numeral r.
Proof.
  intros H. exists amount. split; [exact H | exact amount_numeral].
Qed.

Lemma with_count (r : regex) : grp1 r = Some (plus digit) -> captures_numeral r.
Proof.
  intros H. exists (plus digit). split; [exact H | exact count_numeral].
Qed.

Lemma income_patterns_numeral : Forall captures_numeral income_patterns.
Proof.
  unfold income_patterns.
  repeat constructor; (apply with_amount; reflexivity) || (apply with_count; reflexivity).
Qed.

Lemma debt_patterns_numeral : Forall captures_numeral debt_patterns.
Proof.
  unfold debt_patterns. repeat constructor; apply with_amount; reflexivity.
Qed.

Lemma loan_patterns_numeral : Forall captures_numeral loan_patterns.
Proof.
  unfold loan_patterns. repeat constructor; apply with_amount; reflexivity.
Qed.

Lemma amount_str_floats (patterns : list regex) (msg : text) (m : match_obj) :
  Forall captures_numeral patterns ->
  first_match patterns msg = Some m ->
  exists x, float_of_text (amount_str msg m) = Some x.
Proof.
  intros Hall Hm. apply first_match_in in Hm. destruct Hm as (r & Hin & Hs).
  rewrite Forall_forall in Hall. destruct (Hall r Hin) as (g & Hg & Hnum).
  destruct (search_grp1 false r g msg m Hg Hs) as (q & wg & t & R & Hgrp).
  unfold amount_str. rewrite Hgrp, replace_comma.
  apply float_of_numeral, (Hnum q wg t R).
Qed.

Lemma extract_income_total (msg : text) (s : session) :
  exists s', extract_income msg s = Some s'.
Proof.
  unfold extract_income. cbn zeta.
  destruct (first_match income_patterns (lower msg)) as [m|] eqn:E; [|eauto].
  destruct (amount_str_floats _ _ _ income_patterns_numeral E) as (x & ->). eauto.
Qed.

Lemma extract_amount_total (patterns : list regex) (store : float -> session -> session)
    (label : string) (msg : text) (s : session) :
  Forall captures_numeral patterns ->
  exists s', extract_amount patterns store label msg s = Some s'.
Proof.
  intros Hall. unfold extract_amount. cbn zeta.
  destruct (first_match patterns (lower msg)) as [m|] eqn:E; [|eauto].
  destruct (amount_str_floats _ _ _ Hall E) as (x & ->). eauto.
Qed.

Lemma extract_steps_total (s : session) (msg : text) :
  exists s1 s2 s3,
    extract_income msg s = Some s1 /\
    extract_amount debt_patterns set_debt "debt" msg s1 = Some s2 /\
    extract_amount loan_patterns set_loan "loan_amount" msg s2 = Some s3.
Proof.
  destruct (extract_income_total msg s) as (s1 & E1).
  destruct (extract_amount_total debt_patterns set_debt "debt" msg s1
              debt_patterns_numeral) as (s2 & E2).
  destruct (extract_amount_total loan_patterns set_loan "loan_amount" msg s2
              loan_patterns_numeral) as (s3 & E3).
  exists s1, s2, s3. auto.
Qed.

(** [_extract_entities] never fails on a message: whatever group 1 of
    an amount pattern captures is, once the commas are removed, a text
    that [float] accepts, so no [ValueError] is raised. *)
Theorem extract_entities_never_raises (s : session) (msg : text) :
  exists s', _extract_entities s msg = Some s'.
Proof.
  unfold _extract_entities.
  destruct (extract_steps_total s msg) as (s1 & s2 & s3 & E1 & E2 & E3).
  rewrite E1. cbn [bind]. rewrite E2. cbn [bind]. rewrite E3. cbn [bind].
  eauto.
Qed.

(** ** What a message can take away *)

(** Nothing the session held is lost in [s']. *)
Definition grows (s s' : session) : Prop :=
  (income_of s <> None -> income_of s' <> None) /\
  (debt_of s <> None -> debt_of s' <> None) /\
  (loan_of s <> None -> loan_of s' <> None) /\
  (employment_of s <> None -> employment_of s' <> None) /\
  (credit_of s <> None -> credit_of s' <> None) /\
  (exists new, entities_extracted (s_metrics s') =
               entities_extracted (s_metrics s) ++ new) /\
  (intent_recognized (s_metrics s) = true -> intent_recognized (s_metrics s') = true).

Lemma grows_refl (s : session) : grows s s.
Proof.
  unfold grows. repeat split; auto. exists []. rewrite app_nil_r. reflexivity.
Qed.

Lemma grows_trans (s1 s2 s3 : session) : grows s1 s2 -> grows s2 s3 -> grows s1 s3.
Proof.
  intros (A1 & A2 & A3 & A4 & A5 & (n1 & A6) & A7) (B1 & B2 & B3 & B4 & B5 & (n2 & B6) & B7).
  unfold grows. repeat split; auto.
  exists (n1 ++ n2). rewrite B6, A6, app_assoc. reflexivity.
Qed.

Lemma grows_log (label : string) (s : session) : grows s (log_entity label s).
Proof.
  unfold grows, log_entity, income_of, debt_of, loan_of, employment_of, credit_of.
  cbn [extracted_data s_metrics entities_extracted intent_recognized].
  repeat split; auto. exists [label]. reflexivity.
Qed.

Ltac grows_set :=
  intros;
  unfold grows, income_of, debt_of, loan_of, employment_of, credit_of;
  cbn [extracted_data s_metrics entities_extracted intent_recognized
       set_income set_debt set_loan set_employment set_credit set_intent
       Loan.gross_monthly_income Loan.total_monthly_debt Loan.loan_amount
       Loan.employment_status Loan.credit_score_range];
  repeat split; auto; try discriminate;
  exists []; rewrite app_nil_r; reflexivity.

Lemma grows_income (x : float) (s : session) : grows s (set_income x s).
Proof.
  grows_set.
Qed.

Lemma grows_debt (x : float) (s : session) : grows s (set_debt x s).
Proof.
  grows_set.
Qed.

Lemma grows_loan (x : float) (s : session) : grows s (set_loan x s).
Proof.
  grows_set.
Qed.

Lemma grows_employment (v : string) (s : session) : grows s (set_employment v s).
Proof.
  grows_set.
Qed.

Lemma grows_credit (v : string) (s : session) : grows s (set_credit v s).
Proof.
  grows_set.
Qed.

Lemma grows_intent (s : session) : grows s (set_intent s).
Proof.
  grows_set.
Qed.

Lemma grows_keyword_loop (keywords : list string) (msg : text)
    (hit : session -> session) (s : session) :
  (forall t, grows t (hit t)) -> grows s (keyword_loop keywords msg hit s).
Proof.
  intros Hhit. rewrite keyword_loop_spec.
  destruct (existsb _ keywords); [apply Hhit | apply grows_refl].
Qed.

Lemma grows_category_loop (table : list (string * list string)) (msg : text)
    (hit : string -> session -> session) :
  (forall name t, grows t (hit name t)) ->
  forall s, grows s (category_loop table msg hit s).
Proof.
  intros Hhit. induction table as [|[name keywords] more IH]; intros s; simpl.
  - apply grows_refl.
  - eapply grows_trans; [|apply IH]. apply grows_keyword_loop, Hhit.
Qed.

Lemma grows_extract_income (msg : text) (s s' : session) :
  extract_income msg s = Some s' -> grows s s'.
Proof.
  unfold extract_income. cbn zeta.
  destruct (first_match _ _); [|intros H; inversion H; apply grows_refl].
  destruct (float_of_text _); [|discriminate].
  intros H. inversion H.
  eapply grows_trans; [apply grows_income | apply grows_log].
Qed.

Lemma grows_extract_amount (patterns : list regex) (store : float -> session -> session)
    (label : string) (msg : text) (s s' : session) :
  (forall x t, grows t (store x t)) ->
  extract_amount patterns store label msg s = Some s' -> grows s s'.
Proof.
  intros Hstore. unfold extract_amount. cbn zeta.
  destruct (first_match _ _); [|intros H; inversion H; apply grows_refl].
  destruct (float_of_text _); [|discriminate].
  intros H. inversion H.
  eapply grows_trans; [apply Hstore | apply grows_log].
Qed.

Lemma grows_tail (msg : text) (s : session) :
  grows s (extract_intent msg (extract_credit msg (extract_employment msg s))).
Proof.
  eapply grows_trans; [|eapply grows_trans].
  - unfold extract_employment. apply grows_category_loop. intros name t.
    eapply grows_trans; [apply grows_employment | apply grows_log].
  - unfold extract_credit. apply grows_category_loop. intros name t.
    eapply grows_trans; [apply grows_credit | apply grows_log].
  - unfold extract_intent. destruct (existsb _ _); [apply grows_intent | apply grows_refl].
Qed.

Lemma grows_steps (msg : text) (s s1 s2 s3 : session) :
  extract_income msg s = Some s1 ->
  extract_amount debt_patterns set_debt "debt" msg s1 = Some s2 ->
  extract_amount loan_patterns set_loan "loan_amount" msg s2 = Some s3 ->
  grows s (extract_intent msg (extract_credit msg (extract_employment msg s3))).
Proof.
  intros E1 E2 E3.
  apply grows_extract_income in E1.
  apply (grows_extract_amount _ _ _ _ _ _ grows_debt) in E2.
  apply (grows_extract_amount _ _ _ _ _ _ grows_loan) in E3.
  eapply grows_trans; [exact E1|]. eapply grows_trans; [exact E2|].
  eapply grows_trans; [exact E3|]. apply grows_tail.
Qed.

(** A message never takes anything away from the session: a field that
    held a value still holds one afterwards, the log of extracted
    entities is only extended, and a recognised intent stays recognised. *)
Theorem extracted_data_only_grows (s s' : session) (msg : text) :
  _extract_entities s msg = Some s' ->
  (income_of s <> None -> income_of s' <> None) /\
  (debt_of s <> None -> debt_of s' <> None) /\
  (loan_of s <> None -> loan_of s' <> None) /\
  (employment_of s <> None -> employment_of s' <> None) /\
  (credit_of s <> None -> credit_of s' <> None) /\
  (exists new, entities_extracted (s_metrics s') =
               entities_extracted (s_metrics s) ++ new) /\
  (intent_recognized (s_metrics s) = true -> intent_recognized (s_metrics s') = true).
Proof.
  unfold _extract_entities.
  destruct (extract_income msg s) as [s1|] eqn:E1; [|discriminate]. cbn [bind].
  destruct (extract_amount debt_patterns set_debt "debt" msg s1) as [s2|] eqn:E2;
    [|discriminate]. cbn [bind].
  destruct (extract_amount loan_patterns set_loan "loan_amount" msg s2) as [s3|] eqn:E3;
    [|discriminate]. cbn [bind].
  intros H. inversion H. clear H.
  exact (grows_steps msg s s1 s2 s3 E1 E2 E3).
Qed.

Lemma extracted_data_only_grows_witness :
  let s := log_entity "income" (set_income 5000 new_session) in
  let s' := log_entity "employment" (set_employment "full_time" s) in
  _extract_entities s (T "thanks, I work full-time") = Some s' /\
  income_of s <> None /\ income_of s' <> None.
Proof.
  split; [vm_compute; reflexivity|]. split; [discriminate|].
  apply (extracted_data_only_grows
           (log_entity "income" (set_income 5000 new_session))
           (log_entity "employment"
              (set_employment "full_time"
                 (log_entity "income" (set_income 5000 new_session))))
           (T "thanks, I work full-time")).
  - vm_compute. reflexivity.
  - discriminate.
Defined.

(** ** Messages without digits *)

Lemma search_none (ic : bool) (P : ascii -> bool) (r : regex) (s : text) :
  mandatory ic P r = true ->
  forallb (fun c => negb (P c)) s = true ->
  search ic r s = None.
Proof.
  intros Hm Hs. unfold search.
  destruct (scan ic r false 0 None s) as [[m cur]|] eqn:E; [|reflexivity]. exfalso.
  eapply (@scan_sound ic r s) in E; [|exists []; repeat split].
  destruct E as (_ & _ & _ & _ & (pre & w & post & Es & _ & _ & M) & _).
  apply (Matches_mandatory P M) in Hm. apply Exists_exists in Hm.
  destruct Hm as (c & Hin & Hc).
  rewrite forallb_forall in Hs.
  assert (Hn : negb (P c) = true).
  { apply Hs. rewrite Es. apply in_app_iff. right. apply in_app_iff. left. exact Hin. }
  rewrite Hc in Hn. discriminate.
Qed.

Lemma first_match_none (P : ascii -> bool) (patterns : list regex) (msg : text) :
  forallb (mandatory false P) patterns = true ->
  forallb (fun c => negb (P c)) msg = true ->
  first_match patterns msg = None.
Proof.
  intros Hm Hs. induction patterns as [|r rest IH]; [reflexivity|].
  cbn [forallb] in Hm. apply andb_true_iff in Hm. destruct Hm as [Hr Hm].
  cbn [first_match]. rewrite (search_none false P r msg Hr Hs). apply IH, Hm.
Qed.

Lemma lower_keeps_digits (c : ascii) : is_digit (to_lower c) = is_digit c.
Proof.
  apply Bool.eqb_prop.
  apply (RoundTrip.ascii_forall (fun c => Bool.eqb (is_digit (to_lower c)) (is_digit c))).
  vm_compute. reflexivity.
Qed.

Lemma lower_no_digits (msg : text) :
  forallb (fun c => negb (is_digit c)) msg = true ->
  forallb (fun c => negb (is_digit c)) (lower msg) = true.
Proof.
  unfold lower. induction msg as [|c msg IH]; [reflexivity|].
  cbn [forallb map]. rewrite lower_keeps_digits.
  intros H. apply andb_true_iff in H. destruct H as [Hc H].
  rewrite Hc, (IH H). reflexivity.
Qed.

(** The three amounts of a session. *)
Definition amounts (s : session) : option float * option float * option float :=
  (income_of s, debt_of s, loan_of s).

Lemma amounts_keyword_loop (keywords : list string) (msg : text)
    (hit : session -> session) (s : session) :
  (forall t, amounts (hit t) = amounts t) ->
  amounts (keyword_loop keywords msg hit s) = amounts s.
Proof.
  intros Hhit. rewrite keyword_loop_spec.
  destruct (existsb _ keywords); [apply Hhit | reflexivity].
Qed.

Lemma amounts_category_loop (table : list (string * list string)) (msg : text)
    (hit : string -> session -> session) :
  (forall name t, amounts (hit name t) = amounts t) ->
  forall s, amounts (category_loop table msg hit s) = amounts s.
Proof.
  intros Hhit. induction table as [|[name keywords] more IH]; intros s; simpl;
    [reflexivity|].
  rewrite IH. apply amounts_keyword_loop, Hhit.
Qed.

Lemma amounts_tail (msg : text) (s : session) :
  amounts (extract_intent msg (extract_credit msg (extract_employment msg s))) =
  amounts s.
Proof.
  transitivity (amounts (extract_credit msg (extract_employment msg s))).
  { unfold extract_intent. destruct (existsb _ _); reflexivity. }
  transitivity (amounts (extract_employment msg s)).
  { unfold extract_credit. apply amounts_category_loop. reflexivity. }
  unfold extract_employment. apply amounts_category_loop. reflexivity.
Qed.

(** An ASCII message without a digit sets no amount: every amount
    pattern needs a digit, so income, debt and loan amount stay as they
    were, nothing is logged for them, and only the keyword steps act.
    (In a message with other characters, [\d] and [float] also accept
    the decimal digits of other scripts.) *)
Theorem no_digits_no_amounts (s : session) (msg : text) :
  ascii_text msg = true ->
  forallb (fun c => negb (is_digit c)) msg = true ->
  let s' := extract_intent msg (extract_credit msg (extract_employment msg s)) in
  _extract_entities s msg = Some s' /\
  income_of s' = income_of s /\ debt_of s' = debt_of s /\ loan_of s' = loan_of s.
Proof.
  intros _ Hd s'. apply lower_no_digits in Hd. split.
  - unfold _extract_entities, extract_income, extract_amount. cbn zeta.
    rewrite (first_match_none is_digit income_patterns _ eq_refl Hd). cbn [bind].
    rewrite (first_match_none is_digit debt_patterns _ eq_refl Hd). cbn [bind].
    rewrite (first_match_none is_digit loan_patterns _ eq_refl Hd). cbn [bind].
    reflexivity.
  - pose proof (amounts_tail msg s) as H. fold s' in H. unfold amounts in H.
    inversion H. auto.
Qed.

Lemma no_digits_no_amounts_witness :
  let msg := T "I am retired and my credit is good" in
  (ascii_text msg = true /\ forallb (fun c => negb (is_digit c)) msg = true) /\
  income_of (extract_intent msg (extract_credit msg (extract_employment msg new_session)))
    = None.
Proof.
  split; [split; reflexivity|].
  destruct (no_digits_no_amounts new_session (T "I am retired and my credit is good")
              eq_refl eq_refl) as (_ & H & _).
  exact H.
Defined.

End ExtractExtra.

(* ================================================================== *)
(** * services/gemini_service.py: [_check_for_decision] *)
(* ================================================================== *)

Module Chat.

Import Re Loan Extract.

Local Open Scope string_scope.
Local Open Scope list_scope.

(** What a call gives: a value, or the [KeyError] of a dictionary
    lookup with the key that was missing. *)
Inductive raises (A : Type) :=
| Ok (a : A)
| KeyError (key : string).

Arguments Ok {A} a.
Arguments KeyError {A} key.

Definition str (t : text) : string := string_of_list_ascii t.

Definition newline : string := String (ascii_of_nat 10) EmptyString.

(** [c * n] for a one-character string. *)
Fixpoint times_char (c : ascii) (n : nat) : string :=
  match n with
  | 0 => EmptyString
  | S n' => String c (times_char c n')
  end.

(** [s.title()]: a letter that follows a letter becomes lower case, any
    other letter upper case. *)
Fixpoint title_from (prev_cased : bool) (s : text) : text :=
  match s with
  | [] => []
  | c :: s' =>
      (if prev_cased then to_lower c else to_upper c) :: title_from (is_alpha c) s'
  end.

Definition title (s : text) : text := title_from false s.

(** The local list [required_fields] of [_check_for_decision]. *)
Definition required_fields : list string :=
  ["gross_monthly_income"; "total_monthly_debt"; "loan_amount";
   "employment_status"; "credit_score_range"].

(** [field in extracted].  The dictionary is only written by
    [_extract_entities], which never stores [None]: a key is present
    exactly when the field holds a value. *)
Definition key_in (extracted : applicant_data) (field : string) : bool :=
  if String.eqb field "gross_monthly_income"
  then negb (is_missing (gross_monthly_income extracted))
  else if String.eqb field "total_monthly_debt"
  then negb (is_missing (total_monthly_debt extracted))
  else if String.eqb field "loan_amount"
  then negb (is_missing (loan_amount extracted))
  else if String.eqb field "employment_status"
  then negb (is_missing (employment_status extracted))
  else if String.eqb field "credit_score_range"
  then negb (is_missing (credit_score_range extracted))
  else false.

(** [{result['dti_ratio']}] *)
Definition dti_piece (v : option float) : piece :=
  match v with
  | Some x => Num x
  | None => Txt "None"
  end.

(** [for i, rec in enumerate(recs, i): decision_text += f"{i}. {rec}\n"] *)
Fixpoint next_steps (i : nat) (recs : list fstring) : fstring :=
  match recs with
  | [] => []
  | rec :: more =>
      [Txt (str (Pii.str_of_nat i)); Txt ". "] ++ rec ++ [Txt newline] ++
      next_steps (S i) more
  end.

Definition _check_for_decision (s : session) : raises (option fstring) :=
  let extracted := extracted_data s in
  if forallb (key_in extracted) required_fields then
    let result := evaluate_application extracted in
    let rule := times_char "=" 50 in
    let head :=
      [Txt newline; Txt newline; Txt rule; Txt newline;
       Txt "📋 **LOAN APPLICATION DECISION**"; Txt newline;
       Txt rule; Txt newline; Txt newline;
       Txt "**Status:** "; Txt (decision result); Txt newline;
       Txt "**DTI Ratio:** "; dti_piece (dti_ratio result); Txt "%"; Txt newline;
       Txt newline;
       Txt "**Your Financial Summary:**"; Txt newline] in
    match summary result with
    | None => KeyError "applicant_summary"
    | Some sm =>
        match employment_status extracted with
        | None => KeyError "employment_status"
        | Some emp =>
            match credit_score_range extracted with
            | None => KeyError "credit_score_range"
            | Some credit =>
                let body :=
                  head ++
                  [Txt "- Monthly Income: "] ++ monthly_income sm ++ [Txt newline] ++
                  [Txt "- Monthly Debt: "] ++ monthly_debt sm ++ [Txt newline] ++
                  [Txt "- Loan Amount: "] ++ s_loan_amount sm ++ [Txt newline] ++
                  [Txt "- Employment: ";
                   Txt (str (title (replace (list_ascii_of_string emp)
                                            (list_ascii_of_string "_")
                                            (list_ascii_of_string " "))));
                   Txt newline] ++
                  [Txt "- Credit Range: ";
                   Txt (str (title (list_ascii_of_string credit)));
                   Txt newline; Txt newline] ++
                  [Txt "**Reason:** "] ++ reason result ++ [Txt newline; Txt newline] in
                Ok (Some
                      (match recommendations result with
                       | [] => body
                       | recs =>
                           body ++ [Txt "**Next Steps:**"; Txt newline] ++
                           next_steps 1 recs
                       end))
            end
        end
    end
  else Ok None.

End Chat.

(* ================================================================== *)
(** * When a decision is shown *)
(* ================================================================== *)

Module ChatExtra.

Import Re Loan Extract LoanSpec ExtractSpec ExtractExtra Chat.

Local Open Scope string_scope.
Local Open Scope list_scope.

Lemma all_keys_complete (d : applicant_data) :
  forallb (key_in d) required_fields = true ->
  exists gi debt loan emp credit, d = complete gi debt loan emp credit.
Proof.
  destruct d as [[gi|] [debt|] [loan|] [emp|] [credit|]]; try discriminate.
  intros _. exists gi, debt, loan, emp, credit. reflexivity.
Qed.

Lemma all_keys_iff (d : applicant_data) :
  forallb (key_in d) required_fields = fst (check_data_completeness d).
Proof.
  destruct d as [[gi|] [debt|] [loan|] [emp|] [credit|]]; reflexivity.
Qed.

Lemma summary_complete (gi debt loan : float) (emp credit : string) :
  summary (evaluate_application (complete gi debt loan emp credit)) = None <->
  (gi <=? 0)%float = true.
Proof.
  unfold evaluate_application, complete, calculate_dti.
  cbn [gross_monthly_income total_monthly_debt loan_amount employment_status
       credit_score_range].
  destruct (gi <=? 0)%float; cbn [summary]; split; intros H;
    reflexivity || discriminate H.
Qed.

(** [_check_for_decision] returns [None] exactly when a field is still
    missing.  With all five fields present it returns a decision text if
    [calculate_dti] accepts the income; if the income is zero or less,
    the result of [evaluate_application] has no ['applicant_summary'] and
    the function raises [KeyError] on that key. *)
Theorem decision_text_or_key_error (s : session) :
  let d := extracted_data s in
  match _check_for_decision s with
  | Ok None => fst (check_data_completeness d) = false
  | Ok (Some _) =>
      exists gi debt loan emp credit,
        d = complete gi debt loan emp credit /\ (gi <=? 0)%float = false
  | KeyError key =>
      key = "applicant_summary" /\
      exists gi debt loan emp credit,
        d = complete gi debt loan emp credit /\ (gi <=? 0)%float = true
  end.
Proof.
  cbn zeta. unfold _check_for_decision. cbn zeta.
  rewrite all_keys_iff.
  destruct (fst (check_data_completeness (extracted_data s))) eqn:Ec; [|reflexivity].
  rewrite <- all_keys_iff in Ec. apply all_keys_complete in Ec.
  destruct Ec as (gi & debt & loan & emp & credit & Ed). rewrite Ed.
  pose proof (summary_complete gi debt loan emp credit) as Hs.
  destruct (summary (evaluate_application (complete gi debt loan emp credit)))
    as [sm|].
  - cbn [complete employment_status credit_score_range].
    exists gi, debt, loan, emp, credit. split; [reflexivity|].
    destruct (gi <=? 0)%float; [|reflexivity].
    destruct Hs as [_ Hs]. discriminate (Hs eq_refl).
  - split; [reflexivity|]. exists gi, debt, loan, emp, credit.
    split; [reflexivity | apply Hs; reflexivity].
Qed.

Lemma undecided_iff (s : session) :
  _check_for_decision s = Ok None <->
  fst (check_data_completeness (extracted_data s)) = false.
Proof.
  unfold _check_for_decision. cbn zeta. rewrite all_keys_iff.
  destruct (fst (check_data_completeness (extracted_data s))).
  - split; [|discriminate].
    destruct (summary _); [|discriminate].
    destruct (employment_status _); [|discriminate].
    destruct (credit_score_range _); discriminate.
  - split; reflexivity.
Qed.

Lemma key_error_inv (s : session) (key : string) :
  _check_for_decision s = KeyError key ->
  key = "applicant_summary" /\
  exists gi debt loan emp credit,
    extracted_data s = complete gi debt loan emp credit /\ (gi <=? 0)%float = true.
Proof.
  unfold _check_for_decision. cbn zeta.
  destruct (forallb (key_in (extracted_data s)) required_fields) eqn:Ec; [|discriminate].
  apply all_keys_complete in Ec. destruct Ec as (gi & debt & loan & emp & credit & Ed).
  rewrite Ed. pose proof (summary_complete gi debt loan emp credit) as Hs.
  destruct (summary (evaluate_application (complete gi debt loan emp credit))) as [sm|].
  - cbn [complete employment_status credit_score_range]. discriminate.
  - intros H. inversion H. split; [reflexivity|].
    exists gi, debt, loan, emp, credit. split; [reflexivity | apply Hs; reflexivity].
Qed.

Lemma decided_inv (s : session) (t : fstring) :
  _check_for_decision s = Ok (Some t) ->
  exists gi debt loan emp credit,
    extracted_data s = complete gi debt loan emp credit /\ (gi <=? 0)%float = false.
Proof.
  unfold _check_for_decision. cbn zeta.
  destruct (forallb (key_in (extracted_data s)) required_fields) eqn:Ec; [|discriminate].
  apply all_keys_complete in Ec. destruct Ec as (gi & debt & loan & emp & credit & Ed).
  rewrite Ed. pose proof (summary_complete gi debt loan emp credit) as Hs.
  destruct (summary (evaluate_application (complete gi debt loan emp credit))) as [sm|];
    [|discriminate].
  intros _. exists gi, debt, loan, emp, credit. split; [reflexivity|].
  destruct (gi <=? 0)%float; [|reflexivity].
  destruct Hs as [_ Hs]. discriminate (Hs eq_refl).
Qed.

Lemma extract_entities_some (s : session) (msg : text) :
  exists d, _extract_entities s msg = Some d.
Proof.
  unfold _extract_entities.
  destruct (extract_steps_total s msg) as (s1 & s2 & s3 & E1 & E2 & E3).
  rewrite E1. cbn [bind]. rewrite E2. cbn [bind]. rewrite E3. cbn [bind].
  eauto.
Qed.

Lemma complete_fields (s : session) :
  fst (check_data_completeness (extracted_data s)) = true <->
  income_of s <> None /\ debt_of s <> None /\ loan_of s <> None /\
  employment_of s <> None /\ credit_of s <> None.
Proof.
  unfold income_of, debt_of, loan_of, employment_of, credit_of.
  destruct (extracted_data s) as [[gi|] [debt|] [loan|] [emp|] [credit|]];
    cbn [gross_monthly_income total_monthly_debt loan_amount employment_status
         credit_score_range];
    (split; [intros H; try discriminate H; repeat split; discriminate
            | intros (H1 & H2 & H3 & H4 & H5); try reflexivity; congruence]).
Qed.

Lemma extract_entities_grows (s s' : session) (msg : text) :
  _extract_entities s msg = Some s' -> grows s s'.
Proof.
  unfold _extract_entities.
  destruct (extract_income msg s) as [s1|] eqn:E1; [|discriminate]. cbn [bind].
  destruct (extract_amount debt_patterns set_debt "debt" msg s1) as [s2|] eqn:E2;
    [|discriminate]. cbn [bind].
  destruct (extract_amount loan_patterns set_loan "loan_amount" msg s2) as [s3|] eqn:E3;
    [|discriminate]. cbn [bind].
  intros H. inversion H. exact (grows_steps msg s s1 s2 s3 E1 E2 E3).
Qed.

(** Once [_check_for_decision] has all five fields, it has them after
    every later message, so it never goes back to returning [None]: on
    each later turn it returns a decision text, or, when the message has
    left an income of zero or less in the record, it raises
    [KeyError('applicant_summary')]. *)
Theorem complete_record_is_evaluated_on_later_turns (s s' : session) (msg : text) :
  _check_for_decision s <> Ok None ->
  _extract_entities s msg = Some s' ->
  exists gi debt loan emp credit,
    extracted_data s' = complete gi debt loan emp credit /\
    if (gi <=? 0)%float
    then _check_for_decision s' = KeyError "applicant_summary"
    else exists t, _check_for_decision s' = Ok (Some t).
Proof.
  intros Hc He.
  assert (Hn : _check_for_decision s' <> Ok None).
  { revert Hc. rewrite !undecided_iff. intros Hc.
    apply extract_entities_grows in He.
    destruct He as (G1 & G2 & G3 & G4 & G5 & _).
    apply not_false_iff_true in Hc. apply complete_fields in Hc.
    destruct Hc as (H1 & H2 & H3 & H4 & H5).
    apply not_false_iff_true. apply complete_fields. repeat split; auto. }
  destruct (_check_for_decision s') as [[t|]|key] eqn:Ec.
  - destruct (decided_inv s' t Ec) as (gi & debt & loan & emp & credit & Hd & Hgi).
    exists gi, debt, loan, emp, credit. split; [exact Hd|]. rewrite Hgi. eauto.
  - congruence.
  - destruct (key_error_inv s' key Ec) as (-> & gi & debt & loan & emp & credit & Hd & Hgi).
    exists gi, debt, loan, emp, credit. split; [exact Hd|]. rewrite Hgi. reflexivity.
Qed.

Lemma complete_record_is_evaluated_on_later_turns_witness :
  let s := {| extracted_data := complete 20000 3000 100000 "full_time" "good";
              s_metrics := {| entities_extracted := []; intent_recognized := true |} |} in
  let s' := log_entity "income" (set_income 0 s) in
  (_check_for_decision s <> Ok None /\
   _extract_entities s (T "I make $5000 per month") = Some s') /\
  _check_for_decision s' = KeyError "applicant_summary".
Proof.
  assert (Hc : _check_for_decision
                 {| extracted_data := complete 20000 3000 100000 "full_time" "good";
                    s_metrics := {| entities_extracted := [];
                                    intent_recognized := true |} |} <> Ok None)
    by discriminate.
  assert (He : _extract_entities
                 {| extracted_data := complete 20000 3000 100000 "full_time" "good";
                    s_metrics := {| entities_extracted := [];
                                    intent_recognized := true |} |}
                 (T "I make $5000 per month") =
               Some (log_entity "income"
                       (set_income 0
                          {| extracted_data := complete 20000 3000 100000 "full_time" "good";
                             s_metrics := {| entities_extracted := [];
                                             intent_recognized := true |} |})))
    by (vm_compute; reflexivity).
  split; [split; [exact Hc | exact He]|].
  destruct (complete_record_is_evaluated_on_later_turns _ _ _ Hc He)
    as (gi & debt & loan & emp & credit & Hd & H).
  inversion Hd. subst gi. exact H.
Defined.

End ChatExtra.

(* ================================================================== *)
(** * services/gemini_service.py: [send_message] *)
(* ================================================================== *)

Module Turn.

Import Re Loan Extract Pii Chat.

Local Open Scope string_scope.
Local Open Scope list_scope.

(** What lies outside the program: [api n m] is what the [n]-th call of
    [chat_instance.send_message] does when given [m] ([inr] the text of
    the response, [inl] the [str] of the exception raised in the [try]
    block), [clock n] is what the [n]-th call of [time.time] returns.
    The other fields record what the program did: the messages it sent,
    how often it read the clock, and the seconds it slept. *)
Record world := {
  api : nat -> text -> text + text;
  clock : nat -> float;
  sent : list text;
  ticks : nat;
  slept : list nat
}.

(** [session['chat_instance'].send_message(m)] with [response.text] *)
Definition call_api (m : text) (w : world) : (text + text) * world :=
  (api w (length (sent w)) m,
   {| api := api w; clock := clock w; sent := sent w ++ [m];
      ticks := ticks w; slept := slept w |}).

(** [time.time()] *)
Definition time (w : world) : float * world :=
  (clock w (ticks w),
   {| api := api w; clock := clock w; sent := sent w;
      ticks := S (ticks w); slept := slept w |}).

(** [time.sleep(secs)] *)
Definition sleep (secs : nat) (w : world) : world :=
  {| api := api w; clock := clock w; sent := sent w;
     ticks := ticks w; slept := slept w ++ [secs] |}.

(** The entries of [session['metrics']['errors']]. *)
Inductive error_entry :=
| pii_detected_entry (details : list string) (timestamp : float)
| api_error_entry (attempt : nat) (error : text) (timestamp : float).

(** An entry of [session['history']]; [None] is Python's [None]. *)
Record message := { role : string; parts : list (option fstring) }.

(** The session dictionary; [data] holds ['extracted_data'] and the two
    entries of ['metrics'] that [_extract_entities] updates. *)
Record chat_session := {
  history : list message;
  data : session;
  conversation_start : float;
  turn_count : nat;
  fallback_count : nat;
  errors : list error_entry
}.

Definition max_retries : nat := 3.
Definition retry_delay : nat := 1.

(** The reply that stands in for the model's when the last attempt has
    failed. *)
Definition give_up_text (error_msg : text) : fstring :=
  let u := upper error_msg in
  if contains (Pii.T "API_KEY") u || contains (Pii.T "INVALID") u then
    [Txt "❌ API Key Error: Please check that your GEMINI_API_KEY is valid. Get a new key at https://makersuite.google.com/app/apikey"]
  else if contains (Pii.T "QUOTA") u || contains (Pii.T "LIMIT") u then
    [Txt "⚠️ API Quota Exceeded: You've reached your API usage limit. Please try again later or check your quota at Google AI Studio."]
  else if contains (Pii.T "NETWORK") u || contains (Pii.T "CONNECTION") u then
    [Txt "🌐 Connection Error: Unable to reach Gemini API. Please check your internet connection."]
  else
    [Txt "❌ Error: "; Txt (str error_msg); Txt newline; Txt newline;
     Txt "Please check:"; Txt newline;
     Txt "1. Your API key is valid"; Txt newline;
     Txt "2. You have internet connection"; Txt newline;
     Txt "3. Gemini API is accessible in your region"].

(** The variables the retry loop updates. *)
Record attempt_state := {
  a_world : world;
  a_errors : list error_entry;
  response_text : option fstring
}.

(** [for attempt in attempts: try: ...; break / except Exception: ...] *)
Fixpoint retry_loop (attempts : list nat) (masked_message : text)
    (st : attempt_state) : attempt_state :=
  match attempts with
  | [] => st
  | attempt :: more =>
      match call_api masked_message (a_world st) with
      | (inr text, w1) =>
          {| a_world := w1; a_errors := a_errors st;
             response_text := Some [Txt (str text)] |}
      | (inl error_msg, w1) =>
          let (now, w2) := time w1 in
          let errs := a_errors st ++ [api_error_entry (attempt + 1) error_msg now] in
          if (attempt <? max_retries - 1)%nat then
            retry_loop more masked_message
              {| a_world := sleep (retry_delay * 2 ^ attempt)%nat w2; a_errors := errs;
                 response_text := response_text st |}
          else
            retry_loop more masked_message
              {| a_world := w2; a_errors := errs;
                 response_text := Some (give_up_text error_msg) |}
      end
  end.

(** The truth value of a string: it is not empty. *)
Definition truthy (t : fstring) : bool :=
  existsb (fun p => match p with
                    | Txt s => negb (String.eqb s "")
                    | Num _ | Money _ => true
                    end) t.

Inductive exception :=
| KeyErr (key : string)
| ValueErr
| TypeErr.

(** How a call of [send_message] ends, with the objects it has updated:
    the chatbot's [pii_masker], the session and the world. *)
Inductive result :=
| Returned (response : option fstring) (masker_after : masker)
    (session_after : chat_session) (world_after : world)
| Raised (e : exception) (masker_after : masker)
    (session_after : chat_session) (world_after : world).

(** [self.send_message(session, user_message)].  A [ValueError] of
    [_extract_entities] would leave the session with the fields stored
    before it; the model keeps the fields as they were. *)
Definition send_message (pii_masker : masker) (session : chat_session)
    (user_message : text) (w : world) : result :=
  let masked := mask_text pii_masker user_message in
  let pii_masker := fst masked in
  let masked_message := fst (snd masked) in
  let pii_metadata := snd (snd masked) in
  let (errs, w) :=
    match pii_detected pii_metadata with
    | [] => (errors session, w)
    | details =>
        let (now, w') := time w in
        (errors session ++ [pii_detected_entry details now], w')
    end in
  let history1 :=
    history session ++ [{| role := "user"; parts := [Some [Txt (str masked_message)]] |}] in
  let turns := turn_count session + 1 in
  let st := retry_loop (List.seq 0 max_retries) masked_message
              {| a_world := w; a_errors := errs; response_text := None |} in
  let history2 :=
    history1 ++ [{| role := "model"; parts := [response_text st] |}] in
  let after (d : Extract.session) :=
    {| history := history2; data := d;
       conversation_start := conversation_start session;
       turn_count := turns; fallback_count := fallback_count session;
       errors := a_errors st |} in
  match _extract_entities (data session) user_message with
  | None => Raised ValueErr pii_masker (after (data session)) (a_world st)
  | Some d =>
      match _check_for_decision d with
      | KeyError key => Raised (KeyErr key) pii_masker (after d) (a_world st)
      | Ok decision_result =>
          match decision_result with
          | Some decision_text =>
              if truthy decision_text then
                match response_text st with
                | Some r =>
                    Returned (Some (r ++ [Txt newline; Txt newline] ++ decision_text))
                             pii_masker (after d) (a_world st)
                | None => Raised TypeErr pii_masker (after d) (a_world st)
                end
              else Returned (response_text st) pii_masker (after d) (a_world st)
          | None => Returned (response_text st) pii_masker (after d) (a_world st)
          end
      end
  end.

Definition session_of (r : result) : chat_session :=
  match r with
  | Returned _ _ s _ | Raised _ _ s _ => s
  end.

Definition world_of (r : result) : world :=
  match r with
  | Returned _ _ _ w | Raised _ _ _ w => w
  end.

Definition masker_of (r : result) : masker :=
  match r with
  | Returned _ m _ _ | Raised _ m _ _ => m
  end.

End Turn.

(* ================================================================== *)
(** * A turn of the conversation *)
(* ================================================================== *)

Module TurnExtra.

Import Re Loan Extract Pii LoanSpec Chat ChatExtra Turn.

Local Open Scope string_scope.
Local Open Scope list_scope.

(** [entry['attempt']] of an [api_error] entry. *)
Definition attempt_of (e : error_entry) : option nat :=
  match e with
  | api_error_entry attempt _ _ => Some attempt
  | pii_detected_entry _ _ => None
  end.

Definition start (w : world) (errs : list error_entry) : attempt_state :=
  {| a_world := w; a_errors := errs; response_text := None |}.

(** The loop, one case for each way the three attempts can go. *)
Lemma retry_cases (m : text) (w : world) (errs : list error_entry) :
  let n := length (sent w) in
  let st := retry_loop (List.seq 0 max_retries) m (start w errs) in
  match api w n m with
  | inr t =>
      sent (a_world st) = sent w ++ [m] /\ slept (a_world st) = slept w /\
      ticks (a_world st) = ticks w /\
      a_errors st = errs /\ response_text st = Some [Txt (str t)]
  | inl e1 =>
      match api w (S n) m with
      | inr t =>
          sent (a_world st) = sent w ++ [m; m] /\ slept (a_world st) = slept w ++ [1] /\
          ticks (a_world st) = S (ticks w) /\
          a_errors st = errs ++ [api_error_entry 1 e1 (clock w (ticks w))] /\
          response_text st = Some [Txt (str t)]
      | inl e2 =>
          sent (a_world st) = sent w ++ [m; m; m] /\
          slept (a_world st) = slept w ++ [1; 2] /\
          match api w (S (S n)) m with
          | inr t =>
              ticks (a_world st) = S (S (ticks w)) /\
              a_errors st = errs ++ [api_error_entry 1 e1 (clock w (ticks w));
                                     api_error_entry 2 e2 (clock w (S (ticks w)))] /\
              response_text st = Some [Txt (str t)]
          | inl e3 =>
              ticks (a_world st) = S (S (S (ticks w))) /\
              a_errors st = errs ++ [api_error_entry 1 e1 (clock w (ticks w));
                                     api_error_entry 2 e2 (clock w (S (ticks w)));
                                     api_error_entry 3 e3 (clock w (S (S (ticks w))))] /\
              response_text st = Some (give_up_text e3)
          end
      end
  end /\
  api (a_world st) = api w /\ clock (a_world st) = clock w.
Proof.
  cbn zeta. unfold max_retries, start.
  cbn [List.seq retry_loop call_api a_world a_errors response_text].
  destruct (api w (length (sent w)) m) as [e1|t1] eqn:E1.
  2: { cbn [a_world a_errors response_text sent slept ticks api clock]. auto 7. }
  cbn [time sleep a_world a_errors response_text sent slept ticks api clock
       Nat.ltb Nat.leb Nat.sub Nat.add Nat.pow Nat.mul retry_delay].
  rewrite length_app. cbn [length]. rewrite Nat.add_1_r.
  destruct (api w (S (length (sent w))) m) as [e2|t2] eqn:E2.
  2: { cbn [a_world a_errors response_text sent slept ticks api clock].
       rewrite <- !app_assoc. auto 7. }
  cbn [time sleep a_world a_errors response_text sent slept ticks api clock
       Nat.ltb Nat.leb Nat.sub Nat.add Nat.pow Nat.mul retry_delay].
  rewrite !length_app. cbn [length]. rewrite !Nat.add_1_r.
  destruct (api w (S (S (length (sent w)))) m) as [e3|t3] eqn:E3;
    cbn [time sleep a_world a_errors response_text sent slept ticks api clock
         Nat.ltb Nat.leb Nat.sub Nat.add Nat.pow Nat.mul retry_delay];
    rewrite <- !app_assoc; auto 9.
Qed.

(** The retry loop calls the API at least once and at most
    [max_retries] times, always with the same message, and stops at the
    first call that succeeds.  It sleeps 1 and then 2 seconds between
    attempts and not after the last one; it logs one [api_error] entry
    for each failed attempt, numbered from 1; and it always leaves a
    response text: the reply of the call that succeeded, or the
    stand-in text for the error of the third attempt. *)
Theorem retry_discipline (m : text) (w : world) (errs : list error_entry) :
  let st := retry_loop (List.seq 0 max_retries) m (start w errs) in
  exists n es,
    1 <= n <= max_retries /\
    sent (a_world st) = sent w ++ repeat m n /\
    slept (a_world st) = slept w ++ firstn (n - 1) [1; 2] /\
    a_errors st = errs ++ es /\
    map attempt_of es = map Some (List.seq 1 (length es)) /\
    (forall i, i < n - 1 -> exists e, api w (length (sent w) + i) m = inl e) /\
    match api w (length (sent w) + (n - 1)) m with
    | inr t => length es = n - 1 /\ response_text st = Some [Txt (str t)]
    | inl e =>
        n = max_retries /\ length es = max_retries /\
        response_text st = Some (give_up_text e)
    end.
Proof.
  cbn zeta. destruct (retry_cases m w errs) as [H _]. cbn zeta in H.
  unfold max_retries in *.
  destruct (api w (length (sent w)) m) as [e1|t1] eqn:E1.
  2: { destruct H as (Hs & Hz & _ & He & Hr).
       exists 1, []. rewrite Hs, Hz, He, Hr, !app_nil_r, Nat.add_0_r, E1.
       repeat split; auto. intros i Hi. inversion Hi. }
  destruct (api w (S (length (sent w))) m) as [e2|t2] eqn:E2.
  2: { destruct H as (Hs & Hz & _ & He & Hr).
       exists 2, [api_error_entry 1 e1 (clock w (ticks w))].
       rewrite Hs, Hz, He, Hr, Nat.add_1_r, E2.
       repeat split; auto.
       intros i Hi. assert (i = 0) as -> by (simpl in Hi; lia).
       rewrite Nat.add_0_r. eauto. }
  destruct H as (Hs & Hz & H).
  assert (Hfail : forall i, i < 3 - 1 -> exists e, api w (length (sent w) + i) m = inl e).
  { intros i Hi. assert (i = 0 \/ i = 1) as [->| ->] by (simpl in Hi; lia).
    - rewrite Nat.add_0_r. eauto.
    - rewrite Nat.add_1_r. eauto. }
  replace (S (S (length (sent w)))) with (length (sent w) + (3 - 1)) in H
    by (simpl; lia).
  destruct (api w (length (sent w) + (3 - 1)) m) as [e3|t3] eqn:E3.
  - destruct H as (_ & He & Hr).
    exists 3, [api_error_entry 1 e1 (clock w (ticks w));
               api_error_entry 2 e2 (clock w (S (ticks w)));
               api_error_entry 3 e3 (clock w (S (S (ticks w))))].
    rewrite Hs, Hz, He, Hr, E3. repeat split; auto.
  - destruct H as (_ & He & Hr).
    exists 3, [api_error_entry 1 e1 (clock w (ticks w));
               api_error_entry 2 e2 (clock w (S (ticks w)))].
    rewrite Hs, Hz, He, Hr, E3. repeat split; auto.
Qed.

Lemma retry_summary (m : text) (w : world) (errs : list error_entry) :
  let st := retry_loop (List.seq 0 max_retries) m (start w errs) in
  exists n es reply,
    1 <= n <= max_retries /\
    sent (a_world st) = sent w ++ repeat m n /\
    a_errors st = errs ++ es /\
    response_text st = Some reply.
Proof.
  cbn zeta. destruct (retry_cases m w errs) as [H _]. cbn zeta in H.
  unfold max_retries in *.
  destruct (api w (length (sent w)) m) as [e1|t1].
  2: { destruct H as (Hs & _ & _ & He & Hr). exists 1, [], [Txt (str t1)].
       rewrite Hs, He, Hr, app_nil_r. repeat split; auto. }
  destruct (api w (S (length (sent w))) m) as [e2|t2].
  2: { destruct H as (Hs & _ & _ & He & Hr). eexists 2, _, _.
       rewrite Hs, He, Hr. repeat split; auto. }
  destruct H as (Hs & _ & H).
  destruct (api w (S (S (length (sent w)))) m) as [e3|t3];
    destruct H as (_ & He & Hr); eexists 3, _, _; rewrite Hs, He, Hr;
    repeat split; auto.
Qed.

(** ** The whole turn *)

(** The session a turn leaves behind. *)
Definition after_turn (s : chat_session) (masked : text) (reply : fstring)
    (d : session) (es : list error_entry) : chat_session :=
  {| history := (history s ++ [{| role := "user"; parts := [Some [Txt (str masked)]] |}])
                ++ [{| role := "model"; parts := [Some reply] |}];
     data := d;
     conversation_start := conversation_start s;
     turn_count := turn_count s + 1;
     fallback_count := fallback_count s;
     errors := errors s ++ es |}.

Lemma send_message_shape (bot : masker) (s : chat_session) (msg : text) (w : world) :
  let masked := fst (snd (mask_text bot msg)) in
  let bot' := fst (mask_text bot msg) in
  exists n es reply d w',
    1 <= n <= max_retries /\
    sent w' = sent w ++ repeat masked n /\
    _extract_entities (data s) msg = Some d /\
    send_message bot s msg w =
      match _check_for_decision d with
      | KeyError key => Raised (KeyErr key) bot' (after_turn s masked reply d es) w'
      | Ok (Some t) =>
          if truthy t
          then Returned (Some (reply ++ [Txt newline; Txt newline] ++ t)) bot'
                        (after_turn s masked reply d es) w'
          else Returned (Some reply) bot' (after_turn s masked reply d es) w'
      | Ok None => Returned (Some reply) bot' (after_turn s masked reply d es) w'
      end.
Proof.
  intros masked bot'.
  destruct (extract_entities_some (data s) msg) as (d & Ed).
  assert (Hpre : exists es0 w0,
            match pii_detected (snd (snd (mask_text bot msg))) with
            | [] => (errors s, w)
            | details =>
                let (now, w') := time w in
                (errors s ++ [pii_detected_entry details now], w')
            end = (errors s ++ es0, w0) /\ sent w0 = sent w).
  { destruct (pii_detected (snd (snd (mask_text bot msg)))) as [|ty tys].
    - exists [], w. rewrite app_nil_r. auto.
    - unfold time. eexists _, _. split; reflexivity. }
  destruct Hpre as (es0 & w0 & Hpre & Hw0).
  destruct (retry_summary masked w0 (errors s ++ es0)) as (n & es & reply & Hn & Hs & He & Hr).
  cbn zeta in Hs, He, Hr. unfold start in Hs, He, Hr.
  exists n, (es0 ++ es), reply, d,
    (a_world (retry_loop (List.seq 0 max_retries) masked
                {| a_world := w0; a_errors := errors s ++ es0; response_text := None |})).
  split; [exact Hn|]. split; [rewrite Hs, Hw0; reflexivity|]. split; [exact Ed|].
  unfold send_message. cbv beta zeta. fold masked. fold bot'.
  rewrite Hpre, Ed. cbv beta iota zeta.
  rewrite Hr, He. unfold after_turn. rewrite <- (app_assoc (errors s) es0 es).
  destruct (_check_for_decision d) as [[t|]|key]; try destruct (truthy t); reflexivity.
Qed.

(** In every turn the message is masked before it leaves: each call of
    the API, and the history, get the text [mask_text] returned, while
    [_extract_entities] reads the message as typed.  The API is called
    one to three times, the turn counter goes up by one, the history
    gains the masked message and a reply, and the error log is only
    extended; this holds as well when the call ends in an exception. *)
Theorem message_is_masked_before_it_leaves
    (bot : masker) (s : chat_session) (msg : text) (w : world) :
  let masked := fst (snd (mask_text bot msg)) in
  let r := send_message bot s msg w in
  (exists n, 1 <= n <= max_retries /\ sent (world_of r) = sent w ++ repeat masked n) /\
  (exists reply,
     history (session_of r) =
       (history s ++ [{| role := "user"; parts := [Some [Txt (str masked)]] |}])
       ++ [{| role := "model"; parts := [Some reply] |}]) /\
  turn_count (session_of r) = turn_count s + 1 /\
  _extract_entities (data s) msg = Some (data (session_of r)) /\
  (exists es, errors (session_of r) = errors s ++ es) /\
  masker_of r = fst (mask_text bot msg).
Proof.
  cbn zeta.
  destruct (send_message_shape bot s msg w) as (n & es & reply & d & w' & Hn & Hs & Ed & E).
  rewrite E, Ed. clear E.
  assert (Hgoal : forall r,
            session_of r = after_turn s (fst (snd (mask_text bot msg))) reply d es ->
            world_of r = w' -> masker_of r = fst (mask_text bot msg) ->
            (exists n, 1 <= n <= max_retries /\
                       sent (world_of r) = sent w ++ repeat (fst (snd (mask_text bot msg))) n) /\
            (exists reply,
               history (session_of r) =
                 (history s ++ [{| role := "user";
                                   parts := [Some [Txt (str (fst (snd (mask_text bot msg))))]] |}])
                 ++ [{| role := "model"; parts := [Some reply] |}]) /\
            turn_count (session_of r) = turn_count s + 1 /\
            Some d = Some (data (session_of r)) /\
            (exists es, errors (session_of r) = errors s ++ es) /\
            masker_of r = fst (mask_text bot msg)).
  { intros r -> -> ->. unfold after_turn. cbn [history turn_count data errors].
    repeat split; eauto. }
  destruct (_check_for_decision d) as [[t|]|key]; try destruct (truthy t);
    apply Hgoal; reflexivity.
Qed.

(** [send_message] always has a response text to return, never [None].
    The one exception that can escape it is the
    [KeyError('applicant_summary')] of [_check_for_decision]; it does so
    exactly when, after this message, all five fields are present and
    the income is zero or less. *)
Theorem only_key_error_escapes
    (bot : masker) (s : chat_session) (msg : text) (w : world) :
  match send_message bot s msg w with
  | Returned response _ s' _ =>
      response <> None /\
      forall gi debt loan emp credit,
        extracted_data (data s') = complete gi debt loan emp credit ->
        (gi <=? 0)%float = false
  | Raised e _ s' _ =>
      e = KeyErr "applicant_summary" /\
      exists gi debt loan emp credit,
        extracted_data (data s') = complete gi debt loan emp credit /\
        (gi <=? 0)%float = true
  end.
Proof.
  destruct (send_message_shape bot s msg w) as (n & es & reply & d & w' & Hn & Hs & Ed & E).
  cbn zeta in E. rewrite E. clear E.
  destruct (_check_for_decision d) as [[t|]|key] eqn:Ec.
  - apply decided_inv in Ec. destruct Ec as (gi & debt & loan & emp & credit & Hd & Hgi).
    assert (Hok : forall gi' debt' loan' emp' credit',
              extracted_data d = complete gi' debt' loan' emp' credit' ->
              (gi' <=? 0)%float = false).
    { intros gi' debt' loan' emp' credit' Hd'. rewrite Hd in Hd'.
      inversion Hd'. subst. exact Hgi. }
    destruct (truthy t); (split; [discriminate | exact Hok]).
  - apply undecided_iff in Ec. split; [discriminate|].
    intros gi debt loan emp credit Hd. cbn [after_turn data] in Hd.
    rewrite Hd in Ec. discriminate Ec.
  - apply key_error_inv in Ec. destruct Ec as (-> & Hex). split; [reflexivity | exact Hex].
Qed.

End TurnExtra.

(* ================================================================== *)
(** * services/gemini_service.py: [get_conversation_metrics] *)
(* ================================================================== *)

Module Snapshot.

Import Re Loan Extract Pii LoanSpec Chat ChatExtra Turn.

Local Open Scope string_scope.
Local Open Scope list_scope.

(** The dictionary [get_conversation_metrics] returns. *)
Record conversation_metrics := {
  conversation_duration_seconds : float;
  m_turn_count : nat;
  m_intent_recognized : bool;
  m_entities_extracted : list string;
  entity_extraction_count : nat;
  m_fallback_count : nat;
  error_count : nat;
  data_completeness : float;
  m_errors : list error_entry
}.

(** [len(session['extracted_data'])]: the dictionary has no other keys
    than the five that [_extract_entities] stores. *)
Definition count_keys (d : applicant_data) : nat :=
  (if is_missing (gross_monthly_income d) then 0 else 1) +
  (if is_missing (total_monthly_debt d) then 0 else 1) +
  (if is_missing (loan_amount d) then 0 else 1) +
  (if is_missing (employment_status d) then 0 else 1) +
  (if is_missing (credit_score_range d) then 0 else 1).

Section SetOrder.

(** [list(set(l))]: the order in which a set is listed is not fixed by
    the language. *)
Variable list_of_set : list string -> list string.

Definition get_conversation_metrics (s : chat_session) (w : world)
  : conversation_metrics * world :=
  let (now, w') := time w in
  let duration := (now - conversation_start s)%float in
  ({| conversation_duration_seconds := duration;
      m_turn_count := turn_count s;
      m_intent_recognized := intent_recognized (s_metrics (data s));
      m_entities_extracted := list_of_set (entities_extracted (s_metrics (data s)));
      entity_extraction_count := length (entities_extracted (s_metrics (data s)));
      m_fallback_count := fallback_count s;
      error_count := length (errors s);
      data_completeness :=
        (PyFloat.of_Z (Z.of_nat (count_keys (extracted_data (data s)))) / 5 * 100)%float;
      m_errors := errors s |},
   w').

End SetOrder.

Lemma count_keys_complete (d : applicant_data) :
  count_keys d <= 5 /\
  (count_keys d = 5 <-> fst (check_data_completeness d) = true).
Proof.
  destruct d as [[gi|] [debt|] [loan|] [emp|] [credit|]];
    (split; [cbn; lia | split; intros H; try reflexivity; discriminate H]).
Qed.

Lemma percentage (k : nat) :
  k <= 5 ->
  let p := (PyFloat.of_Z (Z.of_nat k) / 5 * 100)%float in
  p = PyFloat.of_Z (20 * Z.of_nat k) /\ (p = 100%float <-> k = 5).
Proof.
  intros Hk.
  assert (Hcase : k = 0 \/ k = 1 \/ k = 2 \/ k = 3 \/ k = 4 \/ k = 5) by lia.
  destruct Hcase as [->|[->|[->|[->|[->| ->]]]]]; cbn zeta;
    (split; [vm_compute; reflexivity|]);
    (split; [intros H | intros H; try discriminate H; vm_compute; reflexivity]);
    try reflexivity;
    apply (f_equal (fun x => (x <? 100)%float)) in H; vm_compute in H; discriminate H.
Qed.

(** [data_completeness] is 20 times the number of fields present, so it
    is one of 0, 20, 40, 60, 80 and 100, and it is 100 exactly when
    [_check_for_decision] no longer returns [None]; the two counts are
    the lengths of the logs, repeated entries included. *)
Theorem completeness_is_twenty_per_field
    (list_of_set : list string -> list string) (s : chat_session) (w : world) :
  let m := fst (get_conversation_metrics list_of_set s w) in
  let k := count_keys (extracted_data (data s)) in
  k <= 5 /\
  data_completeness m = PyFloat.of_Z (20 * Z.of_nat k) /\
  (data_completeness m = 100%float <-> _check_for_decision (data s) <> Ok None) /\
  entity_extraction_count m = length (entities_extracted (s_metrics (data s))) /\
  error_count m = length (errors s).
Proof.
  cbn zeta. unfold get_conversation_metrics, time.
  cbn [fst data_completeness entity_extraction_count error_count].
  destruct (count_keys_complete (extracted_data (data s))) as [Hk Hc].
  destruct (percentage _ Hk) as [Hp Hfull]. cbn zeta in Hp, Hfull.
  split; [exact Hk|]. split; [exact Hp|]. split; [|split; reflexivity].
  rewrite Hfull, Hc, undecided_iff.
  destruct (fst (check_data_completeness (extracted_data (data s)))); split;
    congruence.
Qed.

End Snapshot.
